(** * ThreadFront: the session / pause coordinator of the replay devtools

    A shallow embedding of [_ThreadFront] (the class exported as the
    singleton [ThreadFront]) and of the part of the JavaScript run time it
    relies on: promises that settle later, zero-delay timers and event
    emission.  Each synchronous stretch of code between two suspension
    points ([await], [setTimeout]) is one function of the model; the
    suspended remainder is a defunctionalised task that a later turn of
    the event loop runs.  Any task that is ready may take the next turn,
    which allows every order the run time allows, and more.

    What the model leaves out: [log] calls; what listeners do when an
    event is emitted (they are taken not to call back into the coordinator
    before [emit] returns); the inside of [Pause] objects and of the
    protocol client.  Numbers are integers: the code only stores times,
    tests them for truthiness, and counts with the epoch and the pending
    mutations, far below the range where JavaScript numbers stop being
    exact. *)

From Stdlib Require Import ZArith.
From stdpp Require Import gmap strings list fin_maps relations.

#[local] Set Warnings "-clear-no-such-hyp".

Local Open Scope Z_scope.
Local Open Scope string_scope.
Local Open Scope list_scope.

(** ** JavaScript values *)

Module Js.

(** Modelled from the spec: [assert] of [../utils], which is not part of
    the sources at hand; a failed assertion is "fatal": it "aborts the
    operation".  So a synchronous call returns, or an [assert] throws. *)
Inductive completion (A : Type) : Type :=
| Returned (a : A)
| AssertionFailed.
Arguments Returned {A} a.
Arguments AssertionFailed {A}.

(** How a promise settles. *)
Inductive settled (A : Type) : Type :=
| Resolved (a : A)
| Rejected.
Arguments Resolved {A} a.
Arguments Rejected {A}.

(** A loop of the model that is cut off by a bound on its iterations. *)
Inductive bounded (A : Type) : Type :=
| Done (a : A)
| Failed
| OutOfFuel.
Arguments Done {A} a.
Arguments Failed {A}.
Arguments OutOfFuel {A}.

(** [!!s] for a string: only the empty string is falsy. *)
Definition truthy_string (s : string) : bool :=
  if decide (s = "") then false else true.

(** [!!x] for [x : string | undefined]. *)
Definition truthy_opt_string (x : option string) : bool :=
  match x with
  | Some s => truthy_string s
  | None => false
  end.

(** [!!n] for a number that is not NaN. *)
Definition truthy_number (n : Z) : bool := negb (Z.eqb n 0).

(** [!!b] for [b : boolean | undefined]. *)
Definition truthy_opt_bool (b : option bool) : bool := default false b.

(** [a || b] on strings. *)
Definition or_string (a b : string) : string :=
  if truthy_string a then a else b.

(** [xs.pop()]: the last element and the array that remains. *)
Fixpoint pop {A} (xs : list A) : option (list A * A) :=
  match xs with
  | [] => None
  | x :: rest =>
      match pop rest with
      | None => Some ([], x)
      | Some (init, y) => Some (x :: init, y)
      end
  end.

(** [xs.includes(x)]. *)
Definition includes `{EqDecision A} (xs : list A) (x : A) : bool :=
  bool_decide (x ∈ xs).

(** [xs.some(p)]. *)
Definition some {A} (p : A → bool) (xs : list A) : bool := existsb p xs.

(** [xs.filter(p)] with a boolean callback. *)
Fixpoint filter {A} (p : A → bool) (xs : list A) : list A :=
  match xs with
  | [] => []
  | x :: rest => if p x then x :: filter p rest else filter p rest
  end.

End Js.

Import Js.

(** ** Protocol types *)

Definition ExecutionPoint := string.
Definition SourceId := string.
Definition SessionId := string.
Definition BreakpointId := string.
Definition TimeStamp := Z.

(** [SourceKind] of the protocol package: the four kinds the code tests
    for, and the two it never names. *)
Inductive SourceKind : Set :=
| inlineScript
| scriptSource
| other
| html
| prettyPrinted
| sourceMapped.

#[global] Instance SourceKind_eq_dec : EqDecision SourceKind.
Proof. solve_decision. Defined.

(** [interface Source]. *)
Record Source : Type := mkSource {
  kind : SourceKind;
  url : option string;
  generatedSourceIds : option (list SourceId);
}.

(** The [newSource] event of the protocol. *)
Record newSource : Type := mkNewSource {
  ns_sourceId : SourceId;
  ns_kind : SourceKind;
  ns_url : option string;
  ns_generatedSourceIds : option (list SourceId);
}.

(** ** The source registry *)

Module Registry.

(** The fields of [_ThreadFront] that describe sources. *)
Record t : Type := mk {
  sources : gmap SourceId Source;
  urlSources : gmap string (list SourceId);
  originalSources : gmap SourceId (list SourceId);
  preferredGeneratedSources : gset SourceId;
}.

Definition empty : t :=
  {| sources := ∅; urlSources := ∅; originalSources := ∅;
     preferredGeneratedSources := ∅ |}.

(** Modelled from the spec: [ArrayMap.add] of [../utils], which is not
    part of the sources at hand; the registry "maintains the reverse edge
    (generated → originals)" and "URL→source-id groupings", so [add]
    appends the value to the array kept under the key. *)
Definition ArrayMap_add (m : gmap string (list SourceId)) (key : string)
    (value : SourceId) : gmap string (list SourceId) :=
  <[key := default [] (m !! key) ++ [value]]> m.

(** The listener installed by [findSources], up to the waiters and the
    [onSource] callback. *)
Definition addSource (r : t) (s : newSource) : t :=
  {| sources :=
       <[ns_sourceId s :=
           mkSource (ns_kind s) (ns_url s) (ns_generatedSourceIds s)]>
         (sources r);
     urlSources :=
       if truthy_opt_string (ns_url s)
       then ArrayMap_add (urlSources r) (default "" (ns_url s)) (ns_sourceId s)
       else urlSources r;
     originalSources :=
       fold_left (λ m generatedId, ArrayMap_add m generatedId (ns_sourceId s))
         (default [] (ns_generatedSourceIds s)) (originalSources r);
     preferredGeneratedSources := preferredGeneratedSources r |}.

Definition getSourceKind (r : t) (sourceId : SourceId) : option SourceKind :=
  kind <$> sources r !! sourceId.

(** [this.originalSources.map.get(id) || []]. *)
Definition originalIdsOf (r : t) (sourceId : SourceId) : list SourceId :=
  default [] (originalSources r !! sourceId).

Definition isMinifiedSource (r : t) (sourceId : SourceId) : bool :=
  some (λ id,
          match sources r !! id with
          | Some info => bool_decide (kind info = prettyPrinted)
          | None => false
          end)
       (originalIdsOf r sourceId).

(** [info.generatedSourceIds ? this.sources.get(info.generatedSourceIds[0])
    : undefined]. *)
Definition minifiedInfoOf (r : t) (info : Source) : option Source :=
  match generatedSourceIds info with
  | Some (first :: _) => sources r !! first
  | Some [] => None
  | None => None
  end.

(** The kind of a source, or of its minified version: the body shared by
    [_chooseSourceId] and [isSourceMappedSource].  [None] is the early
    exit taken when the minified version is not known yet. *)
Definition resolvedKind (r : t) (info : Source)
  : option (completion SourceKind) :=
  if decide (kind info = prettyPrinted) then
    match minifiedInfoOf r info with
    | None => None
    | Some minifiedInfo =>
        if decide (kind minifiedInfo = prettyPrinted)
        then Some AssertionFailed
        else Some (Returned (kind minifiedInfo))
    end
  else Some (Returned (kind info)).

Definition isSourceMappedSource (r : t) (sourceId : SourceId)
  : completion bool :=
  match sources r !! sourceId with
  | None => Returned false
  | Some info =>
      match resolvedKind r info with
      | None => Returned false
      | Some AssertionFailed => AssertionFailed
      | Some (Returned k) => Returned (bool_decide (k = sourceMapped))
      end
  end.

(** [preferSource(sourceId, value)]; [value] is only tested for
    truthiness. *)
Definition preferSource (r : t) (sourceId : SourceId) (value : bool)
  : completion t :=
  match isSourceMappedSource r sourceId with
  | AssertionFailed => AssertionFailed
  | Returned true => AssertionFailed
  | Returned false =>
      Returned
        {| sources := sources r;
           urlSources := urlSources r;
           originalSources := originalSources r;
           preferredGeneratedSources :=
             if value then {[sourceId]} ∪ preferredGeneratedSources r
             else preferredGeneratedSources r ∖ {[sourceId]} |}
  end.

(** The object literal [_chooseSourceId] returns. *)
Record Choice : Type := mkChoice {
  sourceId : SourceId;
  alternateId : option SourceId;
}.

(** The [for] loop of [_chooseSourceId] over the filtered ids, carrying
    [generatedId] and [originalId]; [inl] is an early [return]. *)
Fixpoint chooseLoop (r : t) (ids : list SourceId)
    (generatedId originalId : option SourceId)
  : completion (Choice + option SourceId * option SourceId) :=
  match ids with
  | [] => Returned (inr (generatedId, originalId))
  | id :: rest =>
      match sources r !! id with
      | None => Returned (inl (mkChoice id None))
      | Some info =>
          match resolvedKind r info with
          | None => Returned (inl (mkChoice id None))
          | Some AssertionFailed => AssertionFailed
          | Some (Returned k) =>
              if decide (k = sourceMapped)
              then chooseLoop r rest generatedId (Some id)
              else if truthy_opt_string generatedId
                   then AssertionFailed
                   else chooseLoop r rest (Some id) originalId
          end
      end
  end.

Definition _chooseSourceId (r : t) (sourceIds : list SourceId)
  : completion Choice :=
  let sourceIds :=
    if some (λ id, bool_decide (getSourceKind r id = Some html)) sourceIds
    then Js.filter
           (λ id, negb (bool_decide (getSourceKind r id = Some inlineScript)))
           sourceIds
    else sourceIds in
  let sourceIds := Js.filter (λ id, negb (isMinifiedSource r id)) sourceIds in
  match chooseLoop r sourceIds None None with
  | AssertionFailed => AssertionFailed
  | Returned (inl early) => Returned early
  | Returned (inr (generatedId, originalId)) =>
      let g := default "" generatedId in
      let o := default "" originalId in
      if negb (truthy_opt_string generatedId) then
        if truthy_opt_string originalId
        then Returned (mkChoice o None)
        else AssertionFailed
      else if negb (truthy_opt_string originalId) then
        Returned (mkChoice g None)
      else if bool_decide (g ∈ preferredGeneratedSources r) then
        Returned (mkChoice g (Some o))
      else Returned (mkChoice o (Some g))
  end.

(** [generatedSourceIds || []] of a registered source. *)
Definition generatedIdsOf (info : Source) : list SourceId :=
  default [] (generatedSourceIds info).

(** The [while (worklist.length)] loop of [_getAlternateSourceIds].  [rv]
    is the [Set] in insertion order, [worklist] the array with its last
    element on top.  [Failed] is [assert(sources)]. *)
Fixpoint alternatesLoop (fuel : nat) (r : t) (rv worklist : list SourceId)
  : bounded (list SourceId) :=
  match fuel with
  | O => OutOfFuel
  | S fuel =>
      match pop worklist with
      | None => Done rv
      | Some (worklist, sourceId) =>
          if includes rv sourceId then alternatesLoop fuel r rv worklist
          else
            match sources r !! sourceId with
            | None => Failed
            | Some info =>
                alternatesLoop fuel r (rv ++ [sourceId])
                  (worklist ++ generatedIdsOf info ++ originalIdsOf r sourceId)
            end
      end
  end.

(** The number of ids the loop can ever push: one per edge that leaves a
    registered source. *)
Definition degree (r : t) (entry : SourceId * Source) : nat :=
  length (generatedIdsOf entry.2 ++ originalIdsOf r entry.1).

Definition alternatesFuel (r : t) : nat :=
  2 + sum_list (degree r <$> map_to_list (sources r)).

Definition _getAlternateSourceIds (r : t) (sourceId : SourceId)
  : bounded (list SourceId) :=
  alternatesLoop (alternatesFuel r) r [] [sourceId].

(** The [while (sourceIds.length)] loop of [_groupSourceIds]. *)
Fixpoint groupLoop (fuel : nat) (r : t) (sourceIds : list SourceId)
    (groups : list (list SourceId)) : bounded (list (list SourceId)) :=
  match fuel with
  | O => OutOfFuel
  | S fuel =>
      match sourceIds with
      | [] => Done groups
      | id :: _ =>
          match _getAlternateSourceIds r id with
          | Done alternates =>
              let group := Js.filter (includes sourceIds) alternates in
              groupLoop fuel r
                (Js.filter (λ id, negb (includes group id)) sourceIds)
                (groups ++ [group])
          | Failed => Failed
          | OutOfFuel => OutOfFuel
          end
      end
  end.

Definition _groupSourceIds (r : t) (sourceIds : list SourceId)
  : bounded (list (list SourceId)) :=
  groupLoop (S (length sourceIds)) r sourceIds [].

(** [groups.map(ids => this._chooseSourceId(ids))]: the first assertion
    that fails ends the whole call. *)
Fixpoint chooseEach (r : t) (groups : list (list SourceId))
  : completion (list Choice) :=
  match groups with
  | [] => Returned []
  | ids :: rest =>
      match _chooseSourceId r ids with
      | AssertionFailed => AssertionFailed
      | Returned c =>
          match chooseEach r rest with
          | AssertionFailed => AssertionFailed
          | Returned cs => Returned (c :: cs)
          end
      end
  end.

Definition _chooseSourceIdList (r : t) (sourceIds : list SourceId)
  : bounded (list Choice) :=
  match _groupSourceIds r sourceIds with
  | Done groups =>
      match chooseEach r groups with
      | Returned cs => Done cs
      | AssertionFailed => Failed
      end
  | Failed => Failed
  | OutOfFuel => OutOfFuel
  end.

End Registry.

(** ** More protocol types *)

(** [Frame] of the protocol, as far as the coordinator looks at it: it
    only tests whether a target has one. *)
Record Frame : Type := mkFrame { frameId : string }.

(** [PauseDescription].  [pd_ref] stands for the identity of the JavaScript
    object: two descriptions with the same [pd_ref] are one object. *)
Record PauseDescription : Type := mkPauseDescription {
  pd_ref : nat;
  pd_point : ExecutionPoint;
  pd_time : TimeStamp;
  pd_frame : option Frame;
}.

Record Location : Type := mkLocation {
  loc_sourceId : SourceId;
  loc_line : Z;
  loc_column : Z;
}.

Record SourceLocation : Type := mkSourceLocation {
  sl_line : Z;
  sl_column : Z;
}.

(** [PauseEventArgs], with [hasFrames] as [timeWarp] passes it on. *)
Record PauseEventArgs : Type := mkPauseEventArgs {
  ev_point : ExecutionPoint;
  ev_time : TimeStamp;
  ev_hasFrames : option bool;
}.

(** What [warpCallback] returns when it is not [null]. *)
Record WarpTarget : Type := mkWarpTarget {
  wt_point : ExecutionPoint;
  wt_time : TimeStamp;
  wt_hasFrames : option bool;
}.

(** Modelled from the spec: the six [client.Debugger.find...Target]
    commands of [../socket], which is not part of the sources at hand; one
    per resume-family operation, "each parameterized by a distinct remote
    command kind". *)
Inductive FindTargetCommand : Set :=
| findRewindTarget
| findResumeTarget
| findReverseStepOverTarget
| findStepOverTarget
| findStepInTarget
| findStepOutTarget.

(** [command.name]: each command is a function named after its property. *)
Definition name (command : FindTargetCommand) : string :=
  match command with
  | findRewindTarget => "findRewindTarget"
  | findResumeTarget => "findResumeTarget"
  | findReverseStepOverTarget => "findReverseStepOverTarget"
  | findStepOverTarget => "findStepOverTarget"
  | findStepInTarget => "findStepInTarget"
  | findStepOutTarget => "findStepOutTarget"
  end.

(** A reference to a [Pause] object: one that [ensurePause] built (the
    n-th), or one built elsewhere, such as for a console message. *)
Inductive PauseRef : Set :=
| OwnPause (index : nat)
| GivenPause (id : nat).

(** Modelled from the spec: class [Pause] of [./pause], which is not part
    of the sources at hand.  A Pause "carries" point, time and hasFrames;
    each is [undefined] until the Pause has been created or instantiated. *)
Record Pause : Type := mkPause {
  self : PauseRef;
  pause_point : option ExecutionPoint;
  pause_time : option TimeStamp;
  pause_hasFrames : option bool;
}.

(** ** The coordinator's own state *)

Record ThreadFront : Type := mkThreadFront {
  currentPoint : ExecutionPoint;
  currentTime : TimeStamp;
  currentPointHasFrames : bool;
  currentPause : option PauseRef;
  asyncPauses : list PauseRef;
  sessionId : option SessionId;
  registry : Registry.t;
  resumeTargets : gmap string PauseDescription;
  resumeTargetEpoch : Z;
  numPendingInvalidateCommands : Z;
  invalidateCommandWaiters : list nat;
  allPauses : gmap ExecutionPoint PauseRef;
  breakpoints : list (BreakpointId * Location);
  warpCallback :
    option (ExecutionPoint → TimeStamp → option bool → option WarpTarget);
}.

(** The field initialisers of the class. *)
Definition initialThreadFront : ThreadFront :=
  {| currentPoint := "0"; currentTime := 0; currentPointHasFrames := false;
     currentPause := None; asyncPauses := []; sessionId := None;
     registry := Registry.empty; resumeTargets := ∅; resumeTargetEpoch := 0;
     numPendingInvalidateCommands := 0; invalidateCommandWaiters := [];
     allPauses := ∅; breakpoints := []; warpCallback := None |}.

Module Upd.

(** Field assignments on [ThreadFront]. *)
Definition set_position (f : ThreadFront) (p : ExecutionPoint) (t : TimeStamp)
    (h : bool) (pause : option PauseRef) : ThreadFront :=
  mkThreadFront p t h pause [] (sessionId f) (registry f) (resumeTargets f)
    (resumeTargetEpoch f) (numPendingInvalidateCommands f)
    (invalidateCommandWaiters f) (allPauses f) (breakpoints f)
    (warpCallback f).

Definition set_currentPause (f : ThreadFront) (pause : option PauseRef)
  : ThreadFront :=
  mkThreadFront (currentPoint f) (currentTime f) (currentPointHasFrames f)
    pause (asyncPauses f) (sessionId f) (registry f) (resumeTargets f)
    (resumeTargetEpoch f) (numPendingInvalidateCommands f)
    (invalidateCommandWaiters f) (allPauses f) (breakpoints f)
    (warpCallback f).

Definition set_sessionId (f : ThreadFront) (s : option SessionId) : ThreadFront :=
  mkThreadFront (currentPoint f) (currentTime f) (currentPointHasFrames f)
    (currentPause f) (asyncPauses f) s (registry f)
    (resumeTargets f) (resumeTargetEpoch f) (numPendingInvalidateCommands f)
    (invalidateCommandWaiters f) (allPauses f) (breakpoints f)
    (warpCallback f).

Definition set_registry (f : ThreadFront) (r : Registry.t) : ThreadFront :=
  mkThreadFront (currentPoint f) (currentTime f) (currentPointHasFrames f)
    (currentPause f) (asyncPauses f) (sessionId f) r
    (resumeTargets f) (resumeTargetEpoch f) (numPendingInvalidateCommands f)
    (invalidateCommandWaiters f) (allPauses f) (breakpoints f)
    (warpCallback f).

Definition set_resumeTargets (f : ThreadFront)
    (m : gmap string PauseDescription) : ThreadFront :=
  mkThreadFront (currentPoint f) (currentTime f) (currentPointHasFrames f)
    (currentPause f) (asyncPauses f) (sessionId f)
    (registry f) m (resumeTargetEpoch f)
    (numPendingInvalidateCommands f) (invalidateCommandWaiters f)
    (allPauses f) (breakpoints f) (warpCallback f).

(** The three assignments that open [_invalidateResumeTargets]. *)
Definition set_invalidated (f : ThreadFront) : ThreadFront :=
  mkThreadFront (currentPoint f) (currentTime f) (currentPointHasFrames f)
    (currentPause f) (asyncPauses f) (sessionId f)
    (registry f) ∅ (resumeTargetEpoch f + 1)
    (numPendingInvalidateCommands f + 1) (invalidateCommandWaiters f)
    (allPauses f) (breakpoints f) (warpCallback f).

Definition set_pending (f : ThreadFront) (n : Z) (waiters : list nat)
  : ThreadFront :=
  mkThreadFront (currentPoint f) (currentTime f) (currentPointHasFrames f)
    (currentPause f) (asyncPauses f) (sessionId f)
    (registry f) (resumeTargets f) (resumeTargetEpoch f)
    n waiters (allPauses f) (breakpoints f) (warpCallback f).

Definition set_allPauses (f : ThreadFront) (m : gmap ExecutionPoint PauseRef)
  : ThreadFront :=
  mkThreadFront (currentPoint f) (currentTime f) (currentPointHasFrames f)
    (currentPause f) (asyncPauses f) (sessionId f)
    (registry f) (resumeTargets f) (resumeTargetEpoch f)
    (numPendingInvalidateCommands f) (invalidateCommandWaiters f) m
    (breakpoints f) (warpCallback f).

Definition set_breakpoints (f : ThreadFront) (b : list (BreakpointId * Location))
  : ThreadFront :=
  mkThreadFront (currentPoint f) (currentTime f) (currentPointHasFrames f)
    (currentPause f) (asyncPauses f) (sessionId f)
    (registry f) (resumeTargets f) (resumeTargetEpoch f)
    (numPendingInvalidateCommands f) (invalidateCommandWaiters f)
    (allPauses f) b (warpCallback f).

Definition set_warpCallback (f : ThreadFront)
    (cb : option (ExecutionPoint → TimeStamp → option bool → option WarpTarget))
  : ThreadFront :=
  mkThreadFront (currentPoint f) (currentTime f) (currentPointHasFrames f)
    (currentPause f) (asyncPauses f) (sessionId f)
    (registry f) (resumeTargets f) (resumeTargetEpoch f)
    (numPendingInvalidateCommands f) (invalidateCommandWaiters f)
    (allPauses f) (breakpoints f) cb.

End Upd.

(** ** The run time around the coordinator *)

(** The events the coordinator emits. *)
Inductive Event : Type :=
| Paused (args : PauseEventArgs)
| Resumed.

(** One call of [emit]: listeners run inside it, so they see the
    coordinator as it is at that moment. *)
Record Emission : Type := mkEmission {
  event : Event;
  observed : ThreadFront;
}.

(** The code that awaits a [_findResumeTarget] promise. *)
Inductive Awaiting : Type :=
| InResumeOperation (activation : nat)
| InPrecache (point : ExecutionPoint) (epoch : Z)
    (transitive : list FindTargetCommand)
| InTransitive (point : ExecutionPoint) (epoch : Z)
| InResumeTarget.

(** The callbacks handed to [_invalidateResumeTargets]. *)
Inductive Mutation : Type :=
| SetBreakpoint (location : Location) (condition : option string)
| RemoveBreakpoint (breakpointId : BreakpointId)
| BlackboxSource (sourceId : SourceId) (begin end_ : SourceLocation)
| UnblackboxSource (sourceId : SourceId) (begin end_ : SourceLocation).

(** A remote command in flight, with what its reply resumes: the rest of
    [_findResumeTarget], or the rest of a mutation callback. *)
Inductive Request : Type :=
| FindTarget (command : FindTargetCommand) (point : ExecutionPoint)
    (key : string) (epoch : Z) (awaiting : Awaiting)
| Mutate (m : Mutation).

(** What the recording service answers. *)
Inductive Reply : Type :=
| GotTarget (target : PauseDescription)
| GotBreakpoint (breakpointId : option BreakpointId)
| GotNothing
| GotError.

(** Promise reactions waiting for their turn. *)
Inductive Job : Type :=
| AfterFind (awaiting : Awaiting) (target : PauseDescription)
| Finally (outcome : settled unit)
| StartResumeOperation (command : FindTargetCommand)
    (selectedPoint : ExecutionPoint)
| StartResumeTarget (point : ExecutionPoint).

(** The two [setTimeout(..., 0)] callbacks of [_resumeOperation]. *)
Inductive Timer : Type :=
| EmitResumed (activation : nat)
| WarpToTarget (activation : nat).

(** The locals of one activation of [_resumeOperation]. *)
Record ResumeLocals : Type := mkResumeLocals {
  resumeEmitted : bool;
  resumeTarget : option PauseDescription;
}.

Record World : Type := mkWorld {
  front : ThreadFront;
  emitted : list Emission;
  created : list (ExecutionPoint * TimeStamp);
  inflight : list Request;
  timers : list Timer;
  jobs : list Job;
  activations : list ResumeLocals;
  deferreds : nat;
  released : list nat;
  initialized : bool;
}.

Definition initialWorld : World :=
  {| front := initialThreadFront; emitted := []; created := [];
     inflight := []; timers := []; jobs := []; activations := [];
     deferreds := 0; released := []; initialized := false |}.

Module WUpd.

Definition set_front (w : World) (f : ThreadFront) : World :=
  mkWorld f (emitted w) (created w) (inflight w) (timers w) (jobs w)
    (activations w) (deferreds w) (released w) (initialized w).

Definition push_emitted (w : World) (e : Emission) : World :=
  mkWorld (front w) (emitted w ++ [e]) (created w) (inflight w) (timers w)
    (jobs w) (activations w) (deferreds w) (released w) (initialized w).

Definition push_created (w : World) (c : ExecutionPoint * TimeStamp) : World :=
  mkWorld (front w) (emitted w) (created w ++ [c]) (inflight w) (timers w)
    (jobs w) (activations w) (deferreds w) (released w) (initialized w).

Definition set_inflight (w : World) (rs : list Request) : World :=
  mkWorld (front w) (emitted w) (created w) rs (timers w) (jobs w)
    (activations w) (deferreds w) (released w) (initialized w).

Definition set_timers (w : World) (ts : list Timer) : World :=
  mkWorld (front w) (emitted w) (created w) (inflight w) ts (jobs w)
    (activations w) (deferreds w) (released w) (initialized w).

Definition set_jobs (w : World) (js : list Job) : World :=
  mkWorld (front w) (emitted w) (created w) (inflight w) (timers w) js
    (activations w) (deferreds w) (released w) (initialized w).

Definition set_activations (w : World) (acts : list ResumeLocals) : World :=
  mkWorld (front w) (emitted w) (created w) (inflight w) (timers w) (jobs w)
    acts (deferreds w) (released w) (initialized w).

Definition set_deferreds (w : World) (n : nat) : World :=
  mkWorld (front w) (emitted w) (created w) (inflight w) (timers w) (jobs w)
    (activations w) n (released w) (initialized w).

Definition set_released (w : World) (ds : list nat) : World :=
  mkWorld (front w) (emitted w) (created w) (inflight w) (timers w) (jobs w)
    (activations w) (deferreds w) ds (initialized w).

Definition set_initialized (w : World) (b : bool) : World :=
  mkWorld (front w) (emitted w) (created w) (inflight w) (timers w) (jobs w)
    (activations w) (deferreds w) (released w) b.

End WUpd.

Import Upd WUpd.

(** ** The coordinator's methods *)

(** Modelled from the spec: [emit], which [EventEmitter.decorate] of
    [../utils] adds and which is not part of the sources at hand; "state is
    updated, then the event fires", to listeners that are called at once. *)
Definition emit (w : World) (e : Event) : World :=
  push_emitted w (mkEmission e (front w)).

(** The remote command is sent; its promise is pending. *)
Definition send (w : World) (r : Request) : World :=
  set_inflight w (inflight w ++ [r]).

(** A promise has settled and a reaction to it is queued. *)
Definition enqueue (w : World) (j : Job) : World :=
  set_jobs w (jobs w ++ [j]).

(** [setTimeout(callback, 0)]. *)
Definition setTimeout (w : World) (t : Timer) : World :=
  set_timers w (timers w ++ [t]).

Definition ensurePause (w : World) (point : ExecutionPoint) (time : TimeStamp)
  : completion (World * PauseRef) :=
  if negb (truthy_opt_string (sessionId (front w))) then AssertionFailed
  else
    match allPauses (front w) !! point with
    | Some pause => Returned (w, pause)
    | None =>
        let pause := OwnPause (length (created w)) in
        let w := push_created w (point, time) in
        Returned
          (set_front w
             (set_allPauses (front w) (<[point := pause]> (allPauses (front w)))),
           pause)
    end.

Definition ensureCurrentPause (w : World) : completion World :=
  match currentPause (front w) with
  | Some _ => Returned w
  | None =>
      match ensurePause w (currentPoint (front w)) (currentTime (front w)) with
      | AssertionFailed => AssertionFailed
      | Returned (w, pause) =>
          Returned (set_front w (set_currentPause (front w) (Some pause)))
      end
  end.

(** What [getFrames] returns: the array literal [[]], or whatever the
    current Pause answers. *)
Inductive FramesAnswer : Type :=
| EmptyArray
| FramesOfPause (pause : PauseRef).

Definition getFrames (w : World) : completion (World * FramesAnswer) :=
  if negb (currentPointHasFrames (front w)) then Returned (w, EmptyArray)
  else
    match ensureCurrentPause w with
    | AssertionFailed => AssertionFailed
    | Returned w =>
        match currentPause (front w) with
        | Some pause => Returned (w, FramesOfPause pause)
        | None => AssertionFailed
        end
    end.

(** The key of a resume target: [`${point}:${command.name}`]. *)
Definition targetKey (point : ExecutionPoint) (command : FindTargetCommand)
  : string :=
  point +:+ ":" +:+ name command.

(** [_findResumeTarget] up to its [await]. *)
Inductive FindBegun : Type :=
| KnownTarget (knownTarget : PauseDescription)
| Asked (key : string) (epoch : Z)
| FindThrew.

Definition _findResumeTarget_begin (f : ThreadFront) (point : ExecutionPoint)
    (command : FindTargetCommand) : FindBegun :=
  if negb (truthy_opt_string (sessionId f)) then FindThrew
  else
    let key := targetKey point command in
    match resumeTargets f !! key with
    | Some knownTarget => KnownTarget knownTarget
    | None => Asked key (resumeTargetEpoch f)
    end.

(** [_findResumeTarget] from the reply on: the new state and the value
    returned. *)
Definition _findResumeTarget_resume (f : ThreadFront) (key : string)
    (epoch : Z) (target : PauseDescription) : ThreadFront * PauseDescription :=
  (if bool_decide (epoch = resumeTargetEpoch f)
   then set_resumeTargets f (<[key := target]> (resumeTargets f))
   else f,
   target).

(** [await this._findResumeTarget(point, command)] inside an async
    function whose remainder is [awaiting].  When the assertion of
    [_findResumeTarget] fails the promise rejects and the caller, which has
    no handler, ends there. *)
Definition awaitFindResumeTarget (w : World) (point : ExecutionPoint)
    (command : FindTargetCommand) (awaiting : Awaiting) : World :=
  match _findResumeTarget_begin (front w) point command with
  | KnownTarget knownTarget => enqueue w (AfterFind awaiting knownTarget)
  | Asked key epoch => send w (FindTarget command point key epoch awaiting)
  | FindThrew => w
  end.

(** The table [stepCommands] of [_precacheResumeTargets]. *)
Definition stepCommands : list (FindTargetCommand * list FindTargetCommand) :=
  [ (findReverseStepOverTarget, [findReverseStepOverTarget; findStepInTarget]);
    (findStepOverTarget, [findStepOverTarget; findStepInTarget]);
    (findStepInTarget, [findStepOutTarget; findStepInTarget]);
    (findStepOutTarget,
      [findReverseStepOverTarget; findStepOverTarget; findStepInTarget;
       findStepOutTarget]) ].

(** [_precacheResumeTargets] up to the first [await] of each of its
    branches. *)
Definition _precacheResumeTargets (w : World) : World :=
  if negb (currentPointHasFrames (front w)) then w
  else
    let point := currentPoint (front w) in
    let epoch := resumeTargetEpoch (front w) in
    fold_left
      (λ w step,
         awaitFindResumeTarget w point step.1 (InPrecache point epoch step.2))
      stepCommands w.

Definition timeWarp (w : World) (point : ExecutionPoint) (time : TimeStamp)
    (hasFrames : option bool) (force : option bool) : World :=
  let newTarget :=
    match warpCallback (front w) with
    | Some callback =>
        if negb (truthy_opt_bool force) then callback point time hasFrames
        else None
    | None => None
    end in
  let point := from_option wt_point point newTarget in
  let time := from_option wt_time time newTarget in
  let hasFrames := from_option wt_hasFrames hasFrames newTarget in
  let w :=
    set_front w
      (set_position (front w) point time (truthy_opt_bool hasFrames) None) in
  let w := emit w (Paused (mkPauseEventArgs point time hasFrames)) in
  _precacheResumeTargets w.

(** [point && time && typeof hasFrames === "boolean"]. *)
Definition carriesPosition (pause : Pause) : bool :=
  truthy_opt_string (pause_point pause)
  && from_option truthy_number false (pause_time pause)
  && bool_decide (is_Some (pause_hasFrames pause)).

Definition timeWarpToPause (w : World) (pause : Pause) : completion World :=
  if negb (carriesPosition pause) then AssertionFailed
  else
    let point := default "" (pause_point pause) in
    let time := default 0 (pause_time pause) in
    let hasFrames := default false (pause_hasFrames pause) in
    let w :=
      set_front w (set_position (front w) point time hasFrames (Some (self pause))) in
    let w := emit w (Paused (mkPauseEventArgs point time (Some hasFrames))) in
    Returned (_precacheResumeTargets w).

(** A callback handed to [_invalidateResumeTargets], up to its [await]:
    each one starts with [assert(this.sessionId)] and then sends its
    command; when the assertion fails the callback's promise is rejected
    at once. *)
Definition callback_begin (w : World) (callback : Mutation) : World :=
  if truthy_opt_string (sessionId (front w))
  then send w (Mutate callback)
  else enqueue w (Finally Rejected).

(** [_invalidateResumeTargets(callback)] up to [await callback()]: the
    three assignments, then the call of the callback. *)
Definition _invalidateResumeTargets (w : World) (callback : Mutation) : World :=
  let w := set_front w (set_invalidated (front w)) in
  callback_begin w callback.

(** Modelled from the spec: [defer] of [../utils], which is not part of
    the sources at hand; it makes a promise with its resolve hook, "an
    awaitable that resolves" when the hook is called.  A deferred is known
    by its number; here the hooks of [waiters] are called. *)
Definition resolveAll (w : World) (waiters : list nat) : World :=
  set_released w (released w ++ waiters).

(** The [finally] block of [_invalidateResumeTargets]; the promise of
    [_invalidateResumeTargets] then settles as the callback did. *)
Definition _invalidateResumeTargets_finally (w : World) : World :=
  let n := numPendingInvalidateCommands (front w) - 1 in
  if bool_decide (n = 0) then
    let w := resolveAll w (invalidateCommandWaiters (front w)) in
    let w := set_front w (set_pending (front w) n []) in
    _precacheResumeTargets w
  else set_front w (set_pending (front w) n (invalidateCommandWaiters (front w))).

(** [waitForInvalidateCommandsToFinish]: [None] is the plain [return],
    [Some d] the promise of a new deferred [d]. *)
Definition waitForInvalidateCommandsToFinish (w : World)
  : World * option nat :=
  if bool_decide (numPendingInvalidateCommands (front w) = 0) then (w, None)
  else
    let d := deferreds w in
    let w := set_deferreds w (S d) in
    (set_front w
       (set_pending (front w) (numPendingInvalidateCommands (front w))
          (invalidateCommandWaiters (front w) ++ [d])),
     Some d).

(** [setBreakpoint]: the promise of [_invalidateResumeTargets] is not
    awaited, so the [try] block ends as soon as the call has returned and
    the promise of [setBreakpoint] is resolved when it returns. *)
Definition setBreakpoint (w : World) (sourceId : SourceId) (line column : Z)
    (condition : option string) : World * settled unit :=
  let location := mkLocation sourceId line column in
  (_invalidateResumeTargets w (SetBreakpoint location condition), Resolved ()).

(** [this.breakpoints.set(breakpointId, { location })] on a [Map] kept in
    insertion order. *)
Fixpoint Map_set (m : list (BreakpointId * Location)) (k : BreakpointId)
    (v : Location) : list (BreakpointId * Location) :=
  match m with
  | [] => [(k, v)]
  | (k', v') :: rest =>
      if decide (k' = k) then (k, v) :: rest else (k', v') :: Map_set rest k v
  end.

Definition Map_delete (m : list (BreakpointId * Location)) (k : BreakpointId)
  : list (BreakpointId * Location) :=
  Js.filter (λ entry, negb (bool_decide (entry.1 = k))) m.

Definition sameLocation (location : Location) (sourceId : SourceId)
    (line column : Z) : bool :=
  bool_decide (loc_sourceId location = sourceId)
  && bool_decide (loc_line location = line)
  && bool_decide (loc_column location = column).

(** [removeBreakpoint]: every installed breakpoint at the location is
    deleted and removed remotely under its own invalidation. *)
Definition removeBreakpoint (w : World) (sourceId : SourceId) (line column : Z)
  : World :=
  fold_left
    (λ w entry,
       if sameLocation entry.2 sourceId line column then
         let w :=
           set_front w
             (set_breakpoints (front w) (Map_delete (breakpoints (front w)) entry.1)) in
         _invalidateResumeTargets w (RemoveBreakpoint entry.1)
       else w)
    (breakpoints (front w)) w.

Definition blackbox (w : World) (sourceId : SourceId)
    (begin end_ : SourceLocation) : World :=
  _invalidateResumeTargets w (BlackboxSource sourceId begin end_).

Definition unblackbox (w : World) (sourceId : SourceId)
    (begin end_ : SourceLocation) : World :=
  _invalidateResumeTargets w (UnblackboxSource sourceId begin end_).

(** A mutation callback from the reply on: [setBreakpoint] records the
    breakpoint it was given an id for; then the callback's promise settles
    and the [finally] block of [_invalidateResumeTargets] is queued.
    [None]: the reply is not one the command can get. *)
Definition callback_resume (w : World) (callback : Mutation) (reply : Reply)
  : option World :=
  match reply with
  | GotError => Some (enqueue w (Finally Rejected))
  | GotTarget _ => None
  | GotBreakpoint breakpointId =>
      match callback with
      | SetBreakpoint location _ =>
          let w :=
            if truthy_opt_string breakpointId then
              set_front w
                (set_breakpoints (front w)
                   (Map_set (breakpoints (front w)) (default "" breakpointId)
                      location))
            else w in
          Some (enqueue w (Finally (Resolved ())))
      | _ => None
      end
  | GotNothing =>
      match callback with
      | SetBreakpoint _ _ => None
      | _ => Some (enqueue w (Finally (Resolved ())))
      end
  end.

(** The resume-family methods: [_resumeOperation] is called and stops at
    [await this.initializedWaiter.promise]. *)
Definition resumeFamily (w : World) (command : FindTargetCommand)
    (point : ExecutionPoint) : World :=
  enqueue w (StartResumeOperation command point).

Definition rewind (w : World) (point : ExecutionPoint) : World :=
  resumeFamily w findRewindTarget point.
Definition resume (w : World) (point : ExecutionPoint) : World :=
  resumeFamily w findResumeTarget point.
Definition reverseStepOver (w : World) (point : ExecutionPoint) : World :=
  resumeFamily w findReverseStepOverTarget point.
Definition stepOver (w : World) (point : ExecutionPoint) : World :=
  resumeFamily w findStepOverTarget point.
Definition stepIn (w : World) (point : ExecutionPoint) : World :=
  resumeFamily w findStepInTarget point.
Definition stepOut (w : World) (point : ExecutionPoint) : World :=
  resumeFamily w findStepOutTarget point.

(** [resumeTarget(point)], stopped at the same [await]. *)
Definition resumeTargetOf (w : World) (point : ExecutionPoint) : World :=
  enqueue w (StartResumeTarget point).

(** [warpToTarget] of activation [a]. *)
Definition warpToTarget (w : World) (a : nat) : World :=
  match activations w !! a with
  | Some (mkResumeLocals _ (Some target)) =>
      timeWarp w (pd_point target) (pd_time target)
        (Some (bool_decide (is_Some (pd_frame target)))) None
  | _ => w
  end.

(** [_resumeOperation] past its first [await]: the locals, the timer, and
    the lookup up to its [await]. *)
Definition _resumeOperation_start (w : World) (command : FindTargetCommand)
    (selectedPoint : ExecutionPoint) : World :=
  let a := length (activations w) in
  let w := set_activations w (activations w ++ [mkResumeLocals false None]) in
  let w := setTimeout w (EmitResumed a) in
  let point := or_string selectedPoint (currentPoint (front w)) in
  awaitFindResumeTarget w point command (InResumeOperation a).

(** The callback of the first [setTimeout]. *)
Definition emitResumed (w : World) (a : nat) : World :=
  match activations w !! a with
  | Some locals =>
      let w :=
        set_activations w
          (<[a := mkResumeLocals true (resumeTarget locals)]> (activations w)) in
      let w := emit w Resumed in
      if bool_decide (is_Some (resumeTarget locals))
      then setTimeout w (WarpToTarget a)
      else w
  | None => w
  end.

(** [_resumeOperation] after [await this._findResumeTarget(...)]. *)
Definition _resumeOperation_found (w : World) (a : nat)
    (target : PauseDescription) : World :=
  match activations w !! a with
  | Some locals =>
      let w :=
        set_activations w
          (<[a := mkResumeLocals (resumeEmitted locals) (Some target)]>
             (activations w)) in
      if resumeEmitted locals then warpToTarget w a else w
  | None => w
  end.

(** [ensurePause] called for its effect only; an assertion that fails
    rejects the surrounding async arrow function and changes nothing. *)
Definition ensurePause_ (w : World) (point : ExecutionPoint) (time : TimeStamp)
  : option World :=
  match ensurePause w point time with
  | Returned (w, _) => Some w
  | AssertionFailed => None
  end.

(** The outer arrow function of [_precacheResumeTargets] after its
    [await]. *)
Definition precache_found (w : World) (point : ExecutionPoint) (epoch : Z)
    (transitive : list FindTargetCommand) (target : PauseDescription) : World :=
  if negb (bool_decide (epoch = resumeTargetEpoch (front w)))
     || negb (bool_decide (is_Some (pd_frame target)))
  then w
  else
    match ensurePause_ w (pd_point target) (pd_time target) with
    | None => w
    | Some w =>
        if negb (bool_decide (point = currentPoint (front w))) then w
        else
          fold_left
            (λ w command,
               awaitFindResumeTarget w (pd_point target) command
                 (InTransitive point epoch))
            transitive w
    end.

(** The inner arrow function after its [await]. *)
Definition transitive_found (w : World) (point : ExecutionPoint) (epoch : Z)
    (transitiveTarget : PauseDescription) : World :=
  if negb (bool_decide (epoch = resumeTargetEpoch (front w)))
     || negb (bool_decide (point = currentPoint (front w)))
     || negb (bool_decide (is_Some (pd_frame transitiveTarget)))
  then w
  else
    default w
      (ensurePause_ w (pd_point transitiveTarget) (pd_time transitiveTarget)).

(** ** Turns of the event loop *)

(** A promise reaction runs.  The two [Start...] jobs wait for
    [initializedWaiter]. *)
Definition runJob (w : World) (j : Job) : option World :=
  match j with
  | AfterFind (InResumeOperation a) target =>
      Some (_resumeOperation_found w a target)
  | AfterFind (InPrecache point epoch transitive) target =>
      Some (precache_found w point epoch transitive target)
  | AfterFind (InTransitive point epoch) target =>
      Some (transitive_found w point epoch target)
  | AfterFind InResumeTarget _ => Some w
  | Finally _ => Some (_invalidateResumeTargets_finally w)
  | StartResumeOperation command selectedPoint =>
      if initialized w then Some (_resumeOperation_start w command selectedPoint)
      else None
  | StartResumeTarget point =>
      if initialized w
      then Some (awaitFindResumeTarget w point findResumeTarget InResumeTarget)
      else None
  end.

Definition fireTimer (w : World) (t : Timer) : World :=
  match t with
  | EmitResumed a => emitResumed w a
  | WarpToTarget a => warpToTarget w a
  end.

(** The reply to a command in flight arrives and the function that awaits
    it goes on. *)
Definition deliver (w : World) (r : Request) (reply : Reply) : option World :=
  match r with
  | FindTarget command point key epoch awaiting =>
      match reply with
      | GotTarget target =>
          let '(f, target) :=
            _findResumeTarget_resume (front w) key epoch target in
          Some (enqueue (set_front w f) (AfterFind awaiting target))
      | GotError => Some w
      | _ => None
      end
  | Mutate callback => callback_resume w callback reply
  end.

(** What can happen next: a method is called from outside, a reply
    arrives, a queued reaction runs, a timer fires.
    [CallEnsureCurrentPause] stands for the methods that begin with
    [this.ensureCurrentPause()] and then only talk to the Pause. *)
Inductive Action : Type :=
| CallTimeWarp (point : ExecutionPoint) (time : TimeStamp)
    (hasFrames force : option bool)
| CallTimeWarpToPause (pause : Pause)
| CallSetBreakpoint (sourceId : SourceId) (line column : Z)
    (condition : option string)
| CallRemoveBreakpoint (sourceId : SourceId) (line column : Z)
| CallBlackbox (sourceId : SourceId) (begin end_ : SourceLocation)
| CallUnblackbox (sourceId : SourceId) (begin end_ : SourceLocation)
| CallResumeFamily (command : FindTargetCommand) (point : ExecutionPoint)
| CallResumeTarget (point : ExecutionPoint)
| CallWaitForInvalidateCommandsToFinish
| CallGetFrames
| CallEnsureCurrentPause
| CallSetSessionId (sessionId : SessionId)
| CallPreferSource (sourceId : SourceId) (value : bool)
| SetWarpCallback
    (callback : option (ExecutionPoint → TimeStamp → option bool → option WarpTarget))
| NewSource (source : newSource)
| ResolveInitialized
| Deliver (i : nat) (reply : Reply)
| RunJob (i : nat)
| FireTimer (i : nat).

(** A call that throws leaves the world as the call found it. *)
Definition orUnchanged (w : World) (c : completion World) : World :=
  match c with
  | Returned w' => w'
  | AssertionFailed => w
  end.

(** One turn.  [None]: the action is not possible in this world. *)
Definition step (w : World) (a : Action) : option World :=
  match a with
  | CallTimeWarp point time hasFrames force =>
      Some (timeWarp w point time hasFrames force)
  | CallTimeWarpToPause pause => Some (orUnchanged w (timeWarpToPause w pause))
  | CallSetBreakpoint sourceId line column condition =>
      Some (setBreakpoint w sourceId line column condition).1
  | CallRemoveBreakpoint sourceId line column =>
      Some (removeBreakpoint w sourceId line column)
  | CallBlackbox sourceId begin end_ => Some (blackbox w sourceId begin end_)
  | CallUnblackbox sourceId begin end_ => Some (unblackbox w sourceId begin end_)
  | CallResumeFamily command point => Some (resumeFamily w command point)
  | CallResumeTarget point => Some (resumeTargetOf w point)
  | CallWaitForInvalidateCommandsToFinish =>
      Some (waitForInvalidateCommandsToFinish w).1
  | CallGetFrames =>
      Some (orUnchanged w
              (match getFrames w with
               | Returned (w', _) => Returned w'
               | AssertionFailed => AssertionFailed
               end))
  | CallEnsureCurrentPause => Some (orUnchanged w (ensureCurrentPause w))
  | CallSetSessionId s => Some (set_front w (set_sessionId (front w) (Some s)))
  | CallPreferSource sourceId value =>
      Some (orUnchanged w
              (match Registry.preferSource (registry (front w)) sourceId value with
               | Returned r => Returned (set_front w (set_registry (front w) r))
               | AssertionFailed => AssertionFailed
               end))
  | SetWarpCallback callback =>
      Some (set_front w (set_warpCallback (front w) callback))
  | NewSource source =>
      Some (set_front w
              (set_registry (front w)
                 (Registry.addSource (registry (front w)) source)))
  | ResolveInitialized => Some (set_initialized w true)
  | Deliver i reply =>
      match inflight w !! i with
      | Some r => deliver (set_inflight w (delete i (inflight w))) r reply
      | None => None
      end
  | RunJob i =>
      match jobs w !! i with
      | Some j => runJob (set_jobs w (delete i (jobs w))) j
      | None => None
      end
  | FireTimer i =>
      match timers w !! i with
      | Some t => Some (fireTimer (set_timers w (delete i (timers w))) t)
      | None => None
      end
  end.

(** A run: the turns taken one after the other. *)
Fixpoint run (w : World) (actions : list Action) : option World :=
  match actions with
  | [] => Some w
  | a :: rest =>
      match step w a with
      | Some w' => run w' rest
      | None => None
      end
  end.

(** * More of the coordinator *)

(** ** Sources by URL and by location *)

(** [xs.every(p)]. *)
Definition every {A} (p : A → bool) (xs : list A) : bool := forallb p xs.

(** [this.urlSources.map.get(url) || []]. *)
Definition idsOfURL (r : Registry.t) (url : string) : list SourceId :=
  default [] (Registry.urlSources r !! url).

Definition getSourceIdsForURL (r : Registry.t) (url : string) : list SourceId :=
  let ids := idsOfURL r url in
  Js.filter
    (λ id,
       every (λ originalId, negb (includes ids originalId))
         (Registry.originalIdsOf r id))
    ids.

(** [info && info.url]. *)
Definition getSourceURLRaw (r : Registry.t) (sourceId : SourceId)
  : option string :=
  match Registry.sources r !! sourceId with
  | Some info => url info
  | None => None
  end.

(** A [MappedLocation] is an array of locations. *)
Definition hasPreferredGeneratedSource (r : Registry.t)
    (location : list Location) : bool :=
  some
    (λ l, bool_decide (loc_sourceId l ∈ Registry.preferredGeneratedSources r))
    location.

(** [locations.find(l => l.sourceId == sourceId)]. *)
Definition findLocation (locations : list Location) (sourceId : SourceId)
  : option Location :=
  List.find (λ l, bool_decide (loc_sourceId l = sourceId)) locations.

Definition getPreferredLocationRaw (r : Registry.t) (locations : list Location)
  : completion (option Location) :=
  match Registry._chooseSourceId r (loc_sourceId <$> locations) with
  | Returned choice => Returned (findLocation locations (Registry.sourceId choice))
  | AssertionFailed => AssertionFailed
  end.

(** [getAlternateLocation] after its [await]; [None] is [null] or
    [undefined]. *)
Definition getAlternateLocation (r : Registry.t) (locations : list Location)
  : completion (option Location) :=
  match Registry._chooseSourceId r (loc_sourceId <$> locations) with
  | Returned choice =>
      if truthy_opt_string (Registry.alternateId choice)
      then Returned (findLocation locations (default "" (Registry.alternateId choice)))
      else Returned None
  | AssertionFailed => AssertionFailed
  end.

(** ** Waiting for a source *)

(** The registry with [sourceWaiters]; a waiter is the resolve hook of a
    deferred, known by its number. *)
Record SourceTable : Type := mkSourceTable {
  table : Registry.t;
  sourceWaiters : gmap SourceId (list nat);
  waiting : nat;
  woken : list nat;
}.

Definition emptyTable : SourceTable :=
  {| table := Registry.empty; sourceWaiters := ∅; waiting := 0; woken := [] |}.

(** The listener installed by [findSources], up to the [onSource]
    callback. *)
Definition onNewSource (t : SourceTable) (source : newSource) : SourceTable :=
  let waiters := default [] (sourceWaiters t !! ns_sourceId source) in
  {| table := Registry.addSource (table t) source;
     sourceWaiters := delete (ns_sourceId source) (sourceWaiters t);
     waiting := waiting t;
     woken := woken t ++ waiters |}.

(** [ensureSource] up to its [await]: [None] when there is nothing to wait
    for, [Some d] when the call waits for deferred [d]. *)
Definition ensureSource (t : SourceTable) (sourceId : SourceId)
  : SourceTable * option nat :=
  match Registry.sources (table t) !! sourceId with
  | Some _ => (t, None)
  | None =>
      let d := waiting t in
      ({| table := table t;
          sourceWaiters :=
            <[sourceId := default [] (sourceWaiters t !! sourceId) ++ [d]]>
              (sourceWaiters t);
          waiting := S d;
          woken := woken t |},
       Some d)
  end.

(** What happens to the table: a source is announced, or somebody asks
    for one. *)
Inductive TableEvent : Type :=
| Announced (source : newSource)
| Asked_for (sourceId : SourceId).

Definition tableStep (t : SourceTable) (e : TableEvent) : SourceTable :=
  match e with
  | Announced source => onNewSource t source
  | Asked_for sourceId => (ensureSource t sourceId).1
  end.

(** ** Breakpoints by URL *)



(** ** Pauses and frames *)

(** What a method throws: an [assert] that fails, or the [TypeError] of a
    property read on [undefined] or [null]. *)
Inductive Exception : Set :=
| AssertionError
| TypeError.

(** A call that has run up to its [return], its next [await] or its
    [throw], with the world it leaves behind. *)
Inductive outcome (A : Type) : Type :=
| Went (w : World) (a : A)
| Threw (w : World) (e : Exception).
Arguments Went {A} w a.
Arguments Threw {A} w e.

(** [==] on Pause objects compares their identity. *)
#[global] Instance PauseRef_eq_dec : EqDecision PauseRef.
Proof. solve_decision. Defined.

(** [xs[i]] for a number [i] that is an integer. *)
Definition at_index {A} (xs : list A) (i : Z) : option A :=
  if decide (0 ≤ i)%Z then xs !! Z.to_nat i else None.

Definition lastAsyncPause (w : World) : outcome (option PauseRef) :=
  match ensureCurrentPause w with
  | AssertionFailed => Threw w AssertionError
  | Returned w =>
      let asyncPauses := asyncPauses (front w) in
      Went w
        (if truthy_number (Z.of_nat (length asyncPauses))
         then at_index asyncPauses (Z.of_nat (length asyncPauses) - 1)
         else currentPause (front w))
  end.

Definition pauseForAsyncIndex (w : World) (asyncIndex : Z)
  : outcome (option PauseRef) :=
  match ensureCurrentPause w with
  | AssertionFailed => Threw w AssertionError
  | Returned w =>
      Went w
        (if truthy_number asyncIndex
         then at_index (asyncPauses (front w)) (asyncIndex - 1)
         else currentPause (front w))
  end.

(** The calls the coordinator hands on to a Pause. *)
Inductive PauseCall : Type :=
| Pause_getScopes (pause : PauseRef) (frameId : string)
| Pause_getFrameSteps (pause : PauseRef) (frameId : string)
| Pause_evaluate (pause : PauseRef) (frameId : string) (text : string).

(** The two lines that [getScopes], [getFrameSteps] and [evaluate] begin
    with: [const pause = this.pauseForAsyncIndex(asyncIndex);
    assert(pause)]. *)
Definition assertedPause (w : World) (asyncIndex : Z) : outcome PauseRef :=
  match pauseForAsyncIndex w asyncIndex with
  | Went w (Some pause) => Went w pause
  | Went w None => Threw w AssertionError
  | Threw w e => Threw w e
  end.

Definition getScopes (w : World) (asyncIndex : Z) (frameId : string)
  : outcome PauseCall :=
  match assertedPause w asyncIndex with
  | Went w pause => Went w (Pause_getScopes pause frameId)
  | Threw w e => Threw w e
  end.

Definition getFrameSteps (w : World) (asyncIndex : Z) (frameId : string)
  : outcome PauseCall :=
  match assertedPause w asyncIndex with
  | Went w pause => Went w (Pause_getFrameSteps pause frameId)
  | Threw w e => Threw w e
  end.

(** [evaluate] up to its [await]. *)
Definition evaluate (w : World) (asyncIndex : Z) (frameId text : string)
  : outcome PauseCall :=
  match assertedPause w asyncIndex with
  | Went w pause => Went w (Pause_evaluate pause frameId text)
  | Threw w e => Threw w e
  end.

(** [PointDescription] of the protocol, as far as
    [loadAsyncParentFrames] reads it. *)
Record PointDescription : Type := mkPointDescription {
  pt_point : ExecutionPoint;
  pt_time : TimeStamp;
}.

(** [this.asyncPauses.push(pause)]. *)
Definition push_asyncPause (f : ThreadFront) (pause : PauseRef) : ThreadFront :=
  mkThreadFront (currentPoint f) (currentTime f) (currentPointHasFrames f)
    (currentPause f) (asyncPauses f ++ [pause]) (sessionId f) (registry f)
    (resumeTargets f) (resumeTargetEpoch f) (numPendingInvalidateCommands f)
    (invalidateCommandWaiters f) (allPauses f) (breakpoints f)
    (warpCallback f).

(** Where [loadAsyncParentFrames] stands when it stops: it has returned,
    or it awaits an answer of a Pause. *)
Inductive AsyncFrames : Type :=
| ReturnFrames (frames : list Frame)
| AwaitFrameSteps (pause : PauseRef) (frameId : string)
| AwaitFrames (pause : PauseRef).

(** [loadAsyncParentFrames] up to [await basePause.getFrames()]. *)
Definition loadAsyncParentFrames_begin (w : World) : outcome AsyncFrames :=
  match lastAsyncPause w with
  | Went w (Some basePause) => Went w (AwaitFrames basePause)
  | Went w None => Threw w AssertionError
  | Threw w e => Threw w e
  end.

(** From the frames of the base pause to
    [await basePause.getFrameSteps(...)]; the frames are [None] when the
    Pause answers [undefined]. *)
Definition loadAsyncParentFrames_baseFrames (w : World) (basePause : PauseRef)
    (baseFrames : option (list Frame)) : outcome AsyncFrames :=
  match baseFrames with
  | None => Went w (ReturnFrames [])
  | Some baseFrames =>
      match at_index baseFrames (Z.of_nat (length baseFrames) - 1) with
      | Some frame => Went w (AwaitFrameSteps basePause (frameId frame))
      | None => Threw w TypeError
      end
  end.

(** From the steps of the outermost frame to
    [await entryPause.getFrames()]. *)
Definition loadAsyncParentFrames_steps (w : World) (basePause : PauseRef)
    (steps : list PointDescription) : outcome AsyncFrames :=
  match lastAsyncPause w with
  | Threw w e => Threw w e
  | Went w lastPause =>
      if negb (bool_decide (Some basePause = lastPause))
      then Went w (ReturnFrames [])
      else
        match at_index steps 0 with
        | None => Threw w TypeError
        | Some step =>
            match ensurePause w (pt_point step) (pt_time step) with
            | AssertionFailed => Threw w AssertionError
            | Returned (w, entryPause) =>
                Went (set_front w (push_asyncPause (front w) entryPause))
                  (AwaitFrames entryPause)
            end
        end
  end.

(** From the frames of the entry pause to the end. *)
Definition loadAsyncParentFrames_entryFrames (w : World) (entryPause : PauseRef)
    (frames : option (list Frame)) : outcome AsyncFrames :=
  match lastAsyncPause w with
  | Threw w e => Threw w e
  | Went w lastPause =>
      if negb (bool_decide (Some entryPause = lastPause))
      then Went w (ReturnFrames [])
      else
        match frames with
        | None => Threw w AssertionError
        | Some frames => Went w (ReturnFrames (tail frames))
        end
  end.

(** ** Asking the current Pause *)

(** A method that stops at [await this.currentPause!.method(...)]: the
    Pause it asks and the value of its local [pause]. *)
Record Asking : Type := mkAsking {
  asked : PauseRef;
  remembered : option PauseRef;
}.

(** [getRootDOMNode] and [searchDOM] up to their [await]: [None] is the
    early [return]. *)
Definition searchDOM_begin (w : World) : outcome (option Asking) :=
  if negb (truthy_opt_string (sessionId (front w))) then Went w None
  else
    match ensureCurrentPause w with
    | AssertionFailed => Threw w AssertionError
    | Returned w =>
        let pause := currentPause (front w) in
        match currentPause (front w) with
        | Some current => Went w (Some (mkAsking current pause))
        | None => Threw w TypeError
        end
    end.

Definition getRootDOMNode_begin (w : World) : outcome (option Asking) :=
  searchDOM_begin w.

(** [loadMouseTargets] and [getMouseTarget] up to their [await]: here
    [pause] is read before [ensureCurrentPause] is called. *)
Definition getMouseTarget_begin (w : World) : outcome (option Asking) :=
  if negb (truthy_opt_string (sessionId (front w))) then Went w None
  else
    let pause := currentPause (front w) in
    match ensureCurrentPause w with
    | AssertionFailed => Threw w AssertionError
    | Returned w =>
        match currentPause (front w) with
        | Some current => Went w (Some (mkAsking current pause))
        | None => Threw w TypeError
        end
    end.

Definition loadMouseTargets_begin (w : World) : outcome (option Asking) :=
  getMouseTarget_begin w.

(** [return pause == this.currentPause ? answer : null], the last line of
    [searchDOM] and of [getMouseTarget]. *)
Definition ifStillCurrent {A} (w : World) (pause : option PauseRef)
    (answer : A) : option A :=
  if bool_decide (pause = currentPause (front w)) then Some answer else None.

Definition searchDOM_resume {A} (w : World) (pause : option PauseRef)
    (nodes : A) : option A :=
  ifStillCurrent w pause nodes.

Definition getMouseTarget_resume {A} (w : World) (pause : option PauseRef)
    (nodeBounds : A) : option A :=
  ifStillCurrent w pause nodeBounds.

(** [return pause == this.currentPause]. *)
Definition loadMouseTargets_resume (w : World) (pause : option PauseRef)
  : bool :=
  bool_decide (pause = currentPause (front w)).

(** [getRootDOMNode] after its [await], with [getKnownRootDOMNode]; the
    document node is the one of the current Pause, [None] when it is
    [undefined]. *)
Definition getRootDOMNode_resume {A} (w : World) (pause : option PauseRef)
    (documentNode : option A) : completion (option A) :=
  if bool_decide (pause = currentPause (front w)) then
    match documentNode with
    | Some node => Returned (Some node)
    | None => AssertionFailed
    end
  else Returned None.

(** * The vocabulary of the properties *)

(** ** Sequences of warps *)

(** The arguments of one [timeWarp] call. *)
Record WarpCall : Type := mkWarpCall {
  wc_point : ExecutionPoint;
  wc_time : TimeStamp;
  wc_hasFrames : option bool;
  wc_force : option bool;
}.

Definition timeWarpCall (w : World) (c : WarpCall) : World :=
  timeWarp w (wc_point c) (wc_time c) (wc_hasFrames c) (wc_force c).

(** A sequence of [timeWarp] calls. *)
Definition timeWarps (w : World) (calls : list WarpCall) : World :=
  fold_left timeWarpCall calls w.

(** Where a call is headed: the substitution of the warp callback when
    there is a callback, [force] is unset and the callback answers; the
    arguments of the call otherwise. *)
Inductive headedFor (f : ThreadFront) (c : WarpCall)
  : ExecutionPoint → TimeStamp → option bool → Prop :=
| headed_substituted callback target :
    warpCallback f = Some callback →
    truthy_opt_bool (wc_force c) = false →
    callback (wc_point c) (wc_time c) (wc_hasFrames c) = Some target →
    headedFor f c (wt_point target) (wt_time target) (wt_hasFrames target)
| headed_as_called :
    (∀ callback,
       warpCallback f = Some callback →
       truthy_opt_bool (wc_force c) = false →
       callback (wc_point c) (wc_time c) (wc_hasFrames c) = None) →
    headedFor f c (wc_point c) (wc_time c) (wc_hasFrames c).

(** The three reported fields are the destination itself. *)
Definition reportsDestination (f : ThreadFront) (point : ExecutionPoint)
    (time : TimeStamp) (hasFrames : option bool) : Prop :=
  currentPoint f = point ∧ currentTime f = time
  ∧ Some (currentPointHasFrames f) = hasFrames.


(** ** Invalidations along a run *)

(** How many times an action calls [_invalidateResumeTargets]. *)
Definition invalidationsOf (w : World) (a : Action) : nat :=
  match a with
  | CallSetBreakpoint _ _ _ _ => 1
  | CallBlackbox _ _ _ => 1
  | CallUnblackbox _ _ _ => 1
  | CallRemoveBreakpoint sourceId line column =>
      length
        (Js.filter (λ entry, sameLocation entry.2 sourceId line column)
           (breakpoints (front w)))
  | _ => 0
  end%nat.

Fixpoint invalidationsDuring (w : World) (actions : list Action) : nat :=
  match actions with
  | [] => 0
  | a :: rest =>
      match step w a with
      | Some w' => invalidationsOf w a + invalidationsDuring w' rest
      | None => 0
      end
  end%nat.

Definition epochOf (w : World) : Z := resumeTargetEpoch (front w).

(** ** The graph of sources *)

(** [o] lists [g] among its [generatedSourceIds]. *)
Definition generatedEdge (r : Registry.t) (o g : SourceId) : Prop :=
  ∃ info,
    Registry.sources r !! o = Some info ∧ g ∈ Registry.generatedIdsOf info.

(** The adjacency: a generated edge, one way or the other. *)
Definition related (r : Registry.t) (x y : SourceId) : Prop :=
  generatedEdge r x y ∨ generatedEdge r y x.

(** Transitive reachability over the adjacency. *)
Definition connected (r : Registry.t) : SourceId → SourceId → Prop :=
  rtc (related r).

(** [originalSources] is the reverse of the [generatedSourceIds] map, as
    the listener of [findSources] builds it. *)
Definition reversed (r : Registry.t) : Prop :=
  ∀ g o, o ∈ Registry.originalIdsOf r g ↔ generatedEdge r o g.

(** Every generated id that a registered source lists is registered. *)
Definition complete (r : Registry.t) : Prop :=
  ∀ o g, generatedEdge r o g → is_Some (Registry.sources r !! g).

(** What one iteration of [_getAlternateSourceIds] pushes for [x]. *)
Definition pushed (r : Registry.t) (x y : SourceId) : Prop :=
  ∃ info,
    Registry.sources r !! x = Some info
    ∧ y ∈ Registry.generatedIdsOf info ++ Registry.originalIdsOf r x.

(** The entries of [sources] that are not in [rv] yet, by the number of
    ids each will push. *)
Definition weight (r : Registry.t) (rv : list SourceId) : nat :=
  sum_list
    (Registry.degree r
       <$> Js.filter (λ e, negb (includes rv e.1))
             (map_to_list (Registry.sources r))).

(** The example of the grouping: [X] is registered first, then [A] with
    [X] as its only generated source, then [B]. *)
Definition exampleRegistry (A X B : SourceId) (kA kX kB : SourceKind)
  : Registry.t :=
  Registry.addSource
    (Registry.addSource
       (Registry.addSource Registry.empty (mkNewSource X kX None None))
       (mkNewSource A kA None (Some [X])))
    (mkNewSource B kB None None).

(** An original whose generated source has not been registered yet. *)
Definition loadingRegistry : Registry.t :=
  Registry.addSource Registry.empty
    (mkNewSource "A" sourceMapped None (Some ["X"])).

(** A generated source, its original, and the original registered again
    without generated sources. *)
Definition staleRegistry : Registry.t :=
  Registry.addSource
    (Registry.addSource
       (Registry.addSource Registry.empty (mkNewSource "X" scriptSource None None))
       (mkNewSource "A" sourceMapped None (Some ["X"])))
    (mkNewSource "A" sourceMapped None None).

(** ** One activation of [_resumeOperation] among everything else *)

(** Which tasks belong to activation [a]. *)
Definition ownsTimer (a : nat) (t : Timer) : bool :=
  match t with
  | EmitResumed a' => bool_decide (a' = a)
  | WarpToTarget a' => bool_decide (a' = a)
  end.

Definition ownsAwaiting (a : nat) (k : Awaiting) : bool :=
  match k with
  | InResumeOperation a' => bool_decide (a' = a)
  | _ => false
  end.

Definition ownsRequest (a : nat) (r : Request) : bool :=
  match r with
  | FindTarget _ _ _ _ k => ownsAwaiting a k
  | Mutate _ => false
  end.

Definition ownsJob (a : nat) (j : Job) : bool :=
  match j with
  | AfterFind k _ => ownsAwaiting a k
  | _ => false
  end.

(** The tasks of the activation that are waiting for their turn. *)
Definition timersOf (a : nat) (w : World) : list Timer :=
  Js.filter (ownsTimer a) (timers w).

Definition requestsOf (a : nat) (w : World) : list Request :=
  Js.filter (ownsRequest a) (inflight w).

Definition jobsOf (a : nat) (w : World) : list Job :=
  Js.filter (ownsJob a) (jobs w).

(** Whether a turn runs a task of the activation. *)
Definition runsOwn (a : nat) (w : World) (act : Action) : bool :=
  match act with
  | FireTimer i => from_option (ownsTimer a) false (timers w !! i)
  | RunJob i => from_option (ownsJob a) false (jobs w !! i)
  | Deliver i _ => from_option (ownsRequest a) false (inflight w !! i)
  | _ => false
  end.

(** The events a turn emits, when it runs a task of the activation. *)
Definition emittedBy (a : nat) (w : World) (act : Action) (w' : World)
  : list Event :=
  if runsOwn a w act
  then event <$> drop (length (emitted w)) (emitted w')
  else [].

(** The events the activation emits along a run. *)
Fixpoint eventsOf (a : nat) (w : World) (actions : list Action) : list Event :=
  match actions with
  | [] => []
  | act :: rest =>
      match step w act with
      | Some w' => emittedBy a w act w' ++ eventsOf a w' rest
      | None => []
      end
  end.

(** Two worlds that are the same as far as the activation goes. *)
Definition same (a : nat) (w w' : World) : Prop :=
  activations w' !! a = activations w !! a
  ∧ (length (activations w) ≤ length (activations w'))%nat
  ∧ timersOf a w' = timersOf a w
  ∧ requestsOf a w' = requestsOf a w
  ∧ jobsOf a w' = jobsOf a w.

(** A turn that starts an operation. *)
Definition startsOperation (w : World) (act : Action) : bool :=
  match act with
  | RunJob i =>
      match jobs w !! i with
      | Some (StartResumeOperation _ _) => true
      | _ => false
      end
  | _ => false
  end.

(** The lookup of the activation has ended, or was given up. *)
Definition noLookup (a : nat) (w : World) : Prop :=
  requestsOf a w = [] ∧ jobsOf a w = [].

(** The lookup is over, or its request is in flight, or its caller is
    queued with the target. *)
Definition atMostOneLookup (a : nat) (w : World) : Prop :=
  noLookup a w
  ∨ (∃ r, requestsOf a w = [r] ∧ jobsOf a w = [])
  ∨ (∃ j, requestsOf a w = [] ∧ jobsOf a w = [j]).

(** Where the activation stands, with the events it has emitted. *)
Inductive phase (a : nat) (w : World) : list Event → Prop :=
| Waiting :
    activations w !! a = Some (mkResumeLocals false None) →
    timersOf a w = [EmitResumed a] →
    atMostOneLookup a w →
    phase a w []
| TargetFirst target :
    activations w !! a = Some (mkResumeLocals false (Some target)) →
    timersOf a w = [EmitResumed a] →
    noLookup a w →
    phase a w []
| ResumedFirst :
    activations w !! a = Some (mkResumeLocals true None) →
    timersOf a w = [] →
    atMostOneLookup a w →
    phase a w [Resumed]
| WarpScheduled target :
    activations w !! a = Some (mkResumeLocals true (Some target)) →
    timersOf a w = [WarpToTarget a] →
    noLookup a w →
    phase a w [Resumed]
| BothEmitted target args :
    activations w !! a = Some (mkResumeLocals true (Some target)) →
    timersOf a w = [] →
    noLookup a w →
    phase a w [Resumed; Paused args].

(** Every task belongs to an activation that exists. *)
Definition wellFormed (w : World) : Prop :=
  ∀ a, (length (activations w) ≤ a)%nat →
       timersOf a w = [] ∧ requestsOf a w = [] ∧ jobsOf a w = [].

(** A step-over from point "10" has been called on a coordinator that has
    its session and is initialized. *)
Definition steppingWorld : World :=
  resumeFamily
    (set_initialized
       (set_front initialWorld (set_sessionId initialThreadFront (Some "s")))
       true)
    findStepOverTarget "10".

(** The reply ahead of the tick, and the tick ahead of the reply. *)
Definition replyThenTick : list Action :=
  [Deliver 0 (GotTarget (mkPauseDescription 1 "20" 200 (Some (mkFrame "f"))));
   RunJob 0; FireTimer 0; FireTimer 0].

Definition tickThenReply : list Action :=
  [FireTimer 0;
   Deliver 0 (GotTarget (mkPauseDescription 1 "20" 200 (Some (mkFrame "f"))));
   RunJob 0].

(** * More vocabulary *)

(** ** Registries, choices and breakpoints *)

(** The registry the listener builds from the sources it is told of. *)
Definition registryOf (announced : list newSource) : Registry.t :=
  fold_left Registry.addSource announced Registry.empty.

(** A source that is registered with a URL. *)
Definition hasURL (r : Registry.t) (u : string) (id : SourceId) : Prop :=
  ∃ info, Registry.sources r !! id = Some info ∧ url info = Some u.

(** [urlSources] lists under a URL the sources registered with it. *)
Definition indexed (r : Registry.t) : Prop :=
  ∀ u id, id ∈ idsOfURL r u ↔ u ≠ "" ∧ hasURL r u id.

(** An HTML page and the inline script it holds, announced under the
    URL of the page. *)
Definition pageWithInlineScript : list newSource :=
  [mkNewSource "inline" inlineScript (Some "index.html") None;
   mkNewSource "page" html (Some "index.html") (Some ["inline"])].

(** A registered source that is neither an HTML page nor a pretty-printed
    source, and has no pretty-printed version. *)
Definition plain (r : Registry.t) (id : SourceId) : Prop :=
  id ≠ ""
  ∧ Registry.isMinifiedSource r id = false
  ∧ ∃ info,
      Registry.sources r !! id = Some info
      ∧ kind info ≠ html ∧ kind info ≠ prettyPrinted.

(** Whether a registered source is of kind [sourceMapped]. *)
Definition isOriginal (r : Registry.t) (id : SourceId) : bool :=
  bool_decide (Registry.getSourceKind r id = Some sourceMapped).

(** What [_chooseSourceId] makes of the generated and the original ids it
    has found among plain sources. *)
Definition chosenAmong (r : Registry.t) (generated originals : list SourceId)
  : completion Registry.Choice :=
  match generated, last originals with
  | [], None => AssertionFailed
  | [], Some o => Returned (Registry.mkChoice o None)
  | [g], None => Returned (Registry.mkChoice g None)
  | [g], Some o =>
      if bool_decide (g ∈ Registry.preferredGeneratedSources r)
      then Returned (Registry.mkChoice g (Some o))
      else Returned (Registry.mkChoice o (Some g))
  | _ :: _ :: _, _ => AssertionFailed
  end.

(** An original that two bundles were generated from. *)
Definition twoBundles : list newSource :=
  [mkNewSource "G1" scriptSource None None;
   mkNewSource "G2" scriptSource None None;
   mkNewSource "O" sourceMapped None (Some ["G1"; "G2"])].

(** An id that [_chooseSourceId] may pick from [ids]: it is in the list,
    it has no pretty-printed version, and it is no inline script when the
    list holds an HTML source. *)
Definition eligible (r : Registry.t) (ids : list SourceId) (x : SourceId)
  : Prop :=
  x ∈ ids
  ∧ Registry.isMinifiedSource r x = false
  ∧ ((∃ h, h ∈ ids ∧ Registry.getSourceKind r h = Some html) →
     Registry.getSourceKind r x ≠ Some inlineScript).

(** The breakpoints installed at a location. *)
Definition installedAt (w : World) (sourceId : SourceId) (line column : Z)
  : list (BreakpointId * Location) :=
  Js.filter (λ entry, sameLocation entry.2 sourceId line column)
    (breakpoints (front w)).

(** The [Map] of breakpoints holds each id once. *)
Definition uniqueIds (w : World) : Prop := NoDup (breakpoints (front w)).*1.

(** A coordinator with its session and one breakpoint installed. *)
Definition oneBreakpoint : World :=
  set_front initialWorld
    (set_breakpoints (set_sessionId initialThreadFront (Some "s"))
       [("b1", mkLocation "A" 3 0)]).

(** ** The books of the coordinator *)

Definition isMutate (r : Request) : bool :=
  match r with
  | Mutate _ => true
  | FindTarget _ _ _ _ _ => false
  end.

Definition isFinally (j : Job) : bool :=
  match j with
  | Finally _ => true
  | _ => false
  end.

Definition isResumed (e : Emission) : bool :=
  match event e with
  | Resumed => true
  | Paused _ => false
  end.

(** What the coordinator keeps count of, and what is under way for it:
    the mutation commands in flight, the [finally] blocks that are
    queued, the activations of [_resumeOperation], the [resumed] events
    emitted. *)
Record Ledger : Type := mkLedger {
  l_breakpoints : list (BreakpointId * Location);
  l_allPauses : gmap ExecutionPoint PauseRef;
  l_created : list (ExecutionPoint * TimeStamp);
  l_pending : Z;
  l_waiters : list nat;
  l_deferreds : nat;
  l_released : list nat;
  l_mutations : nat;
  l_finallys : nat;
  l_initialized : bool;
  l_activations : nat;
  l_resumed : nat;
}.

Definition ledger (w : World) : Ledger :=
  {| l_breakpoints := breakpoints (front w);
     l_allPauses := allPauses (front w);
     l_created := created w;
     l_pending := numPendingInvalidateCommands (front w);
     l_waiters := invalidateCommandWaiters (front w);
     l_deferreds := deferreds w;
     l_released := released w;
     l_mutations := length (Js.filter isMutate (inflight w));
     l_finallys := length (Js.filter isFinally (jobs w));
     l_initialized := initialized w;
     l_activations := length (activations w);
     l_resumed := length (Js.filter isResumed (emitted w)) |}.

(** The entries that the code makes in these books. *)
Inductive booking (l : Ledger) : Ledger → Prop :=
| invalidated_sent :
    booking l
      (mkLedger (l_breakpoints l) (l_allPauses l) (l_created l)
         (l_pending l + 1) (l_waiters l) (l_deferreds l) (l_released l)
         (S (l_mutations l)) (l_finallys l) (l_initialized l)
         (l_activations l) (l_resumed l))
| invalidated_rejected :
    booking l
      (mkLedger (l_breakpoints l) (l_allPauses l) (l_created l)
         (l_pending l + 1) (l_waiters l) (l_deferreds l) (l_released l)
         (l_mutations l) (S (l_finallys l)) (l_initialized l)
         (l_activations l) (l_resumed l))
| breakpoint_deleted k :
    booking l
      (mkLedger (Map_delete (l_breakpoints l) k) (l_allPauses l) (l_created l)
         (l_pending l) (l_waiters l) (l_deferreds l) (l_released l)
         (l_mutations l) (l_finallys l) (l_initialized l)
         (l_activations l) (l_resumed l))
| breakpoint_set k v :
    booking l
      (mkLedger (Map_set (l_breakpoints l) k v) (l_allPauses l) (l_created l)
         (l_pending l) (l_waiters l) (l_deferreds l) (l_released l)
         (l_mutations l) (l_finallys l) (l_initialized l)
         (l_activations l) (l_resumed l))
| mutation_answered n :
    l_mutations l = S n →
    booking l
      (mkLedger (l_breakpoints l) (l_allPauses l) (l_created l)
         (l_pending l) (l_waiters l) (l_deferreds l) (l_released l)
         n (S (l_finallys l)) (l_initialized l)
         (l_activations l) (l_resumed l))
| finally_ran n :
    l_finallys l = S n →
    booking l
      (if bool_decide (l_pending l - 1 = 0) then
         mkLedger (l_breakpoints l) (l_allPauses l) (l_created l)
           (l_pending l - 1) [] (l_deferreds l)
           (l_released l ++ l_waiters l)
           (l_mutations l) n (l_initialized l)
           (l_activations l) (l_resumed l)
       else
         mkLedger (l_breakpoints l) (l_allPauses l) (l_created l)
           (l_pending l - 1) (l_waiters l) (l_deferreds l) (l_released l)
           (l_mutations l) n (l_initialized l)
           (l_activations l) (l_resumed l))
| waiter_added :
    l_pending l ≠ 0 →
    booking l
      (mkLedger (l_breakpoints l) (l_allPauses l) (l_created l)
         (l_pending l) (l_waiters l ++ [l_deferreds l]) (S (l_deferreds l))
         (l_released l) (l_mutations l) (l_finallys l) (l_initialized l)
         (l_activations l) (l_resumed l))
| pause_built point time :
    l_allPauses l !! point = None →
    booking l
      (mkLedger (l_breakpoints l)
         (<[point := OwnPause (length (l_created l))]> (l_allPauses l))
         (l_created l ++ [(point, time)])
         (l_pending l) (l_waiters l) (l_deferreds l) (l_released l)
         (l_mutations l) (l_finallys l) (l_initialized l)
         (l_activations l) (l_resumed l))
| operation_started :
    l_initialized l = true →
    booking l
      (mkLedger (l_breakpoints l) (l_allPauses l) (l_created l)
         (l_pending l) (l_waiters l) (l_deferreds l) (l_released l)
         (l_mutations l) (l_finallys l) (l_initialized l)
         (S (l_activations l)) (l_resumed l))
| resumed_emitted :
    l_activations l ≠ 0%nat →
    booking l
      (mkLedger (l_breakpoints l) (l_allPauses l) (l_created l)
         (l_pending l) (l_waiters l) (l_deferreds l) (l_released l)
         (l_mutations l) (l_finallys l) (l_initialized l)
         (l_activations l) (S (l_resumed l))).

(** [this.initializedWaiter.resolve()]. *)
Definition initialize (l : Ledger) : Ledger :=
  mkLedger (l_breakpoints l) (l_allPauses l) (l_created l)
    (l_pending l) (l_waiters l) (l_deferreds l) (l_released l)
    (l_mutations l) (l_finallys l) true (l_activations l) (l_resumed l).

(** The entries of one turn. *)
Definition bookings (a : Action) (l l' : Ledger) : Prop :=
  match a with
  | ResolveInitialized => l' = initialize l
  | _ => rtc booking l l'
  end.

(** Each Pause of [allPauses] is one that [ensurePause] built, for the
    point it is kept under. *)
Definition pausesKept (l : Ledger) : Prop :=
  ∀ point pause,
    l_allPauses l !! point = Some pause →
    ∃ i time, pause = OwnPause i ∧ l_created l !! i = Some (point, time).

(** The counter of pending mutations is the number of mutations that are
    under way, and nobody waits when there is none. *)
Definition pendingCounted (l : Ledger) : Prop :=
  l_pending l = Z.of_nat (l_mutations l + l_finallys l)
  ∧ (l_pending l = 0 → l_waiters l = []).

(** Every deferred that [waitForInvalidateCommandsToFinish] has handed out
    is waiting or has been resolved, not both, and only once. *)
Definition waitersAccounted (l : Ledger) : Prop :=
  NoDup (l_waiters l ++ l_released l)
  ∧ ∀ d, (d < l_deferreds l)%nat ↔ d ∈ l_waiters l ∨ d ∈ l_released l.

Definition balanced (l : Ledger) : Prop :=
  NoDup (l_breakpoints l).*1
  ∧ pausesKept l ∧ pendingCounted l ∧ waitersAccounted l.

(** Nothing has been initialized and no operation has started. *)
Definition dormant (l : Ledger) : Prop :=
  l_initialized l = false ∧ l_activations l = 0%nat.

(** ** Waiters of sources *)

(** Deferred [d] is waiting for source [id]. *)
Definition waitsFor (t : SourceTable) (d : nat) (id : SourceId) : Prop :=
  ∃ waiters, sourceWaiters t !! id = Some waiters ∧ d ∈ waiters.

(** Every deferred of the table has been handed out. *)
Definition handedOut (t : SourceTable) : Prop :=
  (∀ d, d ∈ woken t → (d < waiting t)%nat)
  ∧ (∀ d id, waitsFor t d id → (d < waiting t)%nat).

(** ** Looking ahead *)

(** What [_precacheResumeTargets] asks the service for one row of its
    table, and what it finds in the cache. *)
Definition precacheRequest (f : ThreadFront)
    (row : FindTargetCommand * list FindTargetCommand) : option Request :=
  match resumeTargets f !! targetKey (currentPoint f) row.1 with
  | Some _ => None
  | None =>
      Some
        (FindTarget row.1 (currentPoint f) (targetKey (currentPoint f) row.1)
           (resumeTargetEpoch f)
           (InPrecache (currentPoint f) (resumeTargetEpoch f) row.2))
  end.

Definition precacheHit (f : ThreadFront)
    (row : FindTargetCommand * list FindTargetCommand) : option Job :=
  AfterFind (InPrecache (currentPoint f) (resumeTargetEpoch f) row.2)
    <$> resumeTargets f !! targetKey (currentPoint f) row.1.

(** A request of [_precacheResumeTargets]. *)
Definition isPrecacheRequest (r : Request) : bool :=
  match r with
  | FindTarget _ _ _ _ (InPrecache _ _ _) => true
  | _ => false
  end.

(** ** More examples *)

(** A session is set, the coordinator warps to a point with frames, a
    breakpoint is set and somebody waits for it; then the frames are
    asked for and the breakpoint is answered. *)
Definition busyRun : list Action :=
  [CallSetSessionId "s";
   CallTimeWarp "10" 100 (Some true) None;
   CallSetBreakpoint "A" 1 0 None;
   CallWaitForInvalidateCommandsToFinish;
   CallGetFrames;
   CallResumeFamily findStepOverTarget "";
   Deliver 4 (GotBreakpoint (Some "b"));
   RunJob 1].

(** A coordinator that is initialized, has its session and knows where a
    step over leads from the point it is at. *)
Definition cachedTarget : PauseDescription :=
  mkPauseDescription 1 "20" 200 (Some (mkFrame "f")).

Definition cachedWorld : World :=
  set_initialized
    (set_front initialWorld
       (set_resumeTargets (set_sessionId initialThreadFront (Some "s"))
          {[targetKey "0" findStepOverTarget := cachedTarget]}))
    true.

(** A Pause built elsewhere that carries a position with frames. *)
Definition givenPause : Pause :=
  mkPause (GivenPause 1) (Some "5") (Some 50) (Some true).

(** * Properties *)

(** ** Truthiness *)

Lemma truthy_string_true (s : string) : truthy_string s = true ↔ s ≠ "".
Proof. unfold truthy_string. destruct (decide (s = "")); naive_solver. Qed.

Lemma truthy_string_false (s : string) : truthy_string s = false ↔ s = "".
Proof. unfold truthy_string. destruct (decide (s = "")); naive_solver. Qed.

Lemma truthy_opt_string_true (x : option string) :
  truthy_opt_string x = true ↔ ∃ s, x = Some s ∧ s ≠ "".
Proof.
  destruct x as [s|]; simpl.
  - rewrite truthy_string_true. naive_solver.
  - naive_solver.
Qed.

Lemma truthy_number_true (n : Z) : truthy_number n = true ↔ n ≠ 0.
Proof.
  unfold truthy_number. destruct (Z.eqb_spec n 0); naive_solver.
Qed.

(** ** What the speculative lookups leave alone *)

Section Untouched.

(** A lookup that is begun sends a request or queues a reaction; it
    writes nothing else. *)
Lemma awaitFindResumeTarget_front w point command awaiting :
  front (awaitFindResumeTarget w point command awaiting) = front w.
Proof.
  unfold awaitFindResumeTarget.
  by destruct (_findResumeTarget_begin _ _ _).
Qed.

Lemma awaitFindResumeTarget_emitted w point command awaiting :
  emitted (awaitFindResumeTarget w point command awaiting) = emitted w.
Proof.
  unfold awaitFindResumeTarget.
  by destruct (_findResumeTarget_begin _ _ _).
Qed.

Lemma awaitFindResumeTarget_created w point command awaiting :
  created (awaitFindResumeTarget w point command awaiting) = created w.
Proof.
  unfold awaitFindResumeTarget.
  by destruct (_findResumeTarget_begin _ _ _).
Qed.

Lemma awaitFindResumeTarget_timers w point command awaiting :
  timers (awaitFindResumeTarget w point command awaiting) = timers w.
Proof.
  unfold awaitFindResumeTarget.
  by destruct (_findResumeTarget_begin _ _ _).
Qed.

Lemma awaitFindResumeTarget_activations w point command awaiting :
  activations (awaitFindResumeTarget w point command awaiting)
  = activations w.
Proof.
  unfold awaitFindResumeTarget.
  by destruct (_findResumeTarget_begin _ _ _).
Qed.

Lemma awaitFindResumeTarget_released w point command awaiting :
  released (awaitFindResumeTarget w point command awaiting) = released w.
Proof.
  unfold awaitFindResumeTarget.
  by destruct (_findResumeTarget_begin _ _ _).
Qed.

(** The same for a whole [forEach] of lookups. *)
Lemma forEach_await_untouched {A} (commands : list A)
    (point : A → ExecutionPoint) (command : A → FindTargetCommand)
    (awaiting : A → Awaiting) w :
  let w' :=
    fold_left
      (λ w c, awaitFindResumeTarget w (point c) (command c) (awaiting c))
      commands w in
  front w' = front w ∧ emitted w' = emitted w ∧ created w' = created w
  ∧ timers w' = timers w ∧ activations w' = activations w
  ∧ released w' = released w.
Proof.
  revert w. induction commands as [|c commands IH]; intros w; simpl.
  - done.
  - destruct (IH (awaitFindResumeTarget w (point c) (command c) (awaiting c)))
      as (-> & -> & -> & -> & -> & ->).
    by rewrite awaitFindResumeTarget_front, awaitFindResumeTarget_emitted,
      awaitFindResumeTarget_created, awaitFindResumeTarget_timers,
      awaitFindResumeTarget_activations, awaitFindResumeTarget_released.
Qed.

Lemma precache_untouched w :
  let w' := _precacheResumeTargets w in
  front w' = front w ∧ emitted w' = emitted w ∧ created w' = created w
  ∧ timers w' = timers w ∧ activations w' = activations w
  ∧ released w' = released w.
Proof.
  unfold _precacheResumeTargets.
  destruct (negb _); [done|].
  apply (forEach_await_untouched stepCommands
           (λ _, currentPoint (front w)) fst
           (λ step, InPrecache (currentPoint (front w))
                      (resumeTargetEpoch (front w)) step.2)).
Qed.

Lemma precache_front w : front (_precacheResumeTargets w) = front w.
Proof. apply precache_untouched. Qed.

Lemma precache_emitted w : emitted (_precacheResumeTargets w) = emitted w.
Proof. apply precache_untouched. Qed.

Lemma precache_created w : created (_precacheResumeTargets w) = created w.
Proof. apply precache_untouched. Qed.

Lemma precache_timers w : timers (_precacheResumeTargets w) = timers w.
Proof. apply precache_untouched. Qed.

Lemma precache_activations w :
  activations (_precacheResumeTargets w) = activations w.
Proof. apply precache_untouched. Qed.


End Untouched.

(** ** getFrames at a position without frames *)

(** C10: when [currentPointHasFrames] is false, [getFrames] returns the
    empty array and leaves the world as it was: no Pause is built, none is
    made current, nothing is asked of a Pause or of the service, and no
    assertion can fail. *)
Theorem getFrames_frameless (w : World) :
  currentPointHasFrames (front w) = false →
  getFrames w = Returned (w, EmptyArray).
Proof.
  intros Hframes. unfold getFrames. by rewrite Hframes.
Qed.

Lemma getFrames_frameless_witness :
  currentPointHasFrames (front initialWorld) = false
  ∧ getFrames initialWorld = Returned (initialWorld, EmptyArray).
Proof.
  split; [reflexivity|].
  apply (getFrames_frameless initialWorld). reflexivity.
Defined.

(** With frames the current Pause is materialised first, which is what the
    frameless path skips. *)
Lemma getFrames_with_frames (w : World) s :
  currentPointHasFrames (front w) = true →
  sessionId (front w) = Some s → s ≠ "" →
  currentPause (front w) = None →
  allPauses (front w) !! currentPoint (front w) = None →
  ∃ w', getFrames w = Returned (w', FramesOfPause (OwnPause (length (created w))))
        ∧ created w' = created w ++ [(currentPoint (front w), currentTime (front w))].
Proof.
  intros Hframes Hs Hne Hpause Hall.
  assert (Hsession : truthy_opt_string (sessionId (front w)) = true)
    by (apply truthy_opt_string_true; eauto).
  unfold getFrames, ensureCurrentPause, ensurePause.
  rewrite Hframes, Hpause, Hsession, Hall. simpl. eauto.
Qed.

(** ** Warping *)

Lemma timeWarp_warpCallback w c :
  warpCallback (front (timeWarpCall w c)) = warpCallback (front w).
Proof.
  unfold timeWarpCall, timeWarp. by rewrite precache_front.
Qed.

(** One call: the position is the destination with [hasFrames] coerced to
    a boolean, the Pause and the async chain are dropped, and the listeners
    of "paused" are called last, with the raw destination, on the updated
    coordinator. *)
Lemma timeWarp_one (w : World) (c : WarpCall) :
  ∃ point time hasFrames,
    headedFor (front w) c point time hasFrames
    ∧ let w' := timeWarpCall w c in
      currentPoint (front w') = point
      ∧ currentTime (front w') = time
      ∧ currentPointHasFrames (front w') = truthy_opt_bool hasFrames
      ∧ currentPause (front w') = None
      ∧ asyncPauses (front w') = []
      ∧ emitted w'
        = emitted w
          ++ [mkEmission (Paused (mkPauseEventArgs point time hasFrames))
                (front w')].
Proof.
  unfold timeWarpCall, timeWarp.
  set (newTarget :=
         match warpCallback (front w) with
         | Some callback =>
             if negb (truthy_opt_bool (wc_force c))
             then callback (wc_point c) (wc_time c) (wc_hasFrames c)
             else None
         | None => None
         end).
  exists (from_option wt_point (wc_point c) newTarget),
         (from_option wt_time (wc_time c) newTarget),
         (from_option wt_hasFrames (wc_hasFrames c) newTarget).
  split.
  - subst newTarget.
    destruct (warpCallback (front w)) as [callback|] eqn:Hcb.
    + destruct (truthy_opt_bool (wc_force c)) eqn:Hforce; simpl.
      * apply headed_as_called. intros ? _ ?. congruence.
      * destruct (callback _ _ _) as [target|] eqn:Hsub; simpl.
        -- by eapply headed_substituted.
        -- apply headed_as_called. intros cb' Hcb' _. congruence.
    + apply headed_as_called. intros ? ? _. congruence.
  - simpl. rewrite precache_front, precache_emitted. simpl. done.
Qed.

(** C3 as worded fails when [hasFrames] is left out: the call is headed for
    ("5", 50, undefined), and the coordinator reports [false]. *)
Lemma timeWarp_hasFrames_omitted :
  let c := mkWarpCall "5" 50 None None in
  headedFor (front initialWorld) c "5" 50 None
  ∧ currentPointHasFrames (front (timeWarps initialWorld [c])) = false
  ∧ ¬ reportsDestination (front (timeWarps initialWorld [c])) "5" 50 None.
Proof.
  split; [|split].
  - apply (headed_as_called (front initialWorld) (mkWarpCall "5" 50 None None)).
    intros callback [=].
  - reflexivity.
  - intros (_ & _ & [=]).
Qed.

(** C3, amended: after the last call of any sequence of [timeWarp] calls
    [currentPoint] and [currentTime] are the destination of that call (its
    arguments, or the substitution of the warp callback when [force] is
    unset and the callback answers), [currentPointHasFrames] is the
    destination's [hasFrames] coerced to a boolean, [currentPause] is null,
    [asyncPauses] is empty, and "paused" has been emitted last, carrying
    the destination as it is, to listeners that see the updated state. *)
Theorem timeWarp_reports_last_call (w : World) (calls : list WarpCall)
    (last : WarpCall) :
  let before := timeWarps w calls in
  let after := timeWarps w (calls ++ [last]) in
  ∃ point time hasFrames,
    headedFor (front before) last point time hasFrames
    ∧ currentPoint (front after) = point
    ∧ currentTime (front after) = time
    ∧ currentPointHasFrames (front after) = truthy_opt_bool hasFrames
    ∧ (∀ b, hasFrames = Some b → currentPointHasFrames (front after) = b)
    ∧ currentPause (front after) = None
    ∧ asyncPauses (front after) = []
    ∧ emitted after
      = emitted before
        ++ [mkEmission (Paused (mkPauseEventArgs point time hasFrames))
              (front after)].
Proof.
  unfold timeWarps. rewrite fold_left_app. simpl.
  destruct (timeWarp_one (fold_left timeWarpCall calls w) last)
    as (point & time & hasFrames & Hheaded & Hp & Ht & Hh & Hpause & Hasync & Hev).
  exists point, time, hasFrames.
  repeat split; try done.
  intros b ->. by rewrite Hh.
Qed.

Lemma timeWarp_reports_last_call_witness :
  let after :=
    timeWarps initialWorld
      [mkWarpCall "3" 30 (Some false) None; mkWarpCall "5" 50 (Some true) None] in
  currentPoint (front after) = "5" ∧ currentTime (front after) = 50
  ∧ currentPointHasFrames (front after) = true.
Proof.
  destruct (timeWarp_reports_last_call initialWorld
              [mkWarpCall "3" 30 (Some false) None]
              (mkWarpCall "5" 50 (Some true) None))
    as (point & time & hasFrames & _ & Hp & Ht & _ & _).
  repeat split; reflexivity.
Defined.

(** ** Warping to a Pause *)




(** A Pause at time 0 does not pass the assertion. *)
Example timeWarpToPause_time_zero :
  timeWarpToPause initialWorld
    (mkPause (GivenPause 1) (Some "0") (Some 0) (Some false))
  = AssertionFailed.
Proof. reflexivity. Qed.

(** ** Invalidation *)

Lemma callback_begin_front w callback :
  front (callback_begin w callback) = front w.
Proof. unfold callback_begin. by destruct (truthy_opt_string _). Qed.

Lemma invalidate_front w callback :
  front (_invalidateResumeTargets w callback) = set_invalidated (front w).
Proof. unfold _invalidateResumeTargets. by rewrite callback_begin_front. Qed.




(** ** The epoch along a run *)

Section Epoch.

Lemma epoch_invalidate w callback :
  epochOf (_invalidateResumeTargets w callback) = epochOf w + 1.
Proof. unfold epochOf. by rewrite invalidate_front. Qed.

Lemma epoch_precache w : epochOf (_precacheResumeTargets w) = epochOf w.
Proof. unfold epochOf. by rewrite precache_front. Qed.

Lemma epoch_await w point command awaiting :
  epochOf (awaitFindResumeTarget w point command awaiting) = epochOf w.
Proof. unfold epochOf. by rewrite awaitFindResumeTarget_front. Qed.

Lemma epoch_timeWarp w point time hasFrames force :
  epochOf (timeWarp w point time hasFrames force) = epochOf w.
Proof. unfold timeWarp. by rewrite epoch_precache. Qed.

Lemma epoch_timeWarpToPause w pause :
  epochOf (orUnchanged w (timeWarpToPause w pause)) = epochOf w.
Proof.
  unfold timeWarpToPause. destruct (negb _); simpl; [done|].
  by rewrite epoch_precache.
Qed.

Lemma epoch_warpToTarget w a : epochOf (warpToTarget w a) = epochOf w.
Proof.
  unfold warpToTarget.
  destruct (activations w !! a) as [[? [target|]]|]; try done.
  apply epoch_timeWarp.
Qed.

Lemma epoch_ensurePause w point time w' pause :
  ensurePause w point time = Returned (w', pause) → epochOf w' = epochOf w.
Proof.
  unfold ensurePause. destruct (negb _); [done|].
  destruct (allPauses (front w) !! point); by intros [= <- <-].
Qed.

Lemma epoch_ensurePause_ w point time w' :
  ensurePause_ w point time = Some w' → epochOf w' = epochOf w.
Proof.
  unfold ensurePause_.
  destruct (ensurePause w point time) as [[w'' pause]|] eqn:He; [|done].
  intros [= <-]. by eapply epoch_ensurePause.
Qed.

Lemma epoch_ensureCurrentPause w :
  epochOf (orUnchanged w (ensureCurrentPause w)) = epochOf w.
Proof.
  unfold ensureCurrentPause.
  destruct (currentPause (front w)); simpl; [done|].
  destruct (ensurePause w _ _) as [[w1 pause]|] eqn:He; simpl; [|done].
  apply epoch_ensurePause in He. by unfold epochOf in *.
Qed.

Lemma epoch_forEach_await {A} (commands : list A)
    (point : A → ExecutionPoint) (command : A → FindTargetCommand)
    (awaiting : A → Awaiting) w :
  epochOf
    (fold_left
       (λ w c, awaitFindResumeTarget w (point c) (command c) (awaiting c))
       commands w)
  = epochOf w.
Proof.
  unfold epochOf.
  by destruct (forEach_await_untouched commands point command awaiting w)
    as [-> _].
Qed.

Lemma epoch_removeBreakpoint w sourceId line column :
  epochOf (removeBreakpoint w sourceId line column)
  = epochOf w
    + Z.of_nat (invalidationsOf w (CallRemoveBreakpoint sourceId line column)).
Proof.
  unfold removeBreakpoint. simpl.
  generalize (breakpoints (front w)) as entries.
  intros entries. revert w.
  induction entries as [|entry entries IH]; intros w; simpl.
  - lia.
  - destruct (sameLocation entry.2 sourceId line column); simpl.
    + rewrite IH, epoch_invalidate. unfold epochOf. simpl. lia.
    + apply IH.
Qed.

Lemma epoch_runJob w j w' : runJob w j = Some w' → epochOf w' = epochOf w.
Proof.
  destruct j as [[a|point epoch transitive|point epoch|] target
                |outcome|command selectedPoint|point]; simpl.
  - intros [= <-]. unfold _resumeOperation_found.
    destruct (activations w !! a) as [locals|]; [|done].
    destruct (resumeEmitted locals); [|done].
    by rewrite epoch_warpToTarget.
  - intros [= <-]. unfold precache_found.
    destruct (_ || _); [done|].
    destruct (ensurePause_ w _ _) as [w1|] eqn:He; [|done].
    apply epoch_ensurePause_ in He.
    destruct (negb _); [done|].
    by rewrite (epoch_forEach_await transitive (λ _, pd_point target) id
                  (λ _, InTransitive point epoch)).
  - intros [= <-]. unfold transitive_found.
    destruct (_ || _); [done|].
    destruct (ensurePause_ w _ _) as [w1|] eqn:He; [|done].
    by apply epoch_ensurePause_ in He.
  - by intros [= <-].
  - intros [= <-]. unfold _invalidateResumeTargets_finally.
    destruct (bool_decide _); [|done]. by rewrite epoch_precache.
  - destruct (initialized w); [|done]. intros [= <-].
    unfold _resumeOperation_start. by rewrite epoch_await.
  - destruct (initialized w); [|done]. intros [= <-].
    by rewrite epoch_await.
Qed.

Lemma epoch_deliver w r reply w' :
  deliver w r reply = Some w' → epochOf w' = epochOf w.
Proof.
  destruct r as [command point key epoch awaiting|callback]; simpl.
  - destruct reply as [target| | |]; try done.
    + intros [= <-]. unfold epochOf. simpl.
      by destruct (bool_decide _).
    + by intros [= <-].
  - unfold callback_resume.
    destruct reply as [target|breakpointId| |]; destruct callback;
      intros [= <-]; try done.
    by destruct (truthy_opt_string breakpointId).
Qed.

Lemma epoch_fireTimer w t : epochOf (fireTimer w t) = epochOf w.
Proof.
  destruct t as [a|a]; simpl.
  - unfold emitResumed. destruct (activations w !! a); [|done].
    by destruct (bool_decide _).
  - apply epoch_warpToTarget.
Qed.

(** One turn advances the epoch by the number of invalidations in it. *)
Lemma epoch_step w a w' :
  step w a = Some w' →
  epochOf w' = epochOf w + Z.of_nat (invalidationsOf w a).
Proof.
  destruct a; simpl; try (intros [= <-]).
  - rewrite epoch_timeWarp. lia.
  - rewrite epoch_timeWarpToPause. lia.
  - rewrite epoch_invalidate. lia.
  - apply epoch_removeBreakpoint.
  - unfold blackbox. rewrite epoch_invalidate. lia.
  - unfold unblackbox. rewrite epoch_invalidate. lia.
  - unfold epochOf. simpl. lia.
  - unfold epochOf. simpl. lia.
  - unfold waitForInvalidateCommandsToFinish.
    destruct (bool_decide _); unfold epochOf; simpl; lia.
  - unfold getFrames. destruct (negb _); simpl; [lia|].
    unfold ensureCurrentPause.
    destruct (currentPause (front w)) eqn:Hcur; simpl.
    + rewrite Hcur. simpl. lia.
    + destruct (ensurePause w _ _) as [[w1 pause]|] eqn:He; simpl; [|lia].
      apply epoch_ensurePause in He. unfold epochOf in *. simpl. lia.
  - rewrite epoch_ensureCurrentPause. lia.
  - unfold epochOf. simpl. lia.
  - destruct (Registry.preferSource _ _ _); unfold epochOf; simpl; lia.
  - unfold epochOf. simpl. lia.
  - unfold epochOf. simpl. lia.
  - unfold epochOf. simpl. lia.
  - destruct (inflight w !! i) as [r|]; [|done].
    intros Hd. apply epoch_deliver in Hd. unfold epochOf in *. simpl in *. lia.
  - destruct (jobs w !! i) as [j|]; [|done].
    intros Hj. apply epoch_runJob in Hj. unfold epochOf in *. simpl in *. lia.
  - destruct (timers w !! i) as [t|]; [|done].
    intros [= <-]. rewrite epoch_fireTimer. unfold epochOf. simpl. lia.
Qed.

(** The epoch after a run counts the invalidations of the run. *)
Lemma epoch_run actions : ∀ w w',
  run w actions = Some w' →
  epochOf w' = epochOf w + Z.of_nat (invalidationsDuring w actions).
Proof.
  induction actions as [|a actions IH]; intros w w'; simpl.
  - intros [= <-]. lia.
  - destruct (step w a) as [w1|] eqn:Hstep; [|done].
    intros Hrun. apply IH in Hrun. apply epoch_step in Hstep. lia.
Qed.

End Epoch.

(** ** Looking up a resume target *)

Lemma findResumeTarget_begin_asked f point command key epoch :
  _findResumeTarget_begin f point command = Asked key epoch →
  key = targetKey point command
  ∧ epoch = resumeTargetEpoch f
  ∧ resumeTargets f !! key = None
  ∧ truthy_opt_string (sessionId f) = true.
Proof.
  unfold _findResumeTarget_begin.
  destruct (truthy_opt_string (sessionId f)); simpl; [|done].
  destruct (resumeTargets f !! targetKey point command) eqn:Hget; [done|].
  by intros [= <- <-].
Qed.

(** The reply to a lookup in flight: the rest of [_findResumeTarget] runs
    and its caller is queued with the target. *)
Lemma deliver_target w i command point key epoch awaiting target :
  inflight w !! i = Some (FindTarget command point key epoch awaiting) →
  ∃ w',
    step w (Deliver i (GotTarget target)) = Some w'
    ∧ front w' = (_findResumeTarget_resume (front w) key epoch target).1
    ∧ jobs w' = jobs w ++ [AfterFind awaiting target].
Proof.
  intros Hin. simpl. rewrite Hin. simpl.
  eexists. split; [reflexivity|]. done.
Qed.

(** C1: a lookup that misses the cache in world [w0] captures the epoch;
    [actions] is what happens until its reply arrives in world [w1].  The
    target is handed to the code that awaits the lookup in every case.  If
    [_invalidateResumeTargets] has been called in between, the epoch has
    moved and the coordinator, its cache included, is left as it was; if it
    has not, the target is stored under the key made of the point and the
    name of the command. *)
Theorem findResumeTarget_stale_never_memoized (w0 w1 : World)
    (point : ExecutionPoint) (command : FindTargetCommand) (key : string)
    (epoch : Z) (actions : list Action) (target : PauseDescription) :
  _findResumeTarget_begin (front w0) point command = Asked key epoch →
  run w0 actions = Some w1 →
  let resumed := _findResumeTarget_resume (front w1) key epoch target in
  key = targetKey point command
  ∧ resumed.2 = target
  ∧ (∀ i awaiting,
       inflight w1 !! i = Some (FindTarget command point key epoch awaiting) →
       ∃ w2,
         step w1 (Deliver i (GotTarget target)) = Some w2
         ∧ front w2 = resumed.1
         ∧ jobs w2 = jobs w1 ++ [AfterFind awaiting target])
  ∧ ((0 < invalidationsDuring w0 actions)%nat →
     resumeTargetEpoch (front w1) ≠ epoch ∧ resumed.1 = front w1)
  ∧ (invalidationsDuring w0 actions = 0%nat →
     resumeTargetEpoch (front w1) = epoch
     ∧ resumed.1
       = set_resumeTargets (front w1) (<[key := target]> (resumeTargets (front w1)))
     ∧ resumeTargets resumed.1 !! targetKey point command = Some target).
Proof.
  intros Hbegin Hrun.
  apply findResumeTarget_begin_asked in Hbegin as (Hkey & Hepoch & _ & _).
  apply epoch_run in Hrun. unfold epochOf in Hrun.
  simpl. repeat split.
  - done.
  - intros i awaiting Hin. by eapply deliver_target.
  - lia.
  - rewrite bool_decide_eq_false_2; [done|lia].
  - lia.
  - rewrite bool_decide_eq_true_2; [done|lia].
  - rewrite bool_decide_eq_true_2 by lia. simpl.
    rewrite <- Hkey. apply lookup_insert_eq.
Qed.

(** A step-over lookup from point "10" that is overtaken by a blackbox
    call: the reply is not stored. *)
Lemma findResumeTarget_stale_never_memoized_witness :
  let w0 := set_front initialWorld (set_sessionId initialThreadFront (Some "s")) in
  let actions := [CallBlackbox "src" (mkSourceLocation 1 0) (mkSourceLocation 2 0)] in
  let target := mkPauseDescription 1 "20" 200 None in
  _findResumeTarget_begin (front w0) "10" findStepOverTarget
  = Asked "10:findStepOverTarget" 0
  ∧ ∃ w1, run w0 actions = Some w1
          ∧ (_findResumeTarget_resume (front w1) "10:findStepOverTarget" 0 target).1
            = front w1.
Proof.
  split; [reflexivity|].
  eexists. split; [reflexivity|].
  eapply (findResumeTarget_stale_never_memoized
            (set_front initialWorld (set_sessionId initialThreadFront (Some "s")))
            _ "10" findStepOverTarget "10:findStepOverTarget" 0
            [CallBlackbox "src" (mkSourceLocation 1 0) (mkSourceLocation 2 0)]
            (mkPauseDescription 1 "20" 200 None)).
  - reflexivity.
  - reflexivity.
  - simpl. lia.
Defined.


(** When the first call already finds the target in the cache, so does
    the second. *)
Lemma findResumeTarget_known_again (w0 w3 : World) (point : ExecutionPoint)
    (command : FindTargetCommand) (target : PauseDescription) :
  _findResumeTarget_begin (front w0) point command = KnownTarget target →
  resumeTargets (front w3) = resumeTargets (front w0) →
  sessionId (front w3) = sessionId (front w0) →
  _findResumeTarget_begin (front w3) point command = KnownTarget target.
Proof.
  unfold _findResumeTarget_begin. intros Hfirst Hcache Hsession.
  rewrite Hcache, Hsession.
  destruct (negb _); [done|].
  by destruct (resumeTargets (front w0) !! targetKey point command).
Qed.


(** ** A breakpoint the service refuses *)

Lemma lookup_snoc {A} (l : list A) (x : A) : (l ++ [x]) !! length l = Some x.
Proof. by rewrite lookup_app_r, Nat.sub_diag by lia. Qed.

Lemma delete_snoc {A} (l : list A) (x : A) : delete (length l) (l ++ [x]) = l.
Proof.
  induction l as [|y l IH]; simpl; [done|]. by rewrite IH.
Qed.




(** The other outcome, for comparison: an id is answered and the breakpoint
    is recorded. *)
Lemma setBreakpoint_success w1 i location condition breakpointId :
  inflight w1 !! i = Some (Mutate (SetBreakpoint location condition)) →
  breakpointId ≠ "" →
  ∃ w2,
    step w1 (Deliver i (GotBreakpoint (Some breakpointId))) = Some w2
    ∧ breakpoints (front w2)
      = Map_set (breakpoints (front w1)) breakpointId location
    ∧ jobs w2 = jobs w1 ++ [Finally (Resolved ())].
Proof.
  intros Hin Hid. simpl. rewrite Hin. simpl.
  apply truthy_string_true in Hid. rewrite Hid.
  eexists. split; [reflexivity|]. done.
Qed.

(** ** Choosing between a generated and an original source *)

Section Choosing.

Import Registry.

Lemma includes_true `{EqDecision A} (xs : list A) (x : A) :
  includes xs x = true ↔ x ∈ xs.
Proof. unfold includes. apply bool_decide_eq_true. Qed.

Lemma includes_false `{EqDecision A} (xs : list A) (x : A) :
  includes xs x = false ↔ x ∉ xs.
Proof. unfold includes. apply bool_decide_eq_false. Qed.

Lemma elem_of_Js_filter {A} (p : A → bool) (xs : list A) (x : A) :
  x ∈ Js.filter p xs ↔ p x = true ∧ x ∈ xs.
Proof.
  induction xs as [|y xs IH]; simpl.
  - rewrite !elem_of_nil. naive_solver.
  - destruct (p y) eqn:Hy; rewrite ?elem_of_cons, IH;
      intuition (subst; congruence).
Qed.

Lemma Js_filter_all {A} (p : A → bool) (xs : list A) :
  (∀ x, x ∈ xs → p x = true) → Js.filter p xs = xs.
Proof.
  induction xs as [|y xs IH]; intros Hall; simpl; [done|].
  rewrite (Hall y) by (left). f_equal. apply IH.
  intros x Hx. apply Hall. by right.
Qed.

(** [preferSource] changes the set of preferences and nothing else. *)
Lemma preferSource_true r G r' :
  preferSource r G true = Returned r' →
  sources r' = sources r
  ∧ originalSources r' = originalSources r
  ∧ preferredGeneratedSources r' = {[G]} ∪ preferredGeneratedSources r.
Proof.
  unfold preferSource.
  destruct (isSourceMappedSource r G) as [[|]|]; try done.
  by intros [= <-].
Qed.

(** The choice for a generated source [G] and an original source [O], as a
    function of the preference. *)
Lemma chooseSourceId_generated_original r G O infoG infoO kG :
  sources r !! G = Some infoG →
  sources r !! O = Some infoO →
  resolvedKind r infoG = Some (Returned kG) →
  kG ≠ sourceMapped →
  kind infoO = sourceMapped →
  isMinifiedSource r G = false →
  isMinifiedSource r O = false →
  G ≠ "" → O ≠ "" →
  _chooseSourceId r [G; O]
  = Returned
      (if bool_decide (G ∈ preferredGeneratedSources r)
       then mkChoice G (Some O) else mkChoice O (Some G)).
Proof.
  intros HG HO HkG Hgen Horig HminG HminO HGne HOne.
  assert (HkindG : kind infoG ≠ inlineScript ∨ kind infoG ≠ html).
  { destruct (kind infoG); auto. }
  assert (HkO : resolvedKind r infoO = Some (Returned sourceMapped)).
  { unfold resolvedKind. rewrite Horig. by destruct (decide _). }
  unfold _chooseSourceId.
  set (afterHtml := if some _ [G; O] then _ else _).
  assert (Hhtml : afterHtml = [G; O]).
  { subst afterHtml. destruct (some _ [G; O]) eqn:Hsome; [|done].
    apply Js_filter_all. intros x Hx.
    apply negb_true_iff, bool_decide_eq_false.
    unfold getSourceKind. simpl in Hsome.
    rewrite orb_false_r, orb_true_iff, !bool_decide_eq_true in Hsome.
    unfold getSourceKind in Hsome. rewrite HG, HO in Hsome. simpl in Hsome.
    apply elem_of_cons in Hx as [->|Hx].
    - rewrite HG. simpl. intros [= Hinline].
      destruct Hsome as [[= Hh]|[= Hh]]; congruence.
    - apply list_elem_of_singleton in Hx as ->. rewrite HO. simpl.
      rewrite Horig. done. }
  rewrite Hhtml. simpl. rewrite HminG, HminO. simpl.
  rewrite HG, HkG. destruct (decide (kG = sourceMapped)); [done|]. simpl.
  rewrite HO, HkO. destruct (decide (sourceMapped = sourceMapped)); [|done].
  simpl.
  apply truthy_string_true in HGne, HOne. rewrite HGne, HOne. simpl.
  by destruct (bool_decide _).
Qed.

End Choosing.

(** C6 as worded fails for a generated source of kind prettyPrinted whose
    minified version is not registered: the loop of [_chooseSourceId]
    returns that source at once, without an alternate. *)
Lemma chooseSourceId_prettyPrinted_pair :
  let r :=
    Registry.addSource
      (Registry.addSource Registry.empty
         (mkNewSource "G" prettyPrinted None None))
      (mkNewSource "O" sourceMapped None (Some ["G"])) in
  Registry.getSourceKind r "G" = Some prettyPrinted
  ∧ Registry.getSourceKind r "O" = Some sourceMapped
  ∧ Registry.originalIdsOf r "G" = ["O"]
  ∧ ("G" ∉ Registry.preferredGeneratedSources r)
  ∧ Registry._chooseSourceId r ["G"; "O"]
    = Returned (Registry.mkChoice "G" None)
  ∧ (Registry._chooseSourceId r ["G"; "O"]
     ≠ Returned (Registry.mkChoice "O" (Some "G"))).
Proof.
  repeat split; try reflexivity.
  - by vm_compute.
  - by vm_compute.
Qed.

(** With the minified version registered and itself an original, the
    pretty-printed source counts as an original too, and the last original
    is returned without an alternate. *)
Example chooseSourceId_prettyPrinted_of_original :
  let r :=
    Registry.addSource
      (Registry.addSource
         (Registry.addSource Registry.empty
            (mkNewSource "M" sourceMapped None None))
         (mkNewSource "G" prettyPrinted None (Some ["M"])))
      (mkNewSource "O" sourceMapped None (Some ["G"])) in
  Registry._chooseSourceId r ["G"; "O"] = Returned (Registry.mkChoice "O" None).
Proof. reflexivity. Qed.

(** The same happens with an id that is the empty string, which the
    truthiness tests on [generatedId] take for no id at all. *)
Example chooseSourceId_empty_id :
  let r :=
    Registry.addSource
      (Registry.addSource Registry.empty (mkNewSource "" scriptSource None None))
      (mkNewSource "O" sourceMapped None (Some [""])) in
  Registry._chooseSourceId r [""; "O"] = Returned (Registry.mkChoice "O" None).
Proof. reflexivity. Qed.

(** C6, amended: let [G] and [O] be registered sources with ids that are
    not the empty string, [O] of kind sourceMapped, the kind of [G] (the
    kind of its registered minified version when [G] is prettyPrinted)
    known and not sourceMapped, and neither of them a minified source with
    a pretty-printed version.  While [G] is not preferred,
    [_chooseSourceId([G, O])] returns [{sourceId: O, alternateId: G}];
    [preferSource(G, true)] succeeds, and after it the same call returns
    [{sourceId: G, alternateId: O}]. *)
Theorem chooseSourceId_prefers_original (r : Registry.t) (G O : SourceId)
    (infoG infoO : Source) (kG : SourceKind) :
  Registry.sources r !! G = Some infoG →
  Registry.sources r !! O = Some infoO →
  Registry.resolvedKind r infoG = Some (Returned kG) →
  kG ≠ sourceMapped →
  kind infoO = sourceMapped →
  Registry.isMinifiedSource r G = false →
  Registry.isMinifiedSource r O = false →
  G ≠ "" → O ≠ "" →
  G ∉ Registry.preferredGeneratedSources r →
  Registry._chooseSourceId r [G; O]
  = Returned (Registry.mkChoice O (Some G))
  ∧ ∃ r',
      Registry.preferSource r G true = Returned r'
      ∧ Registry._chooseSourceId r' [G; O]
        = Returned (Registry.mkChoice G (Some O)).
Proof.
  intros HG HO HkG Hgen Horig HminG HminO HGne HOne Hpref.
  split.
  - rewrite (chooseSourceId_generated_original r G O infoG infoO kG) by done.
    by rewrite bool_decide_eq_false_2.
  - assert (Hprefer : ∃ r', Registry.preferSource r G true = Returned r').
    { unfold Registry.preferSource, Registry.isSourceMappedSource.
      rewrite HG, HkG. rewrite bool_decide_eq_false_2 by done. eauto. }
    destruct Hprefer as [r' Hr']. exists r'. split; [done|].
    destruct (preferSource_true r G r' Hr') as (Hs & Ho & Hp).
    rewrite (chooseSourceId_generated_original r' G O infoG infoO kG).
    + rewrite bool_decide_eq_true_2; [done|]. rewrite Hp. set_solver.
    + by rewrite Hs.
    + by rewrite Hs.
    + by unfold Registry.resolvedKind, Registry.minifiedInfoOf in *; rewrite Hs.
    + done.
    + done.
    + by unfold Registry.isMinifiedSource, Registry.originalIdsOf in *;
        rewrite Hs, Ho.
    + by unfold Registry.isMinifiedSource, Registry.originalIdsOf in *;
        rewrite Hs, Ho.
    + done.
    + done.
Qed.

Lemma chooseSourceId_prefers_original_witness :
  let r :=
    Registry.addSource
      (Registry.addSource Registry.empty
         (mkNewSource "G" scriptSource None None))
      (mkNewSource "O" sourceMapped None (Some ["G"])) in
  Registry._chooseSourceId r ["G"; "O"]
  = Returned (Registry.mkChoice "O" (Some "G"))
  ∧ ∃ r',
      Registry.preferSource r "G" true = Returned r'
      ∧ Registry._chooseSourceId r' ["G"; "O"]
        = Returned (Registry.mkChoice "G" (Some "O")).
Proof.
  apply (chooseSourceId_prefers_original
           (Registry.addSource
              (Registry.addSource Registry.empty
                 (mkNewSource "G" scriptSource None None))
              (mkNewSource "O" sourceMapped None (Some ["G"])))
           "G" "O"
           (mkSource scriptSource None None)
           (mkSource sourceMapped None (Some ["G"]))
           scriptSource).
  all: try reflexivity.
  all: discriminate.
Defined.

(** ** Grouping source ids *)

Lemma pop_None {A} (xs : list A) : pop xs = None → xs = [].
Proof.
  destruct xs as [|x rest]; simpl; [done|].
  by destruct (pop rest) as [[init y]|].
Qed.

Lemma pop_Some {A} (xs init : list A) (x : A) :
  pop xs = Some (init, x) → xs = init ++ [x].
Proof.
  revert init. induction xs as [|y rest IH]; intros init; simpl; [done|].
  destruct (pop rest) as [[init' z]|] eqn:Hrest.
  - intros [= <- <-]. simpl. f_equal. by apply IH.
  - intros [= <- <-]. apply pop_None in Hrest. by subst.
Qed.

Lemma NoDup_Js_filter {A} (p : A → bool) (xs : list A) :
  NoDup xs → NoDup (Js.filter p xs).
Proof.
  induction 1 as [|x xs Hx Hnd IH]; simpl; [constructor|].
  destruct (p x); [|done].
  constructor; [|done]. rewrite elem_of_Js_filter. tauto.
Qed.

Lemma Js_filter_length {A} (p : A → bool) (xs : list A) :
  (length (Js.filter p xs) ≤ length xs)%nat.
Proof.
  induction xs as [|x xs IH]; simpl; [lia|].
  destruct (p x); simpl; lia.
Qed.

Lemma Js_filter_shorter {A} (p : A → bool) (xs : list A) (x : A) :
  x ∈ xs → p x = false → (length (Js.filter p xs) < length xs)%nat.
Proof.
  induction xs as [|y xs IH]; intros Hin Hp; simpl.
  - by apply elem_of_nil in Hin.
  - apply elem_of_cons in Hin as [<-|Hin].
    + rewrite Hp. pose proof (Js_filter_length p xs). lia.
    + specialize (IH Hin Hp). destruct (p y); simpl; lia.
Qed.

Lemma Js_filter_ext {A} (p q : A → bool) (xs : list A) :
  (∀ x, x ∈ xs → p x = q x) → Js.filter p xs = Js.filter q xs.
Proof.
  induction xs as [|y xs IH]; intros Hext; simpl; [done|].
  rewrite (Hext y) by left. rewrite IH; [done|].
  intros x Hx. apply Hext. by right.
Qed.

Section Grouping.

Import Registry.

Variable r : Registry.t.

Lemma weight_split (entries : list (SourceId * Source)) rv x info :
  NoDup entries.*1 → (x, info) ∈ entries → x ∉ rv →
  sum_list (degree r <$> Js.filter (λ e, negb (includes rv e.1)) entries)
  = (degree r (x, info)
     + sum_list
         (degree r <$> Js.filter (λ e, negb (includes (rv ++ [x]) e.1)) entries))%nat.
Proof.
  intros Hnd Hin Hx.
  induction entries as [|e entries IH]; [by apply elem_of_nil in Hin|].
  rewrite fmap_cons in Hnd. apply NoDup_cons in Hnd as [Hfresh Hnd].
  apply elem_of_cons in Hin as [<-|Hin]; simpl.
  - rewrite (proj2 (includes_false rv x) Hx). simpl.
    rewrite (proj2 (includes_true (rv ++ [x]) x)) by set_solver. simpl.
    rewrite (Js_filter_ext (λ e, negb (includes rv e.1))
               (λ e, negb (includes (rv ++ [x]) e.1)) entries); [done|].
    intros e He.
    assert (e.1 ≠ x).
    { intros <-. apply Hfresh. apply list_elem_of_fmap. by exists e. }
    f_equal. unfold includes.
    apply bool_decide_ext. set_solver.
  - assert (e.1 ≠ x).
    { intros <-. apply Hfresh. apply list_elem_of_fmap.
      exists (e.1, info). eauto. }
    assert (Hsame : includes (rv ++ [x]) e.1 = includes rv e.1).
    { unfold includes. apply bool_decide_ext. set_solver. }
    rewrite Hsame. specialize (IH Hnd Hin).
    destruct (includes rv e.1); simpl; [done|].
    unfold fmap in IH. rewrite IH. lia.
Qed.

Lemma weight_visit rv x info :
  sources r !! x = Some info → x ∉ rv →
  weight r rv
  = (length (generatedIdsOf info ++ originalIdsOf r x) + weight r (rv ++ [x]))%nat.
Proof.
  intros Hx Hrv. unfold weight.
  apply (weight_split (map_to_list (sources r)) rv x info).
  - apply NoDup_fst_map_to_list.
  - by apply elem_of_map_to_list.
  - done.
Qed.

(** The loop ends before the bound on its iterations. *)
Lemma alternatesLoop_terminates fuel : ∀ rv worklist,
  (length worklist + weight r rv < fuel)%nat →
  alternatesLoop fuel r rv worklist ≠ OutOfFuel.
Proof.
  induction fuel as [|fuel IH]; intros rv worklist Hfuel; simpl; [lia|].
  destruct (pop worklist) as [[rest x]|] eqn:Hpop; [|done].
  apply pop_Some in Hpop. subst worklist.
  rewrite length_app in Hfuel. simpl in Hfuel.
  destruct (includes rv x) eqn:Hinc.
  - apply IH. lia.
  - apply includes_false in Hinc.
    destruct (sources r !! x) as [info|] eqn:Hx; [|done].
    apply IH. rewrite (weight_visit rv x info Hx Hinc) in Hfuel.
    rewrite length_app. lia.
Qed.

(** What the loop returns: [rv] grown into a set without duplicates that
    holds the work list, is closed under pushing, and holds nothing that
    the work list does not reach. *)
Lemma alternatesLoop_done fuel : ∀ rv worklist res,
  alternatesLoop fuel r rv worklist = Done res →
  NoDup rv →
  (∀ x y, x ∈ rv → pushed r x y → y ∈ rv ∨ y ∈ worklist) →
  NoDup res
  ∧ (∀ x, x ∈ rv ∨ x ∈ worklist → x ∈ res)
  ∧ (∀ x y, x ∈ res → pushed r x y → y ∈ res)
  ∧ (∀ y, y ∈ res → y ∈ rv ∨ ∃ x, x ∈ worklist ∧ rtc (pushed r) x y).
Proof.
  induction fuel as [|fuel IH]; intros rv worklist res; simpl; [done|].
  destruct (pop worklist) as [[rest x]|] eqn:Hpop.
  - apply pop_Some in Hpop. subst worklist.
    destruct (includes rv x) eqn:Hinc.
    + apply includes_true in Hinc.
      intros Hloop Hnd Hinv.
      destruct (IH rv rest res Hloop Hnd) as (Hres & Hsub & Hclosed & Hreach).
      { intros a b Ha Hab. destruct (Hinv a b Ha Hab) as [?|Hb]; [by left|].
        apply elem_of_app in Hb as [?|Hb]; [by right|].
        apply list_elem_of_singleton in Hb as ->. by left. }
      repeat split; try done.
      * intros a [Ha|Ha]; apply Hsub; [by left|].
        apply elem_of_app in Ha as [?|Ha]; [by right|].
        apply list_elem_of_singleton in Ha as ->. by left.
      * intros b Hb. destruct (Hreach b Hb) as [?|(a & Ha & Hab)]; [by left|].
        right. exists a. split; [|done]. apply elem_of_app. by left.
    + apply includes_false in Hinc.
      destruct (sources r !! x) as [info|] eqn:Hx; [|done].
      intros Hloop Hnd Hinv.
      destruct (IH (rv ++ [x])
                  (rest ++ generatedIdsOf info ++ originalIdsOf r x)
                  res Hloop)
        as (Hres & Hsub & Hclosed & Hreach).
      { apply NoDup_app. repeat split; [done| |apply NoDup_singleton].
        intros a Ha Hax. apply list_elem_of_singleton in Hax as ->. done. }
      { intros a b Ha Hab.
        apply elem_of_app in Ha as [Ha|Ha].
        - destruct (Hinv a b Ha Hab) as [Hb|Hb].
          + left. apply elem_of_app. by left.
          + apply elem_of_app in Hb as [Hb|Hb].
            * right. apply elem_of_app. by left.
            * left. apply elem_of_app. by right.
        - apply list_elem_of_singleton in Ha as ->.
          destruct Hab as (info' & Hx' & Hb).
          rewrite Hx in Hx'. injection Hx' as <-.
          right. apply elem_of_app. by right. }
      repeat split; try done.
      * intros a [Ha|Ha]; apply Hsub.
        -- left. apply elem_of_app. by left.
        -- apply elem_of_app in Ha as [Ha|Ha].
           ++ right. apply elem_of_app. by left.
           ++ left. apply elem_of_app. by right.
      * intros b Hb. destruct (Hreach b Hb) as [Hb'|(a & Ha & Hab)].
        -- apply elem_of_app in Hb' as [?|Hb']; [by left|].
           apply list_elem_of_singleton in Hb' as ->.
           right. exists x. split; [|done]. apply elem_of_app. right. by left.
        -- right. apply elem_of_app in Ha as [Ha|Ha].
           ++ exists a. split; [|done]. apply elem_of_app. by left.
           ++ exists x. split; [apply elem_of_app; right; by left|].
              eapply rtc_l; [|done]. by exists info.
  - apply pop_None in Hpop. subst worklist.
    intros [= <-] Hnd Hinv. repeat split; try done.
    + intros x [?|Hx]; [done|]. by apply elem_of_nil in Hx.
    + intros a b Ha Hab. destruct (Hinv a b Ha Hab) as [?|Hb]; [done|].
      by apply elem_of_nil in Hb.
    + intros y Hy. by left.
Qed.

(** The assertion of the loop fails only at an id that is reached and not
    registered. *)
Lemma alternatesLoop_failed fuel : ∀ rv worklist,
  alternatesLoop fuel r rv worklist = Failed →
  ∃ x y, x ∈ worklist ∧ rtc (pushed r) x y ∧ sources r !! y = None.
Proof.
  induction fuel as [|fuel IH]; intros rv worklist; simpl; [done|].
  destruct (pop worklist) as [[rest x]|] eqn:Hpop; [|done].
  apply pop_Some in Hpop. subst worklist.
  destruct (includes rv x).
  - intros Hloop. destruct (IH _ _ Hloop) as (a & b & Ha & Hab & Hb).
    exists a, b. split; [|done]. apply elem_of_app. by left.
  - destruct (sources r !! x) as [info|] eqn:Hx.
    + intros Hloop. destruct (IH _ _ Hloop) as (a & b & Ha & Hab & Hb).
      apply elem_of_app in Ha as [Ha|Ha].
      * exists a, b. split; [|done]. apply elem_of_app. by left.
      * exists x, b. split; [apply elem_of_app; right; by left|].
        split; [|done]. eapply rtc_l; [|done]. by exists info.
    + intros _. exists x, x. split; [apply elem_of_app; right; by left|].
      done.
Qed.

(** [_getAlternateSourceIds]: when every id that is reached is
    registered, the ids reached from [id], each once. *)
Lemma getAlternateSourceIds_reach id :
  (∀ y, rtc (pushed r) id y → is_Some (sources r !! y)) →
  ∃ res,
    _getAlternateSourceIds r id = Done res
    ∧ NoDup res
    ∧ ∀ y, y ∈ res ↔ rtc (pushed r) id y.
Proof.
  intros Hregistered. unfold _getAlternateSourceIds.
  destruct (alternatesLoop (alternatesFuel r) r [] [id]) as [res| |] eqn:Hloop.
  - exists res. split; [done|].
    destruct (alternatesLoop_done _ _ _ _ Hloop)
      as (Hres & Hsub & Hclosed & Hreach).
    { constructor. }
    { intros x y Hx. by apply elem_of_nil in Hx. }
    split; [done|]. intros y. split.
    + intros Hy. destruct (Hreach y Hy) as [Hy'|(x & Hx & Hxy)].
      * by apply elem_of_nil in Hy'.
      * by apply list_elem_of_singleton in Hx as ->.
    + intros Hy. revert y Hy. apply rtc_ind_r.
      * apply Hsub. right. by left.
      * intros y z _ Hyz Hy. by eapply Hclosed.
  - apply alternatesLoop_failed in Hloop as (x & y & Hx & Hxy & Hy).
    apply list_elem_of_singleton in Hx as ->.
    destruct (Hregistered y Hxy) as [info Hinfo]. congruence.
  - exfalso. revert Hloop. apply alternatesLoop_terminates.
    unfold alternatesFuel, weight. simpl.
    rewrite Js_filter_all; [lia|]. done.
Qed.

End Grouping.

Lemma elem_of_concat {A} (x : A) (ls : list (list A)) :
  x ∈ concat ls ↔ ∃ l, l ∈ ls ∧ x ∈ l.
Proof.
  induction ls as [|l ls IH]; simpl.
  - split; [intros Hx; by apply elem_of_nil in Hx|].
    intros (l & Hl & _). by apply elem_of_nil in Hl.
  - rewrite elem_of_app, IH. split.
    + intros [Hx|(l' & Hl' & Hx)].
      * exists l. split; [left|done].
      * exists l'. split; [by right|done].
    + intros (l' & Hl' & Hx). apply elem_of_cons in Hl' as [->|Hl'].
      * by left.
      * right. by exists l'.
Qed.

Section Groups.

Import Registry.

Variable r : Registry.t.

(** The loop of [_groupSourceIds] over ids from which only registered
    sources are reached and among which reaching goes both ways. *)
Lemma groupLoop_partition fuel : ∀ ids groups0,
  (length ids < fuel)%nat →
  (∀ x y, x ∈ ids → rtc (pushed r) x y → is_Some (sources r !! y)) →
  (∀ x y, x ∈ ids → rtc (pushed r) x y → rtc (pushed r) y x) →
  ∃ groups,
    groupLoop fuel r ids groups0 = Done (groups0 ++ groups)
    ∧ (∀ x, x ∈ ids ↔ ∃ g, g ∈ groups ∧ x ∈ g)
    ∧ NoDup (concat groups)
    ∧ Forall (λ g, g ≠ []) groups
    ∧ (∀ x y, x ∈ ids → y ∈ ids →
         (∃ g, g ∈ groups ∧ x ∈ g ∧ y ∈ g) ↔ rtc (pushed r) x y).
Proof.
  induction fuel as [|fuel IH]; intros ids groups0 Hfuel Hreg Hsym; [lia|].
  simpl. destruct ids as [|h rest].
  - exists []. rewrite app_nil_r. split; [done|].
    split; [|split; [constructor|split; [done|]]].
    + intros x. split; [intros Hx; by apply elem_of_nil in Hx|].
      intros (g & Hg & _). by apply elem_of_nil in Hg.
    + intros x y Hx. by apply elem_of_nil in Hx.
  - set (ids := h :: rest) in *.
    assert (Hh : h ∈ ids) by (subst ids; left).
    destruct (getAlternateSourceIds_reach r h) as (alts & -> & Halts & Hreach).
    { intros y. by apply Hreg. }
    set (group := Js.filter (includes ids) alts).
    set (ids' := Js.filter (λ id, negb (includes group id)) ids).
    assert (Hgroup : ∀ x, x ∈ group ↔ x ∈ ids ∧ rtc (pushed r) h x).
    { intros x. subst group. rewrite elem_of_Js_filter, includes_true, Hreach.
      tauto. }
    assert (Hids' : ∀ x, x ∈ ids' ↔ x ∈ ids ∧ x ∉ group).
    { intros x. subst ids'.
      rewrite elem_of_Js_filter, negb_true_iff, includes_false. tauto. }
    assert (Hhg : h ∈ group) by (apply Hgroup; split; [done|apply rtc_refl]).
    destruct (IH ids' (groups0 ++ [group]))
      as (groups & -> & Hcover & Hnd & Hne & Hsame).
    { assert (length ids' < length ids)%nat; [|simpl in *; lia].
      apply (Js_filter_shorter _ ids h Hh).
      apply negb_false_iff, includes_true. done. }
    { intros x y Hx. apply Hreg. by apply Hids'. }
    { intros x y Hx. apply Hsym. by apply Hids'. }
    exists (group :: groups). rewrite <- app_assoc. simpl.
    split; [done|].
    assert (Hin' : ∀ x g, g ∈ groups → x ∈ g → x ∈ ids ∧ x ∉ group).
    { intros x g Hg Hx. apply Hids', Hcover. eauto. }
    split; [|split; [|split]].
    + intros x. split.
      * intros Hx. destruct (decide (x ∈ group)) as [Hxg|Hxg].
        -- exists group. split; [left|done].
        -- destruct (proj1 (Hcover x)) as (g & Hg & Hxg'); [by apply Hids'|].
           exists g. split; [by right|done].
      * intros (g & Hg & Hx). apply elem_of_cons in Hg as [->|Hg].
        -- by apply Hgroup.
        -- by apply (Hin' x g).
    + apply NoDup_app. repeat split; [|intros x Hx Hc|done].
      * subst group. by apply NoDup_Js_filter.
      * apply elem_of_concat in Hc as (g & Hg & Hxg).
        by apply (Hin' x g).
    + constructor; [|done]. intros Hnil. rewrite Hnil in Hhg.
      by apply elem_of_nil in Hhg.
    + intros x y Hx Hy. split.
      * intros (g & Hg & Hxg & Hyg). apply elem_of_cons in Hg as [->|Hg].
        -- apply Hgroup in Hxg as [_ Hhx]. apply Hgroup in Hyg as [_ Hhy].
           etrans; [|done]. by apply Hsym.
        -- apply Hsame;
             [by apply Hids', (Hin' x g)|by apply Hids', (Hin' y g)|].
           eauto.
      * intros Hxy. destruct (decide (x ∈ group)) as [Hxg|Hxg].
        -- exists group. split; [left|]. split; [done|].
           apply Hgroup. split; [done|]. apply Hgroup in Hxg as [_ Hhx].
           by etrans.
        -- assert (Hyg : y ∉ group).
           { intros Hyg. apply Hxg, Hgroup. split; [done|].
             apply Hgroup in Hyg as [_ Hhy]. etrans; [done|]. by apply Hsym. }
           destruct (proj2 (Hsame x y (proj2 (Hids' x) (conj Hx Hxg))
                              (proj2 (Hids' y) (conj Hy Hyg))) Hxy)
             as (g & Hg & Hxg' & Hyg').
           exists g. split; [by right|done].
Qed.

(** Under [reversed], what the loop pushes for a registered id is what is
    adjacent to it. *)
Lemma pushed_related x y :
  reversed r → pushed r x y → related r x y.
Proof.
  intros Hrev (info & Hx & Hy). apply elem_of_app in Hy as [Hy|Hy].
  - left. by exists info.
  - right. by apply Hrev.
Qed.

Lemma related_pushed x y :
  reversed r → is_Some (sources r !! x) → related r x y → pushed r x y.
Proof.
  intros Hrev [info Hx] [(info' & Hx' & Hy)|Hyx].
  - exists info'. split; [done|]. apply elem_of_app. by left.
  - exists info. split; [done|]. apply elem_of_app. right. by apply Hrev.
Qed.

Lemma related_sym x y : related r x y → related r y x.
Proof. unfold related. tauto. Qed.

Lemma connected_sym x y : connected r x y → connected r y x.
Proof.
  unfold connected. induction 1 as [|x y z Hxy _ IH]; [done|].
  eapply rtc_r; [done|]. by apply related_sym.
Qed.

Lemma pushed_connected x y :
  reversed r → rtc (pushed r) x y → connected r x y.
Proof.
  intros Hrev. induction 1 as [|x y z Hxy _ IH]; [done|].
  eapply rtc_l; [|done]. by apply pushed_related.
Qed.

Lemma connected_pushed x y :
  reversed r →
  (∀ z, connected r x z → is_Some (sources r !! z)) →
  connected r x y → rtc (pushed r) x y.
Proof.
  intros Hrev Hreg Hxy. revert y Hxy Hreg. apply (rtc_ind_r (λ y, _ → _)).
  - done.
  - intros y z Hxy Hyz IH Hreg.
    eapply rtc_r; [by apply IH|].
    apply related_pushed; [done| |done]. by apply Hreg.
Qed.

End Groups.

(** [_groupSourceIds] over a registry whose reverse map is the reverse of
    the generated edges, for ids that are connected to registered sources
    only. *)
Lemma groupSourceIds_partition (r : Registry.t)
    (ids : list SourceId) :
  reversed r →
  (∀ x y, x ∈ ids → connected r x y → is_Some (Registry.sources r !! y)) →
  ∃ groups,
    Registry._groupSourceIds r ids = Done groups
    ∧ (∀ x, x ∈ ids ↔ ∃ g, g ∈ groups ∧ x ∈ g)
    ∧ NoDup (concat groups)
    ∧ Forall (λ g, g ≠ []) groups
    ∧ (∀ x y, x ∈ ids → y ∈ ids →
         (∃ g, g ∈ groups ∧ x ∈ g ∧ y ∈ g) ↔ connected r x y).
Proof.
  intros Hrev Hreg.
  assert (Hclosed : ∀ x z, x ∈ ids → connected r x z →
                    ∀ y, connected r z y → is_Some (Registry.sources r !! y)).
  { intros x z Hx Hxz y Hzy. apply (Hreg x y Hx). by etrans. }
  destruct (groupLoop_partition r (S (length ids)) ids [])
    as (groups & Hrun & Hcover & Hnd & Hne & Hsame).
  - lia.
  - intros x y Hx Hxy. apply (Hreg x y Hx). by apply pushed_connected.
  - intros x y Hx Hxy. apply pushed_connected in Hxy; [|done].
    apply connected_pushed; [done| |by apply connected_sym].
    by apply (Hclosed x y).
  - exists groups. split; [exact Hrun|].
    split; [exact Hcover|]. split; [exact Hnd|]. split; [exact Hne|].
    intros x y Hx Hy. split.
    + intros Hg. apply pushed_connected; [done|]. by apply Hsame.
    + intros Hxy. apply Hsame; [done|done|].
      apply connected_pushed; [done| |done]. intros z. by apply Hreg.
Qed.

(** *** Registries built by the listener of [findSources] *)

Section Built.

Import Registry.

Lemma fold_ArrayMap_add (id : SourceId) (gens : list SourceId) :
  ∀ (m : gmap string (list SourceId)) g o,
    o ∈ default [] (fold_left (λ m g', ArrayMap_add m g' id) gens m !! g)
    ↔ o ∈ default [] (m !! g) ∨ (o = id ∧ g ∈ gens).
Proof.
  induction gens as [|g' gens IH]; intros m g o; simpl.
  - rewrite elem_of_nil. tauto.
  - rewrite IH. unfold ArrayMap_add. rewrite elem_of_cons.
    destruct (decide (g' = g)) as [->|Hne].
    + rewrite lookup_insert_eq. simpl. rewrite elem_of_app, list_elem_of_singleton.
      intuition auto.
    + rewrite lookup_insert_ne by done. intuition congruence.
Qed.

Lemma originalIdsOf_addSource r s g o :
  o ∈ originalIdsOf (addSource r s) g
  ↔ o ∈ originalIdsOf r g
    ∨ (o = ns_sourceId s ∧ g ∈ default [] (ns_generatedSourceIds s)).
Proof. unfold originalIdsOf, addSource. simpl. apply fold_ArrayMap_add. Qed.

Lemma generatedEdge_addSource r s o g :
  sources r !! ns_sourceId s = None →
  generatedEdge (addSource r s) o g
  ↔ generatedEdge r o g
    ∨ (o = ns_sourceId s ∧ g ∈ default [] (ns_generatedSourceIds s)).
Proof.
  intros Hfresh. unfold generatedEdge, addSource. simpl.
  destruct (decide (o = ns_sourceId s)) as [->|Hne].
  - rewrite lookup_insert_eq, Hfresh. split.
    + intros (info & [= <-] & Hg). by right.
    + intros [(info & [=] & _)|[_ Hg]]. eauto.
  - rewrite lookup_insert_ne by done. tauto.
Qed.

Lemma reversed_empty : reversed Registry.empty.
Proof.
  intros g o. unfold originalIdsOf, generatedEdge. simpl.
  rewrite !lookup_empty. simpl. rewrite elem_of_nil.
  split; [done|]. by intros (info & [=] & _).
Qed.

(** Registering a source under an id that is new keeps the reverse map
    the reverse of the edges. *)
Lemma reversed_addSource r s :
  sources r !! ns_sourceId s = None →
  reversed r → reversed (addSource r s).
Proof.
  intros Hfresh Hrev g o.
  rewrite originalIdsOf_addSource, generatedEdge_addSource by done.
  by rewrite (Hrev g o).
Qed.

Lemma complete_empty : complete Registry.empty.
Proof. intros o g (info & Ho & _). simpl in Ho. by rewrite lookup_empty in Ho. Qed.

Lemma complete_addSource r s :
  sources r !! ns_sourceId s = None →
  (∀ g, g ∈ default [] (ns_generatedSourceIds s) →
        is_Some (sources r !! g) ∨ g = ns_sourceId s) →
  complete r → complete (addSource r s).
Proof.
  intros Hfresh Hgens Hc o g Hedge.
  apply generatedEdge_addSource in Hedge; [|done].
  unfold addSource. simpl.
  destruct (decide (g = ns_sourceId s)) as [->|Hne].
  - rewrite lookup_insert_eq. eauto.
  - rewrite lookup_insert_ne by done.
    destruct Hedge as [Hedge|[-> Hg]]; [by eapply Hc|].
    destruct (Hgens g Hg); [done|congruence].
Qed.

(** In a complete registry only registered sources are connected to a
    registered source. *)
Lemma connected_registered r x y :
  complete r → is_Some (sources r !! x) → connected r x y →
  is_Some (sources r !! y).
Proof.
  intros Hc Hx Hxy. induction Hxy as [|x y z Hxy _ IH]; [done|].
  apply IH. destruct Hxy as [Hedge|(info & Hy & _)]; [by eapply Hc|eauto].
Qed.

End Built.

(** *** The result does not depend on the bound *)

Section Bound.

Import Registry.

Lemma alternatesLoop_agree r n : ∀ m rv worklist res,
  alternatesLoop n r rv worklist = Done res →
  alternatesLoop m r rv worklist ≠ OutOfFuel →
  alternatesLoop m r rv worklist = Done res.
Proof.
  induction n as [|n IH]; intros m rv worklist res; simpl; [done|].
  destruct m as [|m]; simpl; [done|].
  destruct (pop worklist) as [[rest x]|]; [|done].
  destruct (includes rv x); [apply IH|].
  destruct (sources r !! x); [apply IH|done].
Qed.

Lemma getAlternateSourceIds_total r id :
  _getAlternateSourceIds r id ≠ OutOfFuel.
Proof.
  apply alternatesLoop_terminates.
  unfold alternatesFuel, weight. simpl.
  rewrite Js_filter_all; [lia|done].
Qed.

Lemma getAlternateSourceIds_from r n id res :
  alternatesLoop n r [] [id] = Done res →
  _getAlternateSourceIds r id = Done res.
Proof.
  intros Hn. eapply alternatesLoop_agree; [done|].
  apply getAlternateSourceIds_total.
Qed.

End Bound.

(** *** The loop, one iteration at a time *)

Section Iterations.

Import Registry.

Variable r : Registry.t.

Lemma pop_snoc {T} (rest : list T) (x : T) : pop (rest ++ [x]) = Some (rest, x).
Proof.
  induction rest as [|y rest IH]; simpl; [done|]. by rewrite IH.
Qed.

Lemma alternatesLoop_skip n rv rest x :
  x ∈ rv →
  alternatesLoop (S n) r rv (rest ++ [x]) = alternatesLoop n r rv rest.
Proof.
  intros Hx. simpl. rewrite pop_snoc.
  by rewrite (proj2 (includes_true rv x) Hx).
Qed.

Lemma alternatesLoop_visit n rv rest x info :
  x ∉ rv → sources r !! x = Some info →
  alternatesLoop (S n) r rv (rest ++ [x])
  = alternatesLoop n r (rv ++ [x])
      (rest ++ generatedIdsOf info ++ originalIdsOf r x).
Proof.
  intros Hx Hinfo. simpl. rewrite pop_snoc.
  by rewrite (proj2 (includes_false rv x) Hx), Hinfo.
Qed.

End Iterations.

(** *** The example: an original, its generated source, and a third *)

Section Example.

Import Registry.

Variables (A X B : SourceId) (kA kX kB : SourceKind).
Hypotheses (HAX : A ≠ X) (HAB : A ≠ B) (HXB : X ≠ B).

Local Abbreviation r := (exampleRegistry A X B kA kX kB).

Lemma example_A : sources r !! A = Some (mkSource kA None (Some [X])).
Proof. unfold exampleRegistry, addSource. simpl. by simplify_map_eq. Qed.

Lemma example_X : sources r !! X = Some (mkSource kX None None).
Proof. unfold exampleRegistry, addSource. simpl. by simplify_map_eq. Qed.

Lemma example_B : sources r !! B = Some (mkSource kB None None).
Proof. unfold exampleRegistry, addSource. simpl. by simplify_map_eq. Qed.

Lemma example_originals_A : originalIdsOf r A = [].
Proof.
  unfold originalIdsOf, exampleRegistry, addSource, ArrayMap_add. simpl.
  by simplify_map_eq.
Qed.

Lemma example_originals_X : originalIdsOf r X = [A].
Proof.
  unfold originalIdsOf, exampleRegistry, addSource, ArrayMap_add. simpl.
  by simplify_map_eq.
Qed.

Lemma example_originals_B : originalIdsOf r B = [].
Proof.
  unfold originalIdsOf, exampleRegistry, addSource, ArrayMap_add. simpl.
  by simplify_map_eq.
Qed.

Lemma example_alternates_A : _getAlternateSourceIds r A = Done [A; X].
Proof.
  apply (getAlternateSourceIds_from r 4).
  etrans; [exact (alternatesLoop_visit r 3 [] [] A _ ltac:(set_solver) example_A)|].
  rewrite example_originals_A.
  etrans; [exact (alternatesLoop_visit r 2 [A] [] X _ ltac:(set_solver) example_X)|].
  rewrite example_originals_X.
  etrans; [exact (alternatesLoop_skip r 1 [A; X] [] A ltac:(set_solver))|].
  done.
Qed.

Lemma example_alternates_B : _getAlternateSourceIds r B = Done [B].
Proof.
  apply (getAlternateSourceIds_from r 2).
  etrans; [exact (alternatesLoop_visit r 1 [] [] B _ ltac:(set_solver) example_B)|].
  by rewrite example_originals_B.
Qed.

Lemma example_groups : _groupSourceIds r [A; X; B] = Done [[A; X]; [B]].
Proof.
  unfold _groupSourceIds. cbn [length groupLoop].
  rewrite example_alternates_A.
  assert (HiA : includes [A; X; B] A = true) by (apply includes_true; set_solver).
  assert (HiX : includes [A; X; B] X = true) by (apply includes_true; set_solver).
  assert (HgA : includes [A; X] A = true) by (apply includes_true; set_solver).
  assert (HgX : includes [A; X] X = true) by (apply includes_true; set_solver).
  assert (HgB : includes [A; X] B = false) by (apply includes_false; set_solver).
  cbn [Js.filter]. rewrite HiA, HiX. cbn [Js.filter]. rewrite HgA, HgX, HgB.
  cbn [Js.filter negb groupLoop app].
  rewrite example_alternates_B.
  assert (HbB : includes [B] B = true) by (apply includes_true; set_solver).
  cbn [Js.filter]. rewrite HbB. cbn [Js.filter negb]. rewrite HbB.
  done.
Qed.

Lemma example_reversed : reversed r.
Proof.
  unfold exampleRegistry.
  apply reversed_addSource; [simpl; by simplify_map_eq|].
  apply reversed_addSource; [simpl; by simplify_map_eq|].
  apply reversed_addSource; [done|]. apply reversed_empty.
Qed.

Lemma example_complete : complete r.
Proof.
  unfold exampleRegistry.
  apply complete_addSource; [simpl; by simplify_map_eq| |].
  { intros g Hg. by apply elem_of_nil in Hg. }
  apply complete_addSource; [simpl; by simplify_map_eq| |].
  { intros g Hg. simpl in Hg. apply list_elem_of_singleton in Hg as ->.
    left. simpl. rewrite lookup_insert_eq. eauto. }
  apply complete_addSource; [done| |apply complete_empty].
  intros g Hg. by apply elem_of_nil in Hg.
Qed.

End Example.

(** A registry in which [A] was registered with the generated source [X]
    and then again without it: the reverse map still holds the edge. *)
Lemma staleRegistry_unrelated : ¬ connected staleRegistry "X" "A".
Proof.
  assert (Hnone : ∀ x y, ¬ related staleRegistry x y).
  { assert (Hedge : ∀ o g, ¬ generatedEdge staleRegistry o g).
    { intros o g (info & Ho & Hg).
      unfold staleRegistry, Registry.addSource in Ho. simpl in Ho.
      destruct (decide (o = "A")) as [->|HA].
      - rewrite lookup_insert_eq in Ho. injection Ho as <-.
        by apply elem_of_nil in Hg.
      - rewrite lookup_insert_ne in Ho by done.
        rewrite lookup_insert_ne in Ho by done.
        destruct (decide (o = "X")) as [->|HX].
        + rewrite lookup_insert_eq in Ho. injection Ho as <-.
          by apply elem_of_nil in Hg.
        + rewrite lookup_insert_ne in Ho by done.
          by rewrite lookup_empty in Ho. }
    intros x y [H|H]; by apply Hedge in H. }
  intros Hc. inversion Hc as [|x y z Hxy _]; subst.
  by apply Hnone in Hxy.
Qed.

(** C7 as worded fails in two ways.  While the generated source of [A] is
    not registered, the assertion of [_getAlternateSourceIds] fails and no
    partition is returned; and when the reverse map holds an edge that no
    [generatedSourceIds] has, two ids that are not connected share a
    group. *)
Lemma groupSourceIds_outside_contract :
  (Registry.sources loadingRegistry !! "A"
   = Some (mkSource sourceMapped None (Some ["X"]))
   ∧ Registry.sources loadingRegistry !! "X" = None
   ∧ Registry._groupSourceIds loadingRegistry ["A"] = Failed)
  ∧ (¬ connected staleRegistry "X" "A"
     ∧ Registry._groupSourceIds staleRegistry ["X"; "A"] = Done [["X"; "A"]]).
Proof.
  split; [by vm_compute|].
  split; [apply staleRegistry_unrelated|by vm_compute].
Qed.

(** C7, amended: let the reverse map be the reverse of the
    [generatedSourceIds] edges and let every source connected to an id of
    the list be registered.  Then [_groupSourceIds] returns groups that
    partition the ids of the list (every id is in a group, no id occurs
    twice in the groups, every member of a group is an id of the list, no
    group is empty), and two ids of the list are in one group exactly when
    they are connected through generated edges followed in either
    direction.  In particular, for an original [A] of a generated [X] and
    an unrelated [B], the list [A, X, B] is grouped into [A, X] and [B]. *)
Theorem groupSourceIds_clusters_by_reachability :
  (∀ (r : Registry.t) (ids : list SourceId),
     reversed r →
     (∀ x y, x ∈ ids → connected r x y → is_Some (Registry.sources r !! y)) →
     ∃ groups,
       Registry._groupSourceIds r ids = Done groups
       ∧ (∀ x, x ∈ ids ↔ ∃ g, g ∈ groups ∧ x ∈ g)
       ∧ NoDup (concat groups)
       ∧ Forall (λ g, g ≠ []) groups
       ∧ (∀ x y, x ∈ ids → y ∈ ids →
            (∃ g, g ∈ groups ∧ x ∈ g ∧ y ∈ g) ↔ connected r x y))
  ∧ (∀ (A X B : SourceId) (kA kX kB : SourceKind),
       A ≠ X → A ≠ B → X ≠ B →
       let r := exampleRegistry A X B kA kX kB in
       generatedEdge r A X
       ∧ ¬ connected r A B
       ∧ Registry._groupSourceIds r [A; X; B] = Done [[A; X]; [B]]).
Proof.
  split; [exact groupSourceIds_partition|].
  intros A X B kA kX kB HAX HAB HXB. cbv zeta.
  set (r := exampleRegistry A X B kA kX kB).
  pose proof (example_groups A X B kA kX kB HAX HAB HXB) as Hgroups.
  fold r in Hgroups.
  split; [|split; [|exact Hgroups]].
  - exists (mkSource kA None (Some [X])).
    split; [by apply example_A|]. simpl. by left.
  - intros Hconn.
    destruct (groupSourceIds_partition r [A; X; B])
      as (groups & Hrun & _ & Hnd & _ & Hsame).
    { by apply example_reversed. }
    { intros x y Hx. apply connected_registered; [by apply example_complete|].
      assert (Hcases : x = A ∨ x = X ∨ x = B) by set_solver.
      subst r.
      destruct Hcases as [->|[->| ->]];
        [rewrite example_A|rewrite example_X|rewrite example_B]; eauto. }
    rewrite Hgroups in Hrun. injection Hrun as <-.
    destruct (proj2 (Hsame A B ltac:(set_solver) ltac:(set_solver)) Hconn)
      as (g & Hg & HA & HB).
    apply elem_of_cons in Hg as [->|Hg].
    + apply elem_of_cons in HB as [?|HB]; [congruence|].
      apply list_elem_of_singleton in HB. congruence.
    + apply list_elem_of_singleton in Hg as ->.
      apply list_elem_of_singleton in HA. congruence.
Qed.

Lemma groupSourceIds_clusters_by_reachability_witness :
  Registry._groupSourceIds (exampleRegistry "A" "X" "B" sourceMapped scriptSource other)
    ["A"; "X"; "B"]
  = Done [["A"; "X"]; ["B"]]
  ∧ ∃ groups,
      Registry._groupSourceIds
        (exampleRegistry "A" "X" "B" sourceMapped scriptSource other)
        ["B"; "X"; "A"]
      = Done groups
      ∧ NoDup (concat groups).
Proof.
  destruct groupSourceIds_clusters_by_reachability as [Hgeneral Hexample].
  split.
  - apply (Hexample "A" "X" "B" sourceMapped scriptSource other); discriminate.
  - destruct (Hgeneral
                (exampleRegistry "A" "X" "B" sourceMapped scriptSource other)
                ["B"; "X"; "A"])
      as (groups & Hrun & _ & Hnd & _).
    + apply example_reversed; discriminate.
    + intros x y Hx.
      apply connected_registered; [apply example_complete; discriminate|].
      assert (Hcases : x = "B" ∨ x = "X" ∨ x = "A") by set_solver.
      destruct Hcases as [->|[->| ->]]; vm_compute; eauto.
    + exists groups. split; [exact Hrun|exact Hnd].
Defined.

(** ** One resume operation among everything else *)

Lemma Js_filter_app {A} (p : A → bool) (xs ys : list A) :
  Js.filter p (xs ++ ys) = Js.filter p xs ++ Js.filter p ys.
Proof.
  induction xs as [|x xs IH]; simpl; [done|].
  destruct (p x); simpl; by rewrite IH.
Qed.

Lemma Js_filter_delete_other {A} (p : A → bool) (xs : list A) (i : nat) (x : A) :
  xs !! i = Some x → p x = false →
  Js.filter p (delete i xs) = Js.filter p xs.
Proof.
  revert i. induction xs as [|y xs IH]; intros [|i]; simpl; try done.
  - by intros [= ->] ->.
  - intros Hi Hp. by rewrite (IH i Hi Hp).
Qed.

Lemma Js_filter_delete_only {A} (p : A → bool) (xs : list A) (i : nat) (x y : A) :
  xs !! i = Some x → p x = true → Js.filter p xs = [y] →
  x = y ∧ Js.filter p (delete i xs) = [].
Proof.
  revert i. induction xs as [|z xs IH]; intros [|i]; simpl; try done.
  - intros [= ->] ->. by intros [= -> ->].
  - intros Hi Hp. destruct (p z) eqn:Hz.
    + intros [= -> Hnil]. exfalso.
      assert (Hin : x ∈ Js.filter p xs).
      { apply elem_of_Js_filter. split; [done|]. by eapply list_elem_of_lookup_2. }
      rewrite Hnil in Hin. by apply elem_of_nil in Hin.
    + intros Hxs. by apply (IH i).
Qed.

Lemma Js_filter_lookup {A} (p : A → bool) (xs : list A) (i : nat) (x : A) :
  xs !! i = Some x → p x = true → x ∈ Js.filter p xs.
Proof.
  intros Hi Hp. apply elem_of_Js_filter. split; [done|].
  by eapply list_elem_of_lookup_2.
Qed.

Section Ownership.

(** The activation of [_resumeOperation] that is followed. *)
Variable a : nat.

Lemma same_refl w : same a w w.
Proof. by unfold same. Qed.

Lemma same_trans w1 w2 w3 : same a w1 w2 → same a w2 w3 → same a w1 w3.
Proof.
  unfold same. intros (-> & ? & -> & -> & ->) (-> & ? & -> & -> & ->).
  repeat split; try done. lia.
Qed.

Lemma same_set_front w f : same a w (set_front w f).
Proof. by unfold same. Qed.

Lemma same_emit w e : same a w (emit w e).
Proof. by unfold same. Qed.

Lemma same_send w r : ownsRequest a r = false → same a w (send w r).
Proof.
  intros Hr. unfold same, requestsOf, send. simpl.
  rewrite Js_filter_app. simpl. rewrite Hr. by rewrite app_nil_r.
Qed.

Lemma same_enqueue w j : ownsJob a j = false → same a w (enqueue w j).
Proof.
  intros Hj. unfold same, jobsOf, enqueue. simpl.
  rewrite Js_filter_app. simpl. rewrite Hj. by rewrite app_nil_r.
Qed.

Lemma same_await w point command awaiting :
  ownsAwaiting a awaiting = false →
  same a w (awaitFindResumeTarget w point command awaiting).
Proof.
  intros Hk. unfold awaitFindResumeTarget.
  destruct (_findResumeTarget_begin _ _ _).
  - by apply same_enqueue.
  - by apply same_send.
  - apply same_refl.
Qed.

Lemma same_forEach_await {A} (commands : list A)
    (point : A → ExecutionPoint) (command : A → FindTargetCommand)
    (awaiting : A → Awaiting) :
  (∀ c, ownsAwaiting a (awaiting c) = false) →
  ∀ w,
    same a w
      (fold_left
         (λ w c, awaitFindResumeTarget w (point c) (command c) (awaiting c))
         commands w).
Proof.
  intros Hk. induction commands as [|c commands IH]; intros w; simpl.
  - apply same_refl.
  - eapply same_trans; [|apply IH]. by apply same_await.
Qed.

Lemma same_precache w : same a w (_precacheResumeTargets w).
Proof.
  unfold _precacheResumeTargets. destruct (negb _); [apply same_refl|].
  by apply (same_forEach_await stepCommands (λ _, currentPoint (front w)) fst
              (λ step, InPrecache (currentPoint (front w))
                         (resumeTargetEpoch (front w)) step.2)).
Qed.

Lemma same_timeWarp w point time hasFrames force :
  same a w (timeWarp w point time hasFrames force).
Proof.
  unfold timeWarp. eapply same_trans; [|apply same_precache]. by unfold same.
Qed.

Lemma same_timeWarpToPause w pause :
  same a w (orUnchanged w (timeWarpToPause w pause)).
Proof.
  unfold timeWarpToPause. destruct (negb _); simpl; [apply same_refl|].
  eapply same_trans; [|apply same_precache]. by unfold same.
Qed.

Lemma same_invalidate w callback : same a w (_invalidateResumeTargets w callback).
Proof.
  unfold _invalidateResumeTargets, callback_begin.
  destruct (truthy_opt_string _).
  - eapply same_trans; [apply same_set_front|]. by apply same_send.
  - eapply same_trans; [apply same_set_front|]. by apply same_enqueue.
Qed.

Lemma same_removeBreakpoint w sourceId line column :
  same a w (removeBreakpoint w sourceId line column).
Proof.
  unfold removeBreakpoint.
  generalize (breakpoints (front w)) as entries. intros entries. revert w.
  induction entries as [|entry entries IH]; intros w; simpl.
  - apply same_refl.
  - destruct (sameLocation _ _ _ _); [|apply IH].
    eapply same_trans; [|apply IH].
    eapply same_trans; [apply same_set_front|apply same_invalidate].
Qed.

Lemma same_finally w : same a w (_invalidateResumeTargets_finally w).
Proof.
  unfold _invalidateResumeTargets_finally. destruct (bool_decide _).
  - eapply same_trans; [|apply same_precache]. by unfold same.
  - apply same_set_front.
Qed.

Lemma same_ensurePause w point time w' pause :
  ensurePause w point time = Returned (w', pause) → same a w w'.
Proof.
  unfold ensurePause. destruct (negb _); [done|].
  destruct (allPauses (front w) !! point); intros [= <- <-]; by unfold same.
Qed.

Lemma same_ensurePause_ w point time w' :
  ensurePause_ w point time = Some w' → same a w w'.
Proof.
  unfold ensurePause_.
  destruct (ensurePause w point time) as [[w'' pause]|] eqn:He; [|done].
  intros [= <-]. by eapply same_ensurePause.
Qed.

Lemma same_ensureCurrentPause w :
  same a w (orUnchanged w (ensureCurrentPause w)).
Proof.
  unfold ensureCurrentPause.
  destruct (currentPause (front w)); simpl; [apply same_refl|].
  destruct (ensurePause w _ _) as [[w1 pause]|] eqn:He; simpl;
    [|apply same_refl].
  eapply same_trans; [by eapply same_ensurePause|]. by unfold same.
Qed.

Lemma same_getFrames w :
  same a w
    (orUnchanged w
       (match getFrames w with
        | Returned (w', _) => Returned w'
        | AssertionFailed => AssertionFailed
        end)).
Proof.
  unfold getFrames. destruct (negb _); simpl; [apply same_refl|].
  unfold ensureCurrentPause.
  destruct (currentPause (front w)) eqn:Hcur; simpl.
  - rewrite Hcur. apply same_refl.
  - destruct (ensurePause w _ _) as [[w1 pause]|] eqn:He; simpl;
      [|apply same_refl].
    eapply same_trans; [by eapply same_ensurePause|]. by unfold same.
Qed.

Lemma same_precache_found w point epoch transitive target :
  same a w (precache_found w point epoch transitive target).
Proof.
  unfold precache_found. destruct (_ || _); [apply same_refl|].
  destruct (ensurePause_ w _ _) as [w1|] eqn:He; [|apply same_refl].
  apply same_ensurePause_ in He.
  destruct (negb _); [done|].
  eapply same_trans; [done|].
  by apply (same_forEach_await transitive (λ _, pd_point target) id
              (λ _, InTransitive point epoch)).
Qed.

Lemma same_transitive_found w point epoch target :
  same a w (transitive_found w point epoch target).
Proof.
  unfold transitive_found. destruct (_ || _); [apply same_refl|].
  destruct (ensurePause_ w _ _) as [w1|] eqn:He; simpl; [|apply same_refl].
  by apply same_ensurePause_ in He.
Qed.

End Ownership.

Section Foreign.

Variable a : nat.

Lemma same_warpToTarget w a' : same a w (warpToTarget w a').
Proof.
  unfold warpToTarget.
  destruct (activations w !! a') as [[? [target|]]|]; try apply same_refl.
  apply same_timeWarp.
Qed.

Lemma same_emitResumed w a' : a' ≠ a → same a w (emitResumed w a').
Proof.
  intros Hne. unfold emitResumed.
  destruct (activations w !! a') as [locals|]; [|apply same_refl].
  assert (Hfirst :
            same a w
              (emit
                 (set_activations w
                    (<[a' := mkResumeLocals true (resumeTarget locals)]>
                       (activations w)))
                 Resumed)).
  { unfold same. simpl. rewrite list_lookup_insert_ne by done.
    rewrite length_insert. done. }
  destruct (bool_decide _); [|done].
  eapply same_trans; [done|].
  unfold same, timersOf, setTimeout. simpl. rewrite Js_filter_app. simpl.
  rewrite bool_decide_eq_false_2 by done. by rewrite app_nil_r.
Qed.

Lemma same_resumeOperation_found w a' target :
  a' ≠ a → same a w (_resumeOperation_found w a' target).
Proof.
  intros Hne. unfold _resumeOperation_found.
  destruct (activations w !! a') as [locals|]; [|apply same_refl].
  assert (Hfirst :
            same a w
              (set_activations w
                 (<[a' := mkResumeLocals (resumeEmitted locals) (Some target)]>
                    (activations w)))).
  { unfold same. simpl. rewrite list_lookup_insert_ne by done.
    rewrite length_insert. done. }
  destruct (resumeEmitted locals); [|done].
  eapply same_trans; [done|apply same_warpToTarget].
Qed.

Lemma same_resumeOperation_start w command selectedPoint :
  a ≠ length (activations w) →
  same a w (_resumeOperation_start w command selectedPoint).
Proof.
  intros Hne. unfold _resumeOperation_start.
  eapply same_trans; [|apply same_await].
  - unfold same, timersOf. simpl. rewrite Js_filter_app. simpl.
    rewrite bool_decide_eq_false_2 by done. rewrite app_nil_r, length_app.
    repeat split; try done; [|simpl; lia].
    destruct (decide (a < length (activations w))%nat).
    + by rewrite lookup_app_l.
    + rewrite !lookup_ge_None_2; [done|lia|rewrite length_app; simpl; lia].
  - simpl. by rewrite bool_decide_eq_false_2.
Qed.

(** A turn that runs no task of the activation, and does not start it,
    changes nothing for it. *)
Lemma step_foreign w act w' :
  step w act = Some w' →
  runsOwn a w act = false →
  (startsOperation w act = true → a ≠ length (activations w)) →
  same a w w'.
Proof.
  destruct act; simpl; try (intros [= <-] _ _).
  - apply same_timeWarp.
  - apply same_timeWarpToPause.
  - apply same_invalidate.
  - apply same_removeBreakpoint.
  - apply same_invalidate.
  - apply same_invalidate.
  - by apply same_enqueue.
  - by apply same_enqueue.
  - unfold waitForInvalidateCommandsToFinish.
    destruct (bool_decide _); by unfold same.
  - apply same_getFrames.
  - apply same_ensureCurrentPause.
  - apply same_set_front.
  - destruct (Registry.preferSource _ _ _); simpl; by unfold same.
  - apply same_set_front.
  - apply same_set_front.
  - by unfold same.
  - destruct (inflight w !! i) as [r|] eqn:Hi; [|done]. simpl.
    intros Hdeliver Hforeign _.
    assert (Hdel : same a w (set_inflight w (delete i (inflight w)))).
    { unfold same, requestsOf. simpl.
      by rewrite (Js_filter_delete_other _ _ i r Hi Hforeign). }
    eapply same_trans; [exact Hdel|].
    destruct r as [command point key epoch awaiting|callback]; simpl in *.
    + destruct reply as [target| | |]; try done.
      * injection Hdeliver as <-.
        eapply same_trans; [apply same_set_front|]. by apply same_enqueue.
      * injection Hdeliver as <-. apply same_refl.
    + unfold callback_resume in Hdeliver.
      destruct reply as [target|breakpointId| |]; destruct callback;
        try done; injection Hdeliver as <-;
        try (by apply same_enqueue).
      eapply same_trans; [|by apply same_enqueue].
      destruct (truthy_opt_string _); [apply same_set_front|apply same_refl].
  - destruct (jobs w !! i) as [j|] eqn:Hi; [|done]. simpl.
    intros Hrun Hforeign Hstart.
    assert (Hdel : same a w (set_jobs w (delete i (jobs w)))).
    { unfold same, jobsOf. simpl.
      by rewrite (Js_filter_delete_other _ _ i j Hi Hforeign). }
    eapply same_trans; [exact Hdel|].
    destruct j as [[a'|point epoch transitive|point epoch|] target
                  |outcome|command selectedPoint|point]; simpl in *.
    + injection Hrun as <-. apply same_resumeOperation_found.
      by apply bool_decide_eq_false in Hforeign.
    + injection Hrun as <-. apply same_precache_found.
    + injection Hrun as <-. apply same_transitive_found.
    + injection Hrun as <-. apply same_refl.
    + injection Hrun as <-. apply same_finally.
    + destruct (initialized w); [|done]. injection Hrun as <-.
      apply same_resumeOperation_start. simpl. by apply Hstart.
    + destruct (initialized w); [|done]. injection Hrun as <-.
      by apply same_await.
  - destruct (timers w !! i) as [t|] eqn:Hi; [|done]. simpl.
    intros [= <-] Hforeign _.
    assert (Hdel : same a w (set_timers w (delete i (timers w)))).
    { unfold same, timersOf. simpl.
      by rewrite (Js_filter_delete_other _ _ i t Hi Hforeign). }
    eapply same_trans; [exact Hdel|].
    destruct t as [a'|a']; simpl in *.
    + apply same_emitResumed. by apply bool_decide_eq_false in Hforeign.
    + apply same_warpToTarget.
Qed.

End Foreign.

Section Phases.

Variable a : nat.

Lemma phase_same w w' evs : same a w w' → phase a w evs → phase a w' evs.
Proof.
  intros (Hact & _ & Ht & Hr & Hj) Hphase.
  destruct Hphase;
    [apply Waiting|eapply TargetFirst|apply ResumedFirst|eapply WarpScheduled
    |eapply BothEmitted];
    unfold atMostOneLookup, noLookup in *; rewrite ?Hact, ?Ht, ?Hr, ?Hj; eauto.
Qed.

(** [timeWarp] emits one "paused" and is none of the activation's
    business otherwise. *)
Lemma timeWarp_emits w point time hasFrames force :
  ∃ args emission,
    emitted (timeWarp w point time hasFrames force)
    = emitted w ++ [emission]
    ∧ event emission = Paused args.
Proof.
  destruct (timeWarp_one w (mkWarpCall point time hasFrames force))
    as (p & t & h & _ & _ & _ & _ & _ & _ & Hev).
  unfold timeWarpCall in Hev. simpl in Hev. rewrite Hev. eauto.
Qed.

Lemma new_events_none (w w' : World) :
  emitted w' = emitted w →
  event <$> drop (length (emitted w)) (emitted w') = [].
Proof. intros ->. by rewrite drop_all. Qed.

Lemma new_events_one (w w' : World) (e : Emission) :
  emitted w' = emitted w ++ [e] →
  event <$> drop (length (emitted w)) (emitted w') = [event e].
Proof. intros ->. by rewrite drop_app_length. Qed.

(** The first timer of the activation fires. *)
Lemma phase_emitResumed w i evs :
  timers w !! i = Some (EmitResumed a) →
  phase a w evs →
  let w' := emitResumed (set_timers w (delete i (timers w))) a in
  phase a w' (evs ++ (event <$> drop (length (emitted w)) (emitted w'))).
Proof.
  intros Hi Hphase.
  assert (Hown : ownsTimer a (EmitResumed a) = true)
    by (simpl; by apply bool_decide_eq_true).
  assert (Hin := Js_filter_lookup _ _ _ _ Hi Hown).
  fold (timersOf a w) in Hin.
  destruct Hphase as [Hact Ht Hl|target Hact Ht Hl|Hact Ht Hl|target Hact Ht Hl
                     |target args Hact Ht Hl];
    rewrite Ht in Hin;
    try (by apply elem_of_nil in Hin);
    try (by apply list_elem_of_singleton in Hin).
  - destruct (Js_filter_delete_only _ _ _ _ _ Hi Hown Ht) as [_ Hdel].
    unfold emitResumed. simpl. rewrite Hact. simpl.
    rewrite drop_app_length. simpl.
    apply ResumedFirst; simpl.
    + apply list_lookup_insert_eq. by eapply lookup_lt_Some.
    + exact Hdel.
    + exact Hl.
  - destruct (Js_filter_delete_only _ _ _ _ _ Hi Hown Ht) as [_ Hdel].
    unfold emitResumed. simpl. rewrite Hact. simpl.
    rewrite drop_app_length. simpl.
    eapply WarpScheduled; simpl.
    + apply list_lookup_insert_eq. by eapply lookup_lt_Some.
    + unfold timersOf. simpl. rewrite Js_filter_app.
      unfold timersOf in Hdel. simpl in Hdel. rewrite Hdel. simpl.
      by rewrite bool_decide_eq_true_2.
    + exact Hl.
Qed.

(** [warpToTarget] of the activation, once "resumed" is out and the
    target is known. *)
Lemma phase_warpToTarget w w0 target :
  emitted w = emitted w0 →
  activations w !! a = Some (mkResumeLocals true (Some target)) →
  timersOf a w = [] →
  noLookup a w →
  let w' := warpToTarget w a in
  phase a w' ([Resumed] ++ (event <$> drop (length (emitted w0)) (emitted w'))).
Proof.
  intros Hem Hact Ht Hl. simpl.
  pose proof (same_warpToTarget a w a) as Hsame.
  unfold warpToTarget in *. rewrite Hact in *.
  destruct (timeWarp_emits w (pd_point target) (pd_time target)
              (Some (bool_decide (is_Some (pd_frame target)))) None)
    as (args & emission & Hev & Hpaused).
  rewrite Hev, Hem, drop_app_length. simpl. rewrite Hpaused.
  apply (phase_same w); [done|].
  by eapply BothEmitted.
Qed.

(** The second timer of the activation fires. *)
Lemma phase_warpTimer w i evs :
  timers w !! i = Some (WarpToTarget a) →
  phase a w evs →
  let w' := warpToTarget (set_timers w (delete i (timers w))) a in
  phase a w' (evs ++ (event <$> drop (length (emitted w)) (emitted w'))).
Proof.
  intros Hi Hphase.
  assert (Hown : ownsTimer a (WarpToTarget a) = true)
    by (simpl; by apply bool_decide_eq_true).
  assert (Hin := Js_filter_lookup _ _ _ _ Hi Hown).
  fold (timersOf a w) in Hin.
  destruct Hphase as [Hact Ht Hl|target Hact Ht Hl|Hact Ht Hl|target Hact Ht Hl
                     |target args Hact Ht Hl];
    rewrite Ht in Hin;
    try (by apply elem_of_nil in Hin);
    try (by apply list_elem_of_singleton in Hin).
  destruct (Js_filter_delete_only _ _ _ _ _ Hi Hown Ht) as [_ Hdel].
  by apply (phase_warpToTarget _ w target).
Qed.

(** The caller of the lookup goes on with the target. *)
Lemma phase_found w i target evs :
  jobs w !! i = Some (AfterFind (InResumeOperation a) target) →
  phase a w evs →
  let w' := _resumeOperation_found (set_jobs w (delete i (jobs w))) a target in
  phase a w' (evs ++ (event <$> drop (length (emitted w)) (emitted w'))).
Proof.
  intros Hi Hphase.
  assert (Hown : ownsJob a (AfterFind (InResumeOperation a) target) = true)
    by (simpl; by apply bool_decide_eq_true).
  assert (Hin := Js_filter_lookup _ _ _ _ Hi Hown).
  fold (jobsOf a w) in Hin.
  assert (Hone : ∀ (P : Prop),
            atMostOneLookup a w →
            (requestsOf a w = [] →
             jobsOf a (set_jobs w (delete i (jobs w))) = [] → P) → P).
  { intros P [[_ Hj]|[(r & _ & Hj)|(j & Hr & Hj)]] HP;
      try (rewrite Hj in Hin; by apply elem_of_nil in Hin).
    destruct (Js_filter_delete_only _ _ _ _ _ Hi Hown Hj) as [_ Hdel].
    by apply HP. }
  destruct Hphase as [Hact Ht Hl|target' Hact Ht [_ Hl]|Hact Ht Hl
                     |target' Hact Ht [_ Hl]|target' args Hact Ht [_ Hl]];
    try (rewrite Hl in Hin; by apply elem_of_nil in Hin).
  - apply (Hone _ Hl). intros Hr Hj.
    unfold _resumeOperation_found. simpl. rewrite Hact. simpl.
    rewrite drop_all. simpl.
    eapply TargetFirst; simpl.
    + apply list_lookup_insert_eq. by eapply lookup_lt_Some.
    + exact Ht.
    + by split.
  - apply (Hone _ Hl). intros Hr Hj.
    unfold _resumeOperation_found. simpl. rewrite Hact. simpl.
    apply (phase_warpToTarget _ w target); simpl.
    + done.
    + apply list_lookup_insert_eq. by eapply lookup_lt_Some.
    + exact Ht.
    + by split.
Qed.

(** The reply to the lookup of the activation arrives. *)
Lemma phase_deliver w i command point key epoch reply w' evs :
  inflight w !! i
  = Some (FindTarget command point key epoch (InResumeOperation a)) →
  deliver (set_inflight w (delete i (inflight w)))
    (FindTarget command point key epoch (InResumeOperation a)) reply
  = Some w' →
  phase a w evs →
  phase a w' (evs ++ (event <$> drop (length (emitted w)) (emitted w'))).
Proof.
  intros Hi Hdeliver Hphase.
  assert (Hown : ownsRequest a
                   (FindTarget command point key epoch (InResumeOperation a))
                 = true)
    by (simpl; by apply bool_decide_eq_true).
  assert (Hin := Js_filter_lookup _ _ _ _ Hi Hown).
  fold (requestsOf a w) in Hin.
  assert (Hafter : emitted w' = emitted w ∧ activations w' = activations w
                   ∧ timersOf a w' = timersOf a w
                   ∧ (atMostOneLookup a w → atMostOneLookup a w')).
  { simpl in Hdeliver.
    destruct reply as [target| | |]; try done; injection Hdeliver as <-;
      (repeat split; [done..|]);
      intros [[Hr _]|[(r & Hr & Hj)|(j & Hr & _)]];
      try (rewrite Hr in Hin; by apply elem_of_nil in Hin);
      destruct (Js_filter_delete_only _ _ _ _ _ Hi Hown Hr) as [_ Hdel].
    - right. right. eexists. unfold requestsOf, jobsOf in *. simpl.
      rewrite Js_filter_app, Hj. simpl.
      rewrite bool_decide_eq_true_2 by done. done.
    - left. by split. }
  destruct Hafter as (Hem & Hact & Ht & Hlookups).
  rewrite (new_events_none w w' Hem), app_nil_r.
  destruct Hphase as [Hact' Ht' Hl|target' Hact' Ht' [Hl _]|Hact' Ht' Hl
                     |target' Hact' Ht' [Hl _]|target' args Hact' Ht' [Hl _]];
    try (rewrite Hl in Hin; by apply elem_of_nil in Hin).
  - apply Waiting; [by rewrite Hact|by rewrite Ht|auto].
  - apply ResumedFirst; [by rewrite Hact|by rewrite Ht|auto].
Qed.

(** Every turn keeps the activation in a phase, and adds to its events
    what the turn emits for it. *)
Lemma phase_step w act w' evs :
  step w act = Some w' →
  phase a w evs →
  phase a w' (evs ++ emittedBy a w act w').
Proof.
  intros Hstep Hphase. unfold emittedBy.
  destruct (runsOwn a w act) eqn:Hown.
  - destruct act; simpl in Hown; try done; simpl in Hstep.
    + destruct (inflight w !! i) as [r|] eqn:Hi; [|done]. simpl in Hown.
      destruct r as [command point key epoch [a'| | |]|]; try done.
      simpl in Hown. apply bool_decide_eq_true in Hown as ->.
      by eapply phase_deliver.
    + destruct (jobs w !! i) as [j|] eqn:Hi; [|done]. simpl in Hown.
      destruct j as [[a'| | |] target| | |]; try done.
      simpl in Hown. apply bool_decide_eq_true in Hown as ->.
      simpl in Hstep. injection Hstep as <-. by apply phase_found.
    + destruct (timers w !! i) as [t|] eqn:Hi; [|done]. simpl in Hown.
      injection Hstep as <-.
      destruct t as [a'|a']; simpl in Hown;
        apply bool_decide_eq_true in Hown as ->; simpl.
      * by apply phase_emitResumed.
      * by apply phase_warpTimer.
  - rewrite app_nil_r. eapply phase_same; [|done].
    apply (step_foreign a w act w' Hstep Hown).
    intros _ Heq.
    assert (is_Some (activations w !! a)) as Hsome
      by (destruct Hphase; eauto).
    apply lookup_lt_is_Some in Hsome. lia.
Qed.

Lemma phase_run actions : ∀ w w' evs,
  run w actions = Some w' →
  phase a w evs →
  phase a w' (evs ++ eventsOf a w actions).
Proof.
  induction actions as [|act actions IH]; intros w w' evs; simpl.
  - intros [= <-]. by rewrite app_nil_r.
  - destruct (step w act) as [w1|] eqn:Hstep; [|done].
    intros Hrun Hphase. rewrite app_assoc.
    apply (IH w1 w'); [done|]. by apply phase_step.
Qed.

End Phases.

(** *** Worlds in which every task belongs to an activation that exists *)

Lemma wellFormed_initial : wellFormed initialWorld.
Proof. by intros a _. Qed.

Lemma quiet_foreign a w act :
  timersOf a w = [] → requestsOf a w = [] → jobsOf a w = [] →
  runsOwn a w act = false.
Proof.
  intros Ht Hr Hj.
  destruct (runsOwn a w act) eqn:Hown; [|done]. exfalso.
  destruct act; simpl in Hown; try done.
  - destruct (inflight w !! i) as [r|] eqn:Hi; [|done].
    pose proof (Js_filter_lookup _ _ _ _ Hi Hown) as Hin.
    fold (requestsOf a w) in Hin. rewrite Hr in Hin.
    by apply elem_of_nil in Hin.
  - destruct (jobs w !! i) as [j|] eqn:Hi; [|done].
    pose proof (Js_filter_lookup _ _ _ _ Hi Hown) as Hin.
    fold (jobsOf a w) in Hin. rewrite Hj in Hin.
    by apply elem_of_nil in Hin.
  - destruct (timers w !! i) as [t|] eqn:Hi; [|done].
    pose proof (Js_filter_lookup _ _ _ _ Hi Hown) as Hin.
    fold (timersOf a w) in Hin. rewrite Ht in Hin.
    by apply elem_of_nil in Hin.
Qed.

Lemma wellFormed_step w act w' :
  step w act = Some w' → wellFormed w → wellFormed w'.
Proof.
  intros Hstep Hwf.
  assert (Hmono : (length (activations w) ≤ length (activations w'))%nat).
  { destruct (Hwf (S (length (activations w)))) as (Ht & Hr & Hj); [lia|].
    destruct (step_foreign (S (length (activations w))) w act w' Hstep)
      as (_ & Hlen & _); [by apply quiet_foreign|lia|done]. }
  intros a Ha.
  destruct (Hwf a) as (Ht & Hr & Hj); [lia|].
  destruct (step_foreign a w act w' Hstep) as (_ & _ & Ht' & Hr' & Hj').
  - by apply quiet_foreign.
  - intros Hstart ->.
    destruct act; try done. simpl in Hstart, Hstep.
    destruct (jobs w !! i) as [[| |command selectedPoint|]|]; try done.
    simpl in Hstep. destruct (initialized w); [|done].
    injection Hstep as <-. unfold _resumeOperation_start in Ha.
    rewrite awaitFindResumeTarget_activations in Ha. simpl in Ha.
    rewrite length_app in Ha. simpl in Ha. lia.
  - by rewrite Ht', Hr', Hj'.
Qed.

Lemma wellFormed_run actions : ∀ w w',
  run w actions = Some w' → wellFormed w → wellFormed w'.
Proof.
  induction actions as [|act actions IH]; intros w w'; simpl.
  - by intros [= <-].
  - destruct (step w act) as [w1|] eqn:Hstep; [|done].
    intros Hrun Hwf. apply (IH w1); [done|]. by eapply wellFormed_step.
Qed.

(** Every world the coordinator can get into is well formed. *)
Lemma wellFormed_reachable actions w :
  run initialWorld actions = Some w → wellFormed w.
Proof. intros Hrun. eapply wellFormed_run; [done|apply wellFormed_initial]. Qed.

(** *** The operation from its start *)

(** The six methods differ by the command only. *)
Lemma resumeFamily_methods w point :
  rewind w point = resumeFamily w findRewindTarget point
  ∧ resume w point = resumeFamily w findResumeTarget point
  ∧ reverseStepOver w point = resumeFamily w findReverseStepOverTarget point
  ∧ stepOver w point = resumeFamily w findStepOverTarget point
  ∧ stepIn w point = resumeFamily w findStepInTarget point
  ∧ stepOut w point = resumeFamily w findStepOutTarget point.
Proof. done. Qed.

Lemma resumeOperation_start_phase w0 i command selectedPoint :
  wellFormed w0 →
  jobs w0 !! i = Some (StartResumeOperation command selectedPoint) →
  phase (length (activations w0))
    (_resumeOperation_start (set_jobs w0 (delete i (jobs w0))) command
       selectedPoint)
    [].
Proof.
  intros Hwf Hi. set (a := length (activations w0)).
  destruct (Hwf a) as (Ht & Hr & Hj); [done|].
  assert (Hj' : Js.filter (ownsJob a) (delete i (jobs w0)) = []).
  { by rewrite (Js_filter_delete_other _ _ i _ Hi). }
  unfold _resumeOperation_start. simpl. fold a.
  apply Waiting.
  - rewrite awaitFindResumeTarget_activations. simpl. apply lookup_snoc.
  - unfold timersOf. rewrite awaitFindResumeTarget_timers. simpl.
    rewrite Js_filter_app. unfold timersOf in Ht. rewrite Ht. simpl.
    by rewrite bool_decide_eq_true_2.
  - unfold atMostOneLookup, noLookup, requestsOf, jobsOf, awaitFindResumeTarget.
    unfold requestsOf in Hr.
    destruct (_findResumeTarget_begin _ _ _) as [known|key epoch|]; simpl.
    + right. right. eexists. rewrite Js_filter_app, Hj'. simpl.
      rewrite bool_decide_eq_true_2 by done. done.
    + right. left. eexists. rewrite Js_filter_app, Hr. simpl.
      rewrite bool_decide_eq_true_2 by done. done.
    + left. done.
Qed.

(** C2: a resume-family method queues the start of [_resumeOperation] for
    its command.  From that start on, whatever else happens and in
    whatever order the timers fire and the replies arrive, the events the
    operation emits are, in this order, nothing yet, or "resumed", or
    "resumed" and then "paused": "paused" never comes first and "resumed"
    comes once.  When "resumed" is out, the target is known and no warp is
    left to run, whichever of the two came first, both events are out. *)
Theorem resumed_precedes_paused (w0 : World) (i : nat)
    (command : FindTargetCommand) (selectedPoint : ExecutionPoint) :
  wellFormed w0 →
  initialized w0 = true →
  jobs w0 !! i = Some (StartResumeOperation command selectedPoint) →
  let a := length (activations w0) in
  jobs (resumeFamily w0 command selectedPoint) !! length (jobs w0)
  = Some (StartResumeOperation command selectedPoint)
  ∧ ∃ w1,
      step w0 (RunJob i) = Some w1
      ∧ ∀ actions w2,
          run w1 actions = Some w2 →
          let events := eventsOf a w1 actions in
          (events = [] ∨ events = [Resumed]
           ∨ ∃ args, events = [Resumed; Paused args])
          ∧ (∀ target,
               activations w2 !! a = Some (mkResumeLocals true (Some target)) →
               timersOf a w2 = [] →
               ∃ args, events = [Resumed; Paused args]).
Proof.
  intros Hwf Hinit Hi a. split.
  { unfold resumeFamily, enqueue. simpl. apply lookup_snoc. }
  eexists. split.
  { simpl. rewrite Hi. simpl. rewrite Hinit. reflexivity. }
  intros actions w2 Hrun events.
  pose proof (phase_run a actions _ w2 [] Hrun
                (resumeOperation_start_phase w0 i command selectedPoint Hwf Hi))
    as Hphase.
  simpl in Hphase. fold events in Hphase.
  split.
  - destruct Hphase; eauto.
  - intros target Hact Ht.
    destruct Hphase as [Hact' _ _|t Hact' _ _|Hact' _ _|t _ Ht' _|t args _ _ _];
      try congruence; eauto.
Qed.

Lemma resumed_precedes_paused_witness :
  wellFormed steppingWorld
  ∧ ∃ w1,
      step steppingWorld (RunJob 0) = Some w1
      ∧ eventsOf 0 w1 replyThenTick
        = [Resumed; Paused (mkPauseEventArgs "20" 200 (Some true))]
      ∧ eventsOf 0 w1 tickThenReply
        = [Resumed; Paused (mkPauseEventArgs "20" 200 (Some true))].
Proof.
  assert (Hwf : wellFormed steppingWorld) by (by intros a _).
  split; [exact Hwf|].
  destruct (resumed_precedes_paused steppingWorld 0 findStepOverTarget "10" Hwf
              eq_refl eq_refl)
    as (_ & w1 & Hstep & _).
  exists w1. split; [exact Hstep|].
  vm_compute in Hstep. injection Hstep as <-.
  split; vm_compute; reflexivity.
Defined.

(** * Further properties *)

(** ** Sources by URL *)

Section ByURL.

Import Registry.

Lemma idsOfURL_addSource r s u :
  idsOfURL (addSource r s) u
  = if truthy_opt_string (ns_url s) && bool_decide (default "" (ns_url s) = u)
    then idsOfURL r u ++ [ns_sourceId s]
    else idsOfURL r u.
Proof.
  unfold idsOfURL, addSource. simpl.
  destruct (truthy_opt_string (ns_url s)); simpl; [|done].
  unfold ArrayMap_add.
  destruct (bool_decide_reflect (default "" (ns_url s) = u)) as [->|Hne].
  - by rewrite lookup_insert_eq.
  - by rewrite lookup_insert_ne.
Qed.

Lemma hasURL_addSource r s u id :
  sources r !! ns_sourceId s = None →
  hasURL (addSource r s) u id
  ↔ hasURL r u id ∨ (id = ns_sourceId s ∧ ns_url s = Some u).
Proof.
  intros Hfresh. unfold hasURL, addSource. simpl.
  destruct (decide (id = ns_sourceId s)) as [->|Hne].
  - rewrite lookup_insert_eq, Hfresh. split.
    + intros (info & [= <-] & Hu). by right.
    + intros [(info & [=] & _)|[_ Hu]]. eauto.
  - rewrite lookup_insert_ne by done. split; [by left|].
    intros [?|[? _]]; [done|congruence].
Qed.

(** Registering a source under an id that is new keeps the URL index
    exact. *)
Lemma indexed_addSource r s :
  sources r !! ns_sourceId s = None → indexed r → indexed (addSource r s).
Proof.
  intros Hfresh Hidx u id.
  rewrite idsOfURL_addSource, hasURL_addSource by done.
  destruct (truthy_opt_string (ns_url s)) eqn:Hurl; simpl.
  - apply truthy_opt_string_true in Hurl as (u0 & Hu0 & Hne).
    rewrite Hu0. simpl.
    destruct (bool_decide_reflect (u0 = u)) as [->|Hdiff].
    + rewrite elem_of_app, list_elem_of_singleton, (Hidx u id). naive_solver.
    + rewrite (Hidx u id). naive_solver.
  - rewrite (Hidx u id). split; [naive_solver|].
    intros [Hu [?|[-> Hs]]]; [done|].
    rewrite Hs in Hurl. simpl in Hurl.
    apply truthy_string_false in Hurl. done.
Qed.

Lemma indexed_empty : indexed Registry.empty.
Proof.
  intros u id. unfold idsOfURL, hasURL. simpl. rewrite !lookup_empty. simpl.
  rewrite elem_of_nil. split; [done|]. by intros (_ & info & [=] & _).
Qed.

Lemma sources_addSource_fresh r s id :
  id ≠ ns_sourceId s → sources (addSource r s) !! id = sources r !! id.
Proof. intros Hne. unfold addSource. simpl. by rewrite lookup_insert_ne. Qed.

(** What the listener builds from sources with different ids. *)
Lemma registryOf_invariants (announced : list newSource) : ∀ r,
  NoDup (ns_sourceId <$> announced) →
  (∀ s, s ∈ announced → sources r !! ns_sourceId s = None) →
  indexed r → reversed r →
  indexed (fold_left addSource announced r)
  ∧ reversed (fold_left addSource announced r).
Proof.
  induction announced as [|s rest IH]; intros r Hnd Hfresh Hidx Hrev; simpl.
  - done.
  - rewrite fmap_cons in Hnd. apply NoDup_cons in Hnd as [Hs Hnd].
    apply IH; [done| | |].
    + intros s' Hs'. rewrite sources_addSource_fresh.
      * apply Hfresh. by right.
      * intros Heq. apply Hs. rewrite <- Heq. apply list_elem_of_fmap. eauto.
    + apply indexed_addSource; [|done]. apply Hfresh. left.
    + apply reversed_addSource; [|done]. apply Hfresh. left.
Qed.

Lemma every_true {A} (p : A → bool) (xs : list A) :
  every p xs = true ↔ ∀ x, x ∈ xs → p x = true.
Proof.
  unfold every. rewrite forallb_forall.
  split; intros H x Hx; apply H; by apply list_elem_of_In.
Qed.

Lemma getSourceIdsForURL_elem r u id :
  id ∈ getSourceIdsForURL r u
  ↔ id ∈ idsOfURL r u ∧ ∀ o, o ∈ originalIdsOf r id → o ∉ idsOfURL r u.
Proof.
  unfold getSourceIdsForURL. rewrite elem_of_Js_filter, every_true.
  split.
  - intros [Hall Hid]. split; [done|]. intros o Ho.
    apply includes_false, negb_true_iff. by apply Hall.
  - intros [Hid Hall]. split; [|done]. intros o Ho.
    apply negb_true_iff, includes_false. by apply Hall.
Qed.

End ByURL.

(** X1: [getSourceIdsForURL], over the registry the listener has built
    from announcements with different ids: the ids returned for a URL are
    the sources registered with that URL, less those that a source of the
    same URL lists among its generated sources (the inline scripts of an
    HTML page); no id is returned for the empty URL. *)
Theorem getSourceIdsForURL_drops_generated (announced : list newSource)
    (u : string) (id : SourceId) :
  NoDup (ns_sourceId <$> announced) →
  id ∈ getSourceIdsForURL (registryOf announced) u
  ↔ u ≠ "" ∧ hasURL (registryOf announced) u id
    ∧ ¬ ∃ o, hasURL (registryOf announced) u o
             ∧ generatedEdge (registryOf announced) o id.
Proof.
  intros Hnd.
  destruct (registryOf_invariants announced Registry.empty Hnd)
    as [Hidx Hrev].
  { intros s _. apply lookup_empty. }
  { apply indexed_empty. }
  { apply reversed_empty. }
  fold (registryOf announced) in Hidx, Hrev.
  rewrite getSourceIdsForURL_elem, (Hidx u id). split.
  - intros [[Hu Hid] Hnone]. split; [done|]. split; [done|].
    intros (o & Ho & Hedge). apply (Hnone o); [by apply Hrev|].
    by apply Hidx.
  - intros (Hu & Hid & Hnone). split; [done|].
    intros o Ho Hin. apply Hnone. exists o. split.
    + by apply Hidx in Hin as [_ ?].
    + by apply Hrev.
Qed.

Lemma getSourceIdsForURL_drops_generated_witness :
  NoDup (ns_sourceId <$> pageWithInlineScript)
  ∧ ("inline" ∈ getSourceIdsForURL (registryOf pageWithInlineScript) "index.html"
     ↔ "index.html" ≠ ""
       ∧ hasURL (registryOf pageWithInlineScript) "index.html" "inline"
       ∧ ¬ ∃ o, hasURL (registryOf pageWithInlineScript) "index.html" o
                ∧ generatedEdge (registryOf pageWithInlineScript) o "inline").
Proof.
  assert (Hnd : NoDup (ns_sourceId <$> pageWithInlineScript)) by compute_done.
  split; [exact Hnd|].
  exact (getSourceIdsForURL_drops_generated pageWithInlineScript
           "index.html" "inline" Hnd).
Defined.

(** ** Choosing among the sources of a location *)

Section Picking.

Import Registry.

Lemma isSourceMappedSource_resolved r id info k :
  sources r !! id = Some info →
  resolvedKind r info = Some (Returned k) →
  isSourceMappedSource r id = Returned (bool_decide (k = sourceMapped)).
Proof. intros Hid Hk. unfold isSourceMappedSource. by rewrite Hid, Hk. Qed.

(** The loop of [_chooseSourceId] keeps in [generatedId] and [originalId]
    ids of the list: one that is not source-mapped, one that is. *)
Lemma chooseLoop_picks r (P : SourceId → Prop) : ∀ ids g o res,
  chooseLoop r ids g o = Returned res →
  (∀ x, x ∈ ids → P x) →
  (∀ x, g = Some x → P x ∧ isSourceMappedSource r x = Returned false) →
  (∀ x, o = Some x → P x ∧ isSourceMappedSource r x = Returned true) →
  match res with
  | inl early => P (sourceId early) ∧ alternateId early = None
  | inr (g', o') =>
      (∀ x, g' = Some x → P x ∧ isSourceMappedSource r x = Returned false)
      ∧ (∀ x, o' = Some x → P x ∧ isSourceMappedSource r x = Returned true)
  end.
Proof.
  induction ids as [|id rest IH]; intros g o res; simpl.
  - intros [= <-] _ Hg Ho. done.
  - intros Hloop HP Hg Ho.
    assert (Hid : P id) by (apply HP; left).
    assert (Hrest : ∀ x, x ∈ rest → P x) by (intros x Hx; apply HP; by right).
    destruct (sources r !! id) as [info|] eqn:Hinfo.
    2:{ injection Hloop as <-. done. }
    destruct (resolvedKind r info) as [[k|]|] eqn:Hk; [|done|].
    2:{ injection Hloop as <-. done. }
    pose proof (isSourceMappedSource_resolved r id info k Hinfo Hk) as Hmapped.
    destruct (decide (k = sourceMapped)) as [->|Hne].
    + apply (IH _ _ _ Hloop Hrest Hg). intros x [= <-]. done.
    + destruct (truthy_opt_string g); [done|].
      apply (IH _ _ _ Hloop Hrest); [|done]. intros x [= <-].
      split; [done|]. rewrite Hmapped. by rewrite bool_decide_eq_false_2.
Qed.

End Picking.

Lemma chooseSourceId_eligible (r : Registry.t) (ids : list SourceId)
    (c : Registry.Choice) :
  Registry._chooseSourceId r ids = Returned c →
  eligible r ids (Registry.sourceId c)
  ∧ ∀ alt, Registry.alternateId c = Some alt →
      eligible r ids alt
      ∧ ∃ g o,
          Registry.isSourceMappedSource r g = Returned false
          ∧ Registry.isSourceMappedSource r o = Returned true
          ∧ (if bool_decide (g ∈ Registry.preferredGeneratedSources r)
             then Registry.sourceId c = g ∧ alt = o
             else Registry.sourceId c = o ∧ alt = g).
Proof.
  intros Hc. unfold Registry._chooseSourceId in Hc.
  set (ids1 :=
         if some (λ id, bool_decide (Registry.getSourceKind r id = Some html)) ids
         then Js.filter
                (λ id, negb (bool_decide (Registry.getSourceKind r id = Some inlineScript)))
                ids
         else ids) in Hc.
  set (ids2 := Js.filter (λ id, negb (Registry.isMinifiedSource r id)) ids1) in Hc.
  assert (H2 : ∀ x, x ∈ ids2 → eligible r ids x).
  { intros x Hx. subst ids2. apply elem_of_Js_filter in Hx as [Hmin Hx].
    apply negb_true_iff in Hmin. subst ids1.
    destruct (some _ ids) eqn:Hhtml.
    - apply elem_of_Js_filter in Hx as [Hinline Hx].
      apply negb_true_iff, bool_decide_eq_false in Hinline. done.
    - repeat split; [done|done|]. intros (h & Hh & Hkind).
      assert (some (λ id, bool_decide (Registry.getSourceKind r id = Some html)) ids
              = true); [|congruence].
      unfold some. apply existsb_exists. exists h.
      split; [by apply list_elem_of_In|by apply bool_decide_eq_true]. }
  destruct (Registry.chooseLoop r ids2 None None) as [res|] eqn:Hloop; [|done].
  pose proof (chooseLoop_picks r (eligible r ids) ids2 None None res Hloop H2) as Hres.
  destruct res as [early|[g o]].
  - injection Hc as <-. destruct Hres as [Hearly Hnone]; [done|done|].
    split; [done|]. intros alt Halt. congruence.
  - destruct Hres as [Hg Ho]; [done|done|].
    destruct (truthy_opt_string g) eqn:Htg; cbv beta iota in Hc.
    + apply truthy_opt_string_true in Htg as (g' & -> & Hg').
      destruct (Hg g' eq_refl) as [Heg Hmg].
      destruct (truthy_opt_string o) eqn:Hto; cbv beta iota in Hc.
      * apply truthy_opt_string_true in Hto as (o' & -> & Ho').
        destruct (Ho o' eq_refl) as [Heo Hmo]. cbv beta iota in Hc.
        destruct (decide (g' ∈ Registry.preferredGeneratedSources r)) as [Hpref|Hpref].
        -- rewrite bool_decide_eq_true_2 in Hc by done. injection Hc as <-.
           split; [done|]. intros alt [= <-]. split; [done|].
           exists g', o'. by rewrite bool_decide_eq_true_2.
        -- rewrite bool_decide_eq_false_2 in Hc by done. injection Hc as <-.
           split; [done|]. intros alt [= <-]. split; [done|].
           exists g', o'. by rewrite bool_decide_eq_false_2.
      * simpl in Hc. injection Hc as <-. simpl. split; [done|]. intros alt Halt. done.
    + destruct (truthy_opt_string o) eqn:Hto; cbv beta iota in Hc; [|done].
      apply truthy_opt_string_true in Hto as (o' & -> & Ho').
      destruct (Ho o' eq_refl) as [Heo Hmo]. simpl in Hc. injection Hc as <-. simpl.
      split; [done|]. intros alt Halt. done.
Qed.

(** X2: [_chooseSourceId], whenever it returns: the chosen id and the
    alternate are ids of the list it was given, neither is a minified
    source, and neither is an inline script when the list holds an HTML
    source.  When there is an alternate, the two are a generated source
    (one that is not source-mapped) and an original (one that is); the
    original is the one chosen unless the generated one is preferred. *)
Theorem chooseSourceId_picks_from_the_list (r : Registry.t)
    (ids : list SourceId) (c : Registry.Choice) :
  Registry._chooseSourceId r ids = Returned c →
  eligible r ids (Registry.sourceId c)
  ∧ ∀ alt, Registry.alternateId c = Some alt →
      eligible r ids alt
      ∧ ∃ g o,
          Registry.isSourceMappedSource r g = Returned false
          ∧ Registry.isSourceMappedSource r o = Returned true
          ∧ (if bool_decide (g ∈ Registry.preferredGeneratedSources r)
             then Registry.sourceId c = g ∧ alt = o
             else Registry.sourceId c = o ∧ alt = g).
Proof. apply chooseSourceId_eligible. Qed.

Lemma chooseSourceId_picks_from_the_list_witness :
  Registry._chooseSourceId
    (exampleRegistry "A" "X" "B" sourceMapped scriptSource scriptSource)
    ["X"; "A"]
  = Returned (Registry.mkChoice "A" (Some "X"))
  ∧ "A" ∈ ["X"; "A"].
Proof.
  assert (H : Registry._chooseSourceId
                (exampleRegistry "A" "X" "B" sourceMapped scriptSource scriptSource)
                ["X"; "A"]
              = Returned (Registry.mkChoice "A" (Some "X")))
    by (vm_compute; reflexivity).
  split; [exact H|].
  exact (proj1 (proj1 (chooseSourceId_picks_from_the_list _ _ _ H))).
Defined.

Section Plain.

Import Registry.

Variable r : Registry.t.

Lemma plain_resolvedKind id :
  plain r id →
  ∃ info, sources r !! id = Some info
          ∧ resolvedKind r info = Some (Returned (kind info))
          ∧ (kind info = sourceMapped ↔ isOriginal r id = true).
Proof.
  intros (_ & _ & info & Hinfo & _ & Hpp). exists info.
  split; [done|]. split.
  - unfold resolvedKind. by destruct (decide (kind info = prettyPrinted)).
  - unfold isOriginal, getSourceKind. rewrite Hinfo. simpl.
    rewrite bool_decide_eq_true. split; [by intros ->|by intros [= ->]].
Qed.

(** The loop over plain sources: it fails at the second generated id and
    keeps the last original. *)
Lemma chooseLoop_plain : ∀ (ids : list SourceId) (g o : option SourceId),
  Forall (plain r) ids → g ≠ Some "" →
  chooseLoop r ids g o
  = let generated := option_list g ++ Js.filter (λ id, negb (isOriginal r id)) ids in
    let originals := option_list o ++ Js.filter (isOriginal r) ids in
    if bool_decide (length generated ≤ 1)%nat
    then Returned (inr (head generated, last originals))
    else AssertionFailed.
Proof.
  induction ids as [|id rest IH]; intros g o Hplain Hg; cbv zeta.
  - simpl. rewrite !app_nil_r. destruct g as [g|], o as [o|]; done.
  - apply Forall_cons in Hplain as [Hid Hrest].
    destruct (plain_resolvedKind id Hid) as (info & Hinfo & Hk & Horig).
    destruct Hid as (Hne & _).
    cbn [chooseLoop]. rewrite Hinfo, Hk.
    destruct (decide (kind info = sourceMapped)) as [Hsm|Hsm].
    + rewrite (IH g (Some id) Hrest Hg). cbv zeta. cbn [Js.filter].
      rewrite (proj1 Horig Hsm). cbn [negb].
      destruct (bool_decide _); [|done].
      do 3 f_equal. destruct o as [o|]; cbn [option_list app]; [|done].
      symmetry. apply last_cons_cons.
    + assert (Hno : isOriginal r id = false).
      { apply not_true_is_false. intros E. by apply Horig in E. }
      cbn [Js.filter]. rewrite Hno. cbn [negb].
      destruct g as [g|]; cbn [option_list truthy_opt_string app].
      * assert (Htruthy : truthy_string g = true).
        { apply truthy_string_true. intros ->. by apply Hg. }
        rewrite Htruthy. rewrite bool_decide_eq_false_2; [done|].
        simpl. lia.
      * rewrite (IH (Some id) o Hrest) by (by intros [= ?]). done.
Qed.

End Plain.

(** X3: [_chooseSourceId] over plain sources (registered, not HTML, not
    pretty-printed, without a pretty-printed version): an empty list and a
    list with two ids that are not source-mapped both fail an assertion;
    otherwise the one generated id, if any, is paired with the last
    source-mapped id of the list, and earlier source-mapped ids are
    dropped without a word. *)
Theorem chooseSourceId_among_plain_sources (r : Registry.t)
    (ids : list SourceId) :
  Forall (plain r) ids →
  Registry._chooseSourceId r ids
  = chosenAmong r
      (Js.filter (λ id, negb (isOriginal r id)) ids)
      (Js.filter (isOriginal r) ids).
Proof.
  intros Hplain. unfold Registry._chooseSourceId.
  assert (Hhtml :
    some (λ id, bool_decide (Registry.getSourceKind r id = Some html)) ids = false).
  { unfold some. apply not_true_is_false. intros Hex.
    apply existsb_exists in Hex as (h & Hh & Hkind).
    apply bool_decide_eq_true in Hkind.
    apply list_elem_of_In in Hh.
    rewrite Forall_forall in Hplain.
    destruct (Hplain h Hh) as (_ & _ & info & Hinfo & Hnh & _).
    unfold Registry.getSourceKind in Hkind. rewrite Hinfo in Hkind.
    simpl in Hkind. congruence. }
  cbv zeta. rewrite Hhtml.
  rewrite (Js_filter_all (λ id, negb (Registry.isMinifiedSource r id)) ids).
  2:{ intros x Hx. rewrite Forall_forall in Hplain.
      destruct (Hplain x Hx) as (_ & -> & _). done. }
  rewrite (chooseLoop_plain r ids None None Hplain) by done.
  cbv zeta. cbn [option_list app].
  set (generated := Js.filter (λ id, negb (isOriginal r id)) ids).
  set (originals := Js.filter (isOriginal r) ids).
  assert (Hgen : Forall (λ x, x ≠ "") generated).
  { subst generated. apply Forall_forall. intros x Hx.
    apply elem_of_Js_filter in Hx as [_ Hx].
    rewrite Forall_forall in Hplain. by destruct (Hplain x Hx). }
  assert (Horig : ∀ o, last originals = Some o → o ≠ "").
  { intros o Ho. apply last_Some in Ho as (l' & Ho).
    assert (Hin : o ∈ originals) by (rewrite Ho; set_solver).
    subst originals. apply elem_of_Js_filter in Hin as [_ Hin].
    rewrite Forall_forall in Hplain. by destruct (Hplain o Hin). }
  unfold chosenAmong.
  destruct generated as [|g [|g2 more]]; simpl.
  - destruct (last originals) as [o|] eqn:Hlast; simpl; [|done].
    by rewrite (proj2 (truthy_string_true o) (Horig o eq_refl)).
  - apply Forall_cons in Hgen as [Hg _].
    rewrite (proj2 (truthy_string_true g) Hg). simpl.
    destruct (last originals) as [o|] eqn:Hlast; simpl; [|done].
    rewrite (proj2 (truthy_string_true o) (Horig o eq_refl)). simpl.
    destruct (decide (g ∈ Registry.preferredGeneratedSources r)).
    + by rewrite !bool_decide_eq_true_2.
    + by rewrite !bool_decide_eq_false_2.
  - done.
Qed.

Lemma chooseSourceId_among_plain_sources_witness :
  Forall (plain (registryOf twoBundles)) ["G1"; "G2"; "O"]
  ∧ Registry._chooseSourceId (registryOf twoBundles) ["G1"; "G2"; "O"]
    = AssertionFailed.
Proof.
  assert (H : Forall (plain (registryOf twoBundles)) ["G1"; "G2"; "O"]).
  { apply Forall_cons_2; [|apply Forall_cons_2; [|apply Forall_cons_2;
      [|apply Forall_nil_2]]];
      (split; [done|]); (split; [by vm_compute|]);
      eexists; (split; [by vm_compute|]); done. }
  split; [exact H|].
  etrans; [exact (chooseSourceId_among_plain_sources _ _ H)|].
  by vm_compute.
Defined.

(** ** Grouping, whatever the registry *)

Section Outcome.

Import Registry.

Variable r : Registry.t.

Lemma alternatesLoop_registered fuel : ∀ rv worklist res,
  alternatesLoop fuel r rv worklist = Done res →
  (∀ x, x ∈ rv → is_Some (sources r !! x)) →
  ∀ x, x ∈ res → is_Some (sources r !! x).
Proof.
  induction fuel as [|fuel IH]; intros rv worklist res; simpl; [done|].
  destruct (pop worklist) as [[rest x]|] eqn:Hpop.
  - destruct (includes rv x); [apply IH|].
    destruct (sources r !! x) as [info|] eqn:Hx; [|done].
    intros Hloop Hrv. apply (IH _ _ _ Hloop).
    intros y Hy. apply elem_of_app in Hy as [Hy|Hy]; [by apply Hrv|].
    apply list_elem_of_singleton in Hy as ->. eauto.
  - intros [= <-] Hrv. done.
Qed.

(** [_getAlternateSourceIds] ends, and what it ends with. *)
Lemma getAlternateSourceIds_cases id :
  match _getAlternateSourceIds r id with
  | Done res =>
      NoDup res
      ∧ (∀ y, y ∈ res ↔ rtc (pushed r) id y)
      ∧ (∀ y, rtc (pushed r) id y → is_Some (sources r !! y))
  | Failed => ∃ y, rtc (pushed r) id y ∧ sources r !! y = None
  | OutOfFuel => False
  end.
Proof.
  pose proof (getAlternateSourceIds_total r id) as Htotal.
  unfold _getAlternateSourceIds in *.
  destruct (alternatesLoop (alternatesFuel r) r [] [id]) as [res| |] eqn:Hloop;
    [| |done].
  - destruct (alternatesLoop_done r _ _ _ _ Hloop)
      as (Hres & Hsub & Hclosed & Hreach).
    { constructor. }
    { intros x y Hx. by apply elem_of_nil in Hx. }
    assert (Hall : ∀ y, y ∈ res ↔ rtc (pushed r) id y).
    { intros y. split.
      - intros Hy. destruct (Hreach y Hy) as [Hy'|(x & Hx & Hxy)].
        + by apply elem_of_nil in Hy'.
        + by apply list_elem_of_singleton in Hx as ->.
      - intros Hy. revert y Hy. apply rtc_ind_r.
        + apply Hsub. right. by left.
        + intros y z _ Hyz Hy. by eapply Hclosed. }
    split; [done|]. split; [done|].
    intros y Hy. apply (alternatesLoop_registered _ _ _ _ Hloop).
    + intros x Hx. by apply elem_of_nil in Hx.
    + by apply Hall.
  - apply alternatesLoop_failed in Hloop as (x & y & Hx & Hxy & Hy).
    apply list_elem_of_singleton in Hx as ->. eauto.
Qed.

(** The loop of [_groupSourceIds] ends, and what it ends with. *)
Lemma groupLoop_cases fuel : ∀ ids groups0,
  (length ids < fuel)%nat →
  match groupLoop fuel r ids groups0 with
  | Done all =>
      ∃ groups,
        all = groups0 ++ groups
        ∧ (∀ x, x ∈ ids ↔ ∃ g, g ∈ groups ∧ x ∈ g)
        ∧ NoDup (concat groups)
        ∧ Forall (λ g, g ≠ []) groups
        ∧ (∀ x y, x ∈ ids → rtc (pushed r) x y → is_Some (sources r !! y))
  | Failed => ∃ x y, x ∈ ids ∧ rtc (pushed r) x y ∧ sources r !! y = None
  | OutOfFuel => False
  end.
Proof.
  induction fuel as [|fuel IH]; intros ids groups0 Hfuel; [lia|].
  simpl. destruct ids as [|h rest].
  - exists []. rewrite app_nil_r. split; [done|].
    split; [|split; [constructor|split; [done|]]].
    + intros x. split; [intros Hx; by apply elem_of_nil in Hx|].
      intros (g & Hg & _). by apply elem_of_nil in Hg.
    + intros x y Hx. by apply elem_of_nil in Hx.
  - set (ids := h :: rest) in *.
    assert (Hh : h ∈ ids) by (subst ids; left).
    pose proof (getAlternateSourceIds_cases h) as Hcases.
    destruct (_getAlternateSourceIds r h) as [alts| |]; [| |done].
    2:{ destruct Hcases as (y & Hhy & Hy). eauto. }
    destruct Hcases as (Halts & Hreach & Hreg).
    set (group := Js.filter (includes ids) alts).
    set (ids' := Js.filter (λ id, negb (includes group id)) ids).
    assert (Hgroup : ∀ x, x ∈ group ↔ x ∈ ids ∧ rtc (pushed r) h x).
    { intros x. subst group. rewrite elem_of_Js_filter, includes_true, Hreach.
      tauto. }
    assert (Hids' : ∀ x, x ∈ ids' ↔ x ∈ ids ∧ x ∉ group).
    { intros x. subst ids'.
      rewrite elem_of_Js_filter, negb_true_iff, includes_false. tauto. }
    assert (Hhg : h ∈ group) by (apply Hgroup; split; [done|apply rtc_refl]).
    assert (Hshorter : (length ids' < fuel)%nat).
    { assert (length ids' < length ids)%nat; [|simpl in *; lia].
      apply (Js_filter_shorter _ ids h Hh).
      apply negb_false_iff, includes_true. done. }
    specialize (IH ids' (groups0 ++ [group]) Hshorter).
    destruct (groupLoop fuel r ids' (groups0 ++ [group])) as [all| |]; [| |done].
    2:{ destruct IH as (x & y & Hx & Hxy & Hy). exists x, y.
        split; [by apply Hids'|done]. }
    destruct IH as (groups & -> & Hcover & Hnd & Hne & Hregs).
    exists (group :: groups). rewrite <- app_assoc. simpl.
    split; [done|].
    assert (Hin' : ∀ x g, g ∈ groups → x ∈ g → x ∈ ids ∧ x ∉ group).
    { intros x g Hg Hx. apply Hids', Hcover. eauto. }
    split; [|split; [|split]].
    + intros x. split.
      * intros Hx. destruct (decide (x ∈ group)) as [Hxg|Hxg].
        -- exists group. split; [left|done].
        -- destruct (proj1 (Hcover x)) as (g & Hg & Hxg'); [by apply Hids'|].
           exists g. split; [by right|done].
      * intros (g & Hg & Hx). apply elem_of_cons in Hg as [->|Hg].
        -- by apply Hgroup.
        -- by apply (Hin' x g).
    + apply NoDup_app. repeat split; [|intros x Hx Hc|done].
      * subst group. by apply NoDup_Js_filter.
      * apply elem_of_concat in Hc as (g & Hg & Hxg).
        by apply (Hin' x g).
    + constructor; [|done]. intros Hnil. rewrite Hnil in Hhg.
      by apply elem_of_nil in Hhg.
    + intros x y Hx Hxy. destruct (decide (x ∈ group)) as [Hxg|Hxg].
      * apply Hreg. apply Hgroup in Hxg as [_ Hhx]. by etrans.
      * apply (Hregs x y); [|done]. by apply Hids'.
Qed.

End Outcome.

(** X4: [_getAlternateSourceIds] always ends, whatever the registry holds
    (also when sources list each other in a cycle).  It returns, each
    once, the ids reached from the one given through generated-source
    lists and the reverse map; it fails its assertion exactly when one of
    those ids is not registered. *)
Theorem getAlternateSourceIds_ends (r : Registry.t) (id : SourceId) :
  match Registry._getAlternateSourceIds r id with
  | Done res =>
      NoDup res
      ∧ (∀ y, y ∈ res ↔ rtc (pushed r) id y)
      ∧ (∀ y, rtc (pushed r) id y → is_Some (Registry.sources r !! y))
  | Failed => ∃ y, rtc (pushed r) id y ∧ Registry.sources r !! y = None
  | OutOfFuel => False
  end.
Proof. apply getAlternateSourceIds_cases. Qed.

(** X5: [_groupSourceIds] always ends, whatever the registry and the
    list.  It returns groups that are not empty, share no id, hold no id
    twice and together hold exactly the ids of the list; it fails exactly
    when an id of the list reaches an id that is not registered. *)
Theorem groupSourceIds_ends (r : Registry.t) (ids : list SourceId) :
  match Registry._groupSourceIds r ids with
  | Done groups =>
      (∀ x, x ∈ ids ↔ ∃ g, g ∈ groups ∧ x ∈ g)
      ∧ NoDup (concat groups)
      ∧ Forall (λ g, g ≠ []) groups
      ∧ (∀ x y, x ∈ ids → rtc (pushed r) x y →
           is_Some (Registry.sources r !! y))
  | Failed =>
      ∃ x y, x ∈ ids ∧ rtc (pushed r) x y ∧ Registry.sources r !! y = None
  | OutOfFuel => False
  end.
Proof.
  unfold Registry._groupSourceIds.
  pose proof (groupLoop_cases r (S (length ids)) ids []) as Hcases.
  destruct (Registry.groupLoop (S (length ids)) r ids []) as [all| |].
  - destruct Hcases as (groups & -> & H); [lia|]. done.
  - apply Hcases. lia.
  - apply Hcases. lia.
Qed.

(** ** Breakpoints *)

Section Breakpoints.

Lemma invalidate_with_session w callback :
  truthy_opt_string (sessionId (front w)) = true →
  _invalidateResumeTargets w callback
  = send (set_front w (set_invalidated (front w))) (Mutate callback).
Proof.
  intros Hs. unfold _invalidateResumeTargets, callback_begin. simpl.
  by rewrite Hs.
Qed.

Lemma invalidate_sessionId w callback :
  sessionId (front (_invalidateResumeTargets w callback)) = sessionId (front w).
Proof. by rewrite invalidate_front. Qed.

Lemma invalidate_breakpoints w callback :
  breakpoints (front (_invalidateResumeTargets w callback)) = breakpoints (front w).
Proof. by rewrite invalidate_front. Qed.

(** Deleting the ids of some entries from a [Map] that holds each id
    once deletes those entries. *)
Lemma Map_delete_filter (m : list (BreakpointId * Location)) k :
  Map_delete (Js.filter (λ e, negb (bool_decide (e.1 = k))) m) k
  = Js.filter (λ e, negb (bool_decide (e.1 = k))) m.
Proof.
  unfold Map_delete. apply Js_filter_all. intros x Hx.
  by apply elem_of_Js_filter in Hx as [? _].
Qed.

Lemma Js_filter_filter {A} (p q : A → bool) (xs : list A) :
  Js.filter p (Js.filter q xs) = Js.filter (λ x, q x && p x) xs.
Proof.
  induction xs as [|x xs IH]; simpl; [done|].
  destruct (q x); simpl; [|done]. destruct (p x); by rewrite IH.
Qed.

(** The loop of [removeBreakpoint] over the entries that are left to
    visit. *)
Lemma removeBreakpoint_loop sourceId line column :
  ∀ (entries : list (BreakpointId * Location)) (w : World),
  truthy_opt_string (sessionId (front w)) = true →
  let hit entry := sameLocation entry.2 sourceId line column in
  let w' :=
    fold_left
      (λ w entry,
         if hit entry then
           let w :=
             set_front w
               (set_breakpoints (front w)
                  (Map_delete (breakpoints (front w)) entry.1)) in
           _invalidateResumeTargets w (RemoveBreakpoint entry.1)
         else w)
      entries w in
  breakpoints (front w')
  = Js.filter (λ e, negb (includes (Js.filter hit entries).*1 e.1))
      (breakpoints (front w))
  ∧ inflight w'
    = inflight w
      ++ ((λ e, Mutate (RemoveBreakpoint e.1)) <$> Js.filter hit entries)
  ∧ sessionId (front w') = sessionId (front w)
  ∧ (Js.filter hit entries = [] → w' = w).
Proof.
  induction entries as [|entry entries IH]; intros w Hs; cbv zeta; simpl.
  - rewrite app_nil_r. split; [|done].
    symmetry. apply Js_filter_all. intros x _. reflexivity.
  - destruct (sameLocation entry.2 sourceId line column) eqn:Hhit.
    + rewrite invalidate_with_session by done.
      match goal with
      | |- context [fold_left _ entries ?w1] =>
          destruct (IH w1) as (Hb & Hi & Hsid & _); [done|]
      end.
      cbv zeta in Hb, Hi, Hsid. rewrite Hb, Hi, Hsid. simpl.
      split; [|split; [|split; [done|done]]].
      * unfold Map_delete. rewrite Js_filter_filter.
        apply Js_filter_ext. intros x _.
        unfold includes. fold (@fmap list _ _ _ (@fst BreakpointId Location)).
        destruct (bool_decide_reflect (x.1 = entry.1)) as [Heq|Hne]; simpl.
        -- symmetry. apply negb_false_iff, bool_decide_eq_true.
           rewrite Heq. left.
        -- f_equal. apply bool_decide_ext. rewrite elem_of_cons.
           split; [by right|]. by intros [?|?].
      * by rewrite <- app_assoc.
    + apply IH. done.
Qed.

Lemma unique_hit (m : list (BreakpointId * Location))
    (p : BreakpointId * Location → bool) e :
  NoDup m.*1 → e ∈ m →
  (e.1 ∈ (Js.filter p m).*1 ↔ p e = true).
Proof.
  intros Hnd He. rewrite list_elem_of_fmap. split.
  - intros (e' & Hk & He'). apply elem_of_Js_filter in He' as [Hp He'].
    assert (e' = e); [|by subst].
    apply list_elem_of_lookup in He as [i Hi].
    apply list_elem_of_lookup in He' as [j Hj].
    assert (i = j); [|congruence].
    apply (NoDup_lookup m.*1 i j e.1); [done| |].
    + by rewrite list_lookup_fmap, Hi.
    + rewrite list_lookup_fmap, Hj. simpl. by rewrite Hk.
  - intros Hp. exists e. split; [done|]. by apply elem_of_Js_filter.
Qed.

Lemma removeBreakpoint_effect w sourceId line column :
  uniqueIds w →
  truthy_opt_string (sessionId (front w)) = true →
  let w' := removeBreakpoint w sourceId line column in
  breakpoints (front w')
  = Js.filter (λ e, negb (sameLocation e.2 sourceId line column))
      (breakpoints (front w))
  ∧ inflight w'
    = inflight w
      ++ ((λ e, Mutate (RemoveBreakpoint e.1))
            <$> installedAt w sourceId line column)
  ∧ sessionId (front w') = sessionId (front w)
  ∧ (installedAt w sourceId line column = [] → w' = w).
Proof.
  intros Hnd Hs. cbv zeta. unfold removeBreakpoint, installedAt.
  destruct (removeBreakpoint_loop sourceId line column
              (breakpoints (front w)) w Hs) as (Hb & Hi & Hsid & Hnone).
  cbv zeta in Hb, Hi, Hsid, Hnone.
  split; [|done]. rewrite Hb. apply Js_filter_ext. intros e He.
  f_equal. unfold includes.
  pose proof (unique_hit (breakpoints (front w))
                (λ e, sameLocation e.2 sourceId line column) e Hnd He) as Hu.
  simpl in Hu.
  destruct (sameLocation e.2 sourceId line column).
  - apply bool_decide_eq_true. by apply Hu.
  - apply bool_decide_eq_false. intros Hin. by apply Hu in Hin.
Qed.

Lemma uniqueIds_filter (m : list (BreakpointId * Location)) p :
  NoDup m.*1 → NoDup (Js.filter p m).*1.
Proof.
  induction m as [|e m IH]; simpl; [done|].
  rewrite NoDup_cons. intros [He Hnd]. destruct (p e); [|by apply IH].
  rewrite fmap_cons. apply NoDup_cons. split; [|by apply IH].
  intros Hin. apply He. apply list_elem_of_fmap in Hin as (e' & -> & He').
  apply elem_of_Js_filter in He' as [_ He'].
  apply list_elem_of_fmap. eauto.
Qed.

Lemma Map_set_keys (m : list (BreakpointId * Location)) k v :
  (k, v) ∈ Map_set m k v
  ∧ (NoDup m.*1 → NoDup (Map_set m k v).*1)
  ∧ (∀ e, e ∈ Map_set m k v → e = (k, v) ∨ e ∈ m)
  ∧ (∀ e, e ∈ m → e.1 ≠ k → e ∈ Map_set m k v).
Proof.
  induction m as [|[k' v'] m IH]; simpl.
  - split; [left|]. split; [intros _; apply NoDup_singleton|].
    split; [|intros e He; by apply elem_of_nil in He].
    intros e He. left. by apply list_elem_of_singleton in He.
  - destruct IH as (Hin & Hnd & Hsub & Hkeep).
    destruct (decide (k' = k)) as [->|Hne]; simpl.
    + split; [left|]. split; [done|]. split.
      * intros e He. apply elem_of_cons in He as [->|He]; [by left|].
        right. by right.
      * intros e He Hk. apply elem_of_cons in He as [->|He]; [done|by right].
    + split; [by right|]. split; [|split].
      * rewrite !NoDup_cons. intros [Hk' Hm]. split; [|by apply Hnd].
        intros Hc. apply list_elem_of_fmap in Hc as (e & Hk & He).
        destruct (Hsub e He) as [->|He']; [done|].
        apply Hk'. apply list_elem_of_fmap. eauto.
      * intros e He. apply elem_of_cons in He as [->|He]; [right; left|].
        destruct (Hsub e He) as [->|?]; [by left|right; by right].
      * intros e He Hk. apply elem_of_cons in He as [->|He]; [left|].
        right. by apply Hkeep.
Qed.

End Breakpoints.

(** X6: [removeBreakpoint], called with a session on a coordinator
    whose breakpoints have different ids: every breakpoint installed at
    the location is deleted, the others stay as they are and in their
    order, and one [removeBreakpoint] command is sent for each deleted
    breakpoint, in the order in which they were installed.  When no
    breakpoint is installed at the location the call changes nothing: no
    command is sent and the resume targets are not invalidated. *)
Theorem removeBreakpoint_deletes_the_location (w : World)
    (sourceId : SourceId) (line column : Z) :
  uniqueIds w →
  truthy_opt_string (sessionId (front w)) = true →
  let w' := removeBreakpoint w sourceId line column in
  breakpoints (front w')
  = Js.filter (λ e, negb (sameLocation e.2 sourceId line column))
      (breakpoints (front w))
  ∧ inflight w'
    = inflight w
      ++ ((λ e, Mutate (RemoveBreakpoint e.1))
            <$> installedAt w sourceId line column)
  ∧ epochOf w'
    = epochOf w + Z.of_nat (length (installedAt w sourceId line column))
  ∧ (installedAt w sourceId line column = [] → w' = w).
Proof.
  intros Hnd Hs.
  destruct (removeBreakpoint_effect w sourceId line column Hnd Hs)
    as (Hb & Hi & _ & Hnone).
  cbv zeta in *. split; [done|]. split; [done|]. split; [|done].
  apply epoch_removeBreakpoint.
Qed.

Lemma removeBreakpoint_deletes_the_location_witness :
  uniqueIds oneBreakpoint
  ∧ truthy_opt_string (sessionId (front oneBreakpoint)) = true
  ∧ breakpoints (front (removeBreakpoint oneBreakpoint "A" 3 0)) = [].
Proof.
  assert (Hnd : uniqueIds oneBreakpoint).
  { unfold uniqueIds. simpl. apply NoDup_singleton. }
  assert (Hs : truthy_opt_string (sessionId (front oneBreakpoint)) = true)
    by reflexivity.
  split; [exact Hnd|]. split; [exact Hs|].
  etrans;
    [exact (proj1 (removeBreakpoint_deletes_the_location
                     oneBreakpoint "A" 3 0 Hnd Hs))|].
  reflexivity.
Defined.

(** X7: a breakpoint that was set can be removed.  [setBreakpoint] is
    called with a session; when the service answers with an id, the
    breakpoint is recorded under that id at the location of the call, in
    place of whatever was recorded under the id before.  A
    [removeBreakpoint] for the same location then sends the removal of
    that id and leaves only the breakpoints that were there before the
    two calls, at other locations and under other ids. *)
Theorem breakpoint_set_then_removed (w0 : World) (sourceId : SourceId)
    (line column : Z) (condition : option string)
    (breakpointId : BreakpointId) :
  uniqueIds w0 →
  truthy_opt_string (sessionId (front w0)) = true →
  breakpointId ≠ "" →
  let location := mkLocation sourceId line column in
  let w1 := (setBreakpoint w0 sourceId line column condition).1 in
  ∃ w2,
    step w1 (Deliver (length (inflight w0)) (GotBreakpoint (Some breakpointId)))
    = Some w2
    ∧ (breakpointId, location) ∈ breakpoints (front w2)
    ∧ uniqueIds w2
    ∧ Mutate (RemoveBreakpoint breakpointId)
      ∈ inflight (removeBreakpoint w2 sourceId line column)
    ∧ ∀ e, e ∈ breakpoints (front (removeBreakpoint w2 sourceId line column))
           ↔ e ∈ breakpoints (front w0) ∧ e.1 ≠ breakpointId
             ∧ sameLocation e.2 sourceId line column = false.
Proof.
  intros Hnd Hs Hid location w1.
  assert (Hrequest :
    inflight w1 !! length (inflight w0)
    = Some (Mutate (SetBreakpoint location condition))).
  { subst w1. unfold setBreakpoint. simpl.
    rewrite invalidate_with_session by done. simpl. apply lookup_snoc. }
  destruct (setBreakpoint_success w1 _ location condition breakpointId
              Hrequest Hid) as (w2 & Hstep & Hb2 & Hjobs).
  assert (Hb1 : breakpoints (front w1) = breakpoints (front w0)).
  { subst w1. unfold setBreakpoint. simpl. apply invalidate_breakpoints. }
  rewrite Hb1 in Hb2.
  destruct (Map_set_keys (breakpoints (front w0)) breakpointId location)
    as (Hin & Hkeys & Hsub & Hkeep).
  assert (Hs2 : truthy_opt_string (sessionId (front w2)) = true).
  { simpl in Hstep. rewrite Hrequest in Hstep. simpl in Hstep.
    rewrite (proj2 (truthy_string_true breakpointId) Hid) in Hstep.
    injection Hstep as <-. simpl. subst w1. unfold setBreakpoint. simpl.
    by rewrite invalidate_sessionId. }
  assert (Hnd2 : uniqueIds w2).
  { unfold uniqueIds. rewrite Hb2. by apply Hkeys. }
  exists w2. split; [done|]. split; [by rewrite Hb2|]. split; [done|].
  destruct (removeBreakpoint_effect w2 sourceId line column Hnd2 Hs2)
    as (Hb3 & Hi3 & _ & _).
  cbv zeta in Hb3, Hi3.
  assert (Hloc : sameLocation location sourceId line column = true).
  { unfold sameLocation, location. simpl. by rewrite !bool_decide_eq_true_2. }
  split.
  - rewrite Hi3. apply elem_of_app. right.
    apply list_elem_of_fmap. exists (breakpointId, location). split; [done|].
    unfold installedAt. apply elem_of_Js_filter. split; [done|].
    by rewrite Hb2.
  - intros e. rewrite Hb3, elem_of_Js_filter, negb_true_iff, Hb2. split.
    + intros [Hmiss He]. destruct (Hsub e He) as [->|He0].
      * cbn [snd] in Hmiss. congruence.
      * split; [done|]. split; [|done]. intros Hk.
        assert (e = (breakpointId, location));
          [|subst e; cbn [snd] in Hmiss; congruence].
        assert (Hin2 : e ∈ Map_set (breakpoints (front w0)) breakpointId location)
          by done.
        apply list_elem_of_lookup in Hin as [i Hi].
        apply list_elem_of_lookup in Hin2 as [j Hj].
        assert (i = j); [|congruence].
        apply (NoDup_lookup (Map_set (breakpoints (front w0)) breakpointId location).*1
                 i j breakpointId); [by apply Hkeys| |].
        -- by rewrite list_lookup_fmap, Hi.
        -- rewrite list_lookup_fmap, Hj. simpl. by rewrite Hk.
    + intros (He & Hk & Hmiss). split; [done|]. by apply Hkeep.
Qed.

Lemma breakpoint_set_then_removed_witness :
  uniqueIds oneBreakpoint
  ∧ truthy_opt_string (sessionId (front oneBreakpoint)) = true
  ∧ "b2" ≠ ""
  ∧ ∃ w2,
      step (setBreakpoint oneBreakpoint "B" 7 0 None).1
        (Deliver (length (inflight oneBreakpoint)) (GotBreakpoint (Some "b2")))
      = Some w2
      ∧ ("b2", mkLocation "B" 7 0) ∈ breakpoints (front w2).
Proof.
  assert (Hnd : uniqueIds oneBreakpoint).
  { unfold uniqueIds. simpl. apply NoDup_singleton. }
  assert (Hs : truthy_opt_string (sessionId (front oneBreakpoint)) = true)
    by reflexivity.
  assert (Hid : "b2" ≠ "") by done.
  split; [exact Hnd|]. split; [exact Hs|]. split; [exact Hid|].
  destruct (breakpoint_set_then_removed oneBreakpoint "B" 7 0 None "b2"
              Hnd Hs Hid) as (w2 & Hstep & Hin & _).
  exists w2. split; [exact Hstep|exact Hin].
Defined.

(** ** One source for each group *)

Section OnePerGroup.

Import Registry.

Lemma chooseEach_picks r : ∀ groups cs,
  chooseEach r groups = Returned cs →
  Forall2 (λ g c, _chooseSourceId r g = Returned c) groups cs.
Proof.
  induction groups as [|g groups IH]; intros cs; simpl.
  - intros [= <-]. constructor.
  - destruct (_chooseSourceId r g) as [c|] eqn:Hc; [|done].
    destruct (chooseEach r groups) as [cs'|]; [|done].
    intros [= <-]. constructor; [done|]. by apply IH.
Qed.

Lemma chooseEach_failed r : ∀ groups,
  chooseEach r groups = AssertionFailed →
  ∃ g, g ∈ groups ∧ _chooseSourceId r g = AssertionFailed.
Proof.
  induction groups as [|g groups IH]; simpl; [done|].
  destruct (_chooseSourceId r g) as [c|] eqn:Hc.
  - destruct (chooseEach r groups) as [cs'|]; [done|].
    intros _. destruct IH as (g' & Hg' & Hfail); [done|].
    exists g'. split; [by right|done].
  - intros _. exists g. split; [left|done].
Qed.

Lemma picked_concat {A} (gs : list (list A)) (xs : list A) :
  Forall2 (λ g x, x ∈ g) gs xs → ∀ x, x ∈ xs → x ∈ concat gs.
Proof.
  induction 1 as [|g x' gs xs Hx' _ IH]; intros x Hin; simpl.
  - by apply elem_of_nil in Hin.
  - apply elem_of_app. apply elem_of_cons in Hin as [->|Hin]; [by left|].
    right. by apply IH.
Qed.

Lemma NoDup_picked {A} (gs : list (list A)) (xs : list A) :
  Forall2 (λ g x, x ∈ g) gs xs → NoDup (concat gs) → NoDup xs.
Proof.
  induction 1 as [|g x gs xs Hx Hrest IH]; simpl; [done|].
  rewrite NoDup_app. intros (_ & Hdisj & Hnd).
  apply NoDup_cons. split; [|by apply IH].
  intros Hin. apply (Hdisj x Hx). by apply (picked_concat gs xs).
Qed.

(** [_chooseSourceIdList] ends; when it returns, it has chosen one id
    from each group, so ids of the list, each at most once. *)
Lemma chooseSourceIdList_cases r ids :
  match _chooseSourceIdList r ids with
  | Done cs =>
      NoDup (sourceId <$> cs)
      ∧ (∀ c, c ∈ cs → sourceId c ∈ ids)
      ∧ ∃ groups,
          _groupSourceIds r ids = Done groups
          ∧ Forall2 (λ g c, _chooseSourceId r g = Returned c) groups cs
  | Failed =>
      (∃ x y, x ∈ ids ∧ rtc (pushed r) x y ∧ sources r !! y = None)
      ∨ (∃ groups g,
           _groupSourceIds r ids = Done groups
           ∧ g ∈ groups ∧ _chooseSourceId r g = AssertionFailed)
  | OutOfFuel => False
  end.
Proof.
  unfold _chooseSourceIdList.
  pose proof (groupLoop_cases r (S (length ids)) ids []) as Hcases.
  unfold _groupSourceIds.
  destruct (groupLoop (S (length ids)) r ids []) as [all| |].
  - destruct Hcases as (groups & -> & Hcover & Hnd & _); [lia|]. simpl.
    destruct (chooseEach r groups) as [cs|] eqn:Hcs.
    + apply chooseEach_picks in Hcs.
      assert (Hpicked : Forall2 (λ g c, sourceId c ∈ g) groups cs).
      { eapply Forall2_impl; [exact Hcs|]. intros g c Hc. simpl in Hc.
        by destruct (chooseSourceId_eligible r g c Hc) as [[? _] _]. }
      split; [|split].
      * apply (NoDup_picked groups); [|done].
        by apply Forall2_fmap_r.
      * intros c Hc. apply list_elem_of_lookup in Hc as [i Hi].
        destruct (Forall2_lookup_r _ _ _ _ _ Hpicked Hi) as (g & Hg & Hin).
        apply Hcover. exists g. split; [|done].
        by eapply list_elem_of_lookup_2.
      * exists groups. done.
    + right. apply chooseEach_failed in Hcs as (g & Hg & Hfail).
      exists groups, g. done.
  - left. apply Hcases. lia.
  - apply Hcases. lia.
Qed.

Lemma chooseSourceIdList_nil r : _chooseSourceIdList r [] = Done [].
Proof. reflexivity. Qed.


End OnePerGroup.

(** X8: [_chooseSourceIdList] always ends.  When it returns, it has
    chosen one id from each group of [_groupSourceIds]; the chosen ids
    are ids of the list that was given and no id is chosen twice.  It
    fails when an id of the list reaches an unregistered id, or when
    [_chooseSourceId] fails on one of the groups. *)
Theorem chooseSourceIdList_one_per_group (r : Registry.t)
    (ids : list SourceId) :
  match Registry._chooseSourceIdList r ids with
  | Done cs =>
      NoDup (Registry.sourceId <$> cs)
      ∧ (∀ c, c ∈ cs → Registry.sourceId c ∈ ids)
      ∧ ∃ groups,
          Registry._groupSourceIds r ids = Done groups
          ∧ Forall2 (λ g c, Registry._chooseSourceId r g = Returned c) groups cs
  | Failed =>
      (∃ x y, x ∈ ids ∧ rtc (pushed r) x y ∧ Registry.sources r !! y = None)
      ∨ (∃ groups g,
           Registry._groupSourceIds r ids = Done groups
           ∧ g ∈ groups ∧ Registry._chooseSourceId r g = AssertionFailed)
  | OutOfFuel => False
  end.
Proof. apply chooseSourceIdList_cases. Qed.

Section ByURLBreakpoints.

Import Registry.



End ByURLBreakpoints.





(** ** The books of the coordinator, turn by turn *)

Section Books.

Lemma count_app {A} (p : A → bool) (xs ys : list A) :
  length (Js.filter p (xs ++ ys))
  = (length (Js.filter p xs) + length (Js.filter p ys))%nat.
Proof. by rewrite Js_filter_app, length_app. Qed.

Lemma count_delete_other {A} (p : A → bool) (xs : list A) (i : nat) (x : A) :
  xs !! i = Some x → p x = false →
  length (Js.filter p (delete i xs)) = length (Js.filter p xs).
Proof. intros Hi Hp. by rewrite (Js_filter_delete_other p xs i x). Qed.

Lemma count_delete_hit {A} (p : A → bool) (xs : list A) (i : nat) (x : A) :
  xs !! i = Some x → p x = true →
  length (Js.filter p xs) = S (length (Js.filter p (delete i xs))).
Proof.
  revert i. induction xs as [|y xs IH]; intros [|i]; simpl; try done.
  - by intros [= ->] ->.
  - intros Hi Hp. destruct (p y); simpl; by rewrite (IH i Hi Hp).
Qed.

(** Two worlds with the same books. *)
Lemma ledger_ext w w' :
  breakpoints (front w') = breakpoints (front w) →
  allPauses (front w') = allPauses (front w) →
  numPendingInvalidateCommands (front w')
  = numPendingInvalidateCommands (front w) →
  invalidateCommandWaiters (front w') = invalidateCommandWaiters (front w) →
  created w' = created w →
  deferreds w' = deferreds w →
  released w' = released w →
  length (Js.filter isMutate (inflight w'))
  = length (Js.filter isMutate (inflight w)) →
  length (Js.filter isFinally (jobs w'))
  = length (Js.filter isFinally (jobs w)) →
  initialized w' = initialized w →
  length (activations w') = length (activations w) →
  length (Js.filter isResumed (emitted w'))
  = length (Js.filter isResumed (emitted w)) →
  ledger w' = ledger w.
Proof. unfold ledger. by intros -> -> -> -> -> -> -> -> -> -> -> ->. Qed.

Lemma ledger_await w point command awaiting :
  ledger (awaitFindResumeTarget w point command awaiting) = ledger w.
Proof.
  unfold awaitFindResumeTarget.
  destruct (_findResumeTarget_begin _ _ _); [| |done];
    apply ledger_ext; simpl; rewrite ?count_app; simpl; lia || done.
Qed.

Lemma ledger_forEach_await {A} (commands : list A)
    (point : A → ExecutionPoint) (command : A → FindTargetCommand)
    (awaiting : A → Awaiting) w :
  ledger
    (fold_left
       (λ w c, awaitFindResumeTarget w (point c) (command c) (awaiting c))
       commands w)
  = ledger w.
Proof.
  revert w. induction commands as [|c commands IH]; intros w; simpl; [done|].
  by rewrite IH, ledger_await.
Qed.

Lemma ledger_precache w : ledger (_precacheResumeTargets w) = ledger w.
Proof.
  unfold _precacheResumeTargets. destruct (negb _); [done|].
  apply (ledger_forEach_await stepCommands
           (λ _, currentPoint (front w)) fst
           (λ step, InPrecache (currentPoint (front w))
                      (resumeTargetEpoch (front w)) step.2)).
Qed.

Lemma ledger_timeWarp w point time hasFrames force :
  ledger (timeWarp w point time hasFrames force) = ledger w.
Proof.
  unfold timeWarp. rewrite ledger_precache.
  apply ledger_ext; simpl; rewrite ?count_app; simpl; lia || done.
Qed.

Lemma ledger_timeWarpToPause w pause :
  ledger (orUnchanged w (timeWarpToPause w pause)) = ledger w.
Proof.
  unfold timeWarpToPause. destruct (negb _); simpl; [done|].
  rewrite ledger_precache.
  apply ledger_ext; simpl; rewrite ?count_app; simpl; lia || done.
Qed.

Lemma ledger_invalidate w callback :
  booking (ledger w) (ledger (_invalidateResumeTargets w callback)).
Proof.
  unfold _invalidateResumeTargets, callback_begin. simpl.
  destruct (truthy_opt_string (sessionId (front w))).
  - replace (ledger (send _ _)) with
      (mkLedger (l_breakpoints (ledger w)) (l_allPauses (ledger w))
         (l_created (ledger w)) (l_pending (ledger w) + 1)
         (l_waiters (ledger w)) (l_deferreds (ledger w))
         (l_released (ledger w)) (S (l_mutations (ledger w)))
         (l_finallys (ledger w)) (l_initialized (ledger w))
         (l_activations (ledger w)) (l_resumed (ledger w))).
    + constructor.
    + unfold ledger. simpl. rewrite count_app. simpl. f_equal. lia.
  - replace (ledger (enqueue _ _)) with
      (mkLedger (l_breakpoints (ledger w)) (l_allPauses (ledger w))
         (l_created (ledger w)) (l_pending (ledger w) + 1)
         (l_waiters (ledger w)) (l_deferreds (ledger w))
         (l_released (ledger w)) (l_mutations (ledger w))
         (S (l_finallys (ledger w))) (l_initialized (ledger w))
         (l_activations (ledger w)) (l_resumed (ledger w))).
    + constructor.
    + unfold ledger. simpl. rewrite count_app. simpl. f_equal. lia.
Qed.

Lemma ledger_removeBreakpoint w sourceId line column :
  rtc booking (ledger w) (ledger (removeBreakpoint w sourceId line column)).
Proof.
  unfold removeBreakpoint.
  generalize (breakpoints (front w)) as visited. intros visited. revert w.
  induction visited as [|e visited IH]; intros w; simpl; [done|].
  destruct (sameLocation e.2 sourceId line column); [|apply IH].
  eapply rtc_l; [apply (breakpoint_deleted _ e.1)|].
  eapply rtc_l; [|apply IH].
  match goal with
  | |- booking ?l (ledger (_invalidateResumeTargets ?w1 _)) =>
      change l with (ledger w1)
  end.
  apply ledger_invalidate.
Qed.

Lemma ledger_ensurePause w point time w' pause :
  ensurePause w point time = Returned (w', pause) →
  rtc booking (ledger w) (ledger w').
Proof.
  unfold ensurePause. destruct (negb _); [done|].
  destruct (allPauses (front w) !! point) eqn:Hpoint.
  - by intros [= <- <-].
  - intros [= <- <-]. apply rtc_once.
    apply (pause_built (ledger w) point time). done.
Qed.

Lemma ledger_ensurePause_ w point time w' :
  ensurePause_ w point time = Some w' → rtc booking (ledger w) (ledger w').
Proof.
  unfold ensurePause_.
  destruct (ensurePause w point time) as [[w'' pause]|] eqn:He; [|done].
  intros [= <-]. by eapply ledger_ensurePause.
Qed.

Lemma ledger_ensureCurrentPause w :
  rtc booking (ledger w) (ledger (orUnchanged w (ensureCurrentPause w))).
Proof.
  unfold ensureCurrentPause.
  destruct (currentPause (front w)); simpl; [done|].
  destruct (ensurePause w _ _) as [[w1 pause]|] eqn:He; simpl; [|done].
  apply ledger_ensurePause in He.
  replace (ledger (set_front w1 _)) with (ledger w1); [done|].
  symmetry. by apply ledger_ext.
Qed.

Lemma ledger_getFrames w :
  rtc booking (ledger w)
    (ledger
       (orUnchanged w
          (match getFrames w with
           | Returned (w', _) => Returned w'
           | AssertionFailed => AssertionFailed
           end))).
Proof.
  unfold getFrames. destruct (negb _); simpl; [done|].
  pose proof (ledger_ensureCurrentPause w) as Hl.
  destruct (ensureCurrentPause w) as [w1|]; simpl in *; [|done].
  by destruct (currentPause (front w1)).
Qed.

Lemma ledger_wait w :
  rtc booking (ledger w) (ledger (waitForInvalidateCommandsToFinish w).1).
Proof.
  unfold waitForInvalidateCommandsToFinish.
  destruct (bool_decide_reflect (numPendingInvalidateCommands (front w) = 0));
    simpl; [done|].
  apply rtc_once. by apply (waiter_added (ledger w)).
Qed.

Lemma ledger_warpToTarget w a : ledger (warpToTarget w a) = ledger w.
Proof.
  unfold warpToTarget.
  destruct (activations w !! a) as [[resumed [target|]]|]; try done.
  apply ledger_timeWarp.
Qed.

Lemma ledger_emitResumed w a :
  rtc booking (ledger w) (ledger (emitResumed w a)).
Proof.
  unfold emitResumed.
  destruct (activations w !! a) as [locals|] eqn:Ha; [|done].
  apply rtc_once.
  assert (Hsome : l_activations (ledger w) ≠ 0%nat).
  { simpl. apply lookup_lt_Some in Ha. lia. }
  pose proof (resumed_emitted (ledger w) Hsome) as Hbooked.
  match goal with
  | H : booking _ ?l |- booking _ ?l' => replace l' with l; [exact H|]
  end.
  destruct (bool_decide _); unfold ledger; simpl;
    rewrite count_app, length_insert; simpl; f_equal; lia.
Qed.

Lemma ledger_resumeOperation_found w a target :
  ledger (_resumeOperation_found w a target) = ledger w.
Proof.
  unfold _resumeOperation_found.
  destruct (activations w !! a) as [locals|]; [|done].
  destruct (resumeEmitted locals); [rewrite ledger_warpToTarget|];
    apply ledger_ext; simpl; rewrite ?length_insert; done.
Qed.

Lemma ledger_resumeOperation_start w command selectedPoint :
  initialized w = true →
  rtc booking (ledger w) (ledger (_resumeOperation_start w command selectedPoint)).
Proof.
  intros Hinit. unfold _resumeOperation_start. rewrite ledger_await.
  apply rtc_once.
  pose proof (operation_started (ledger w) Hinit) as Hbooked.
  match goal with
  | H : booking _ ?l |- booking _ ?l' => replace l' with l; [exact H|]
  end.
  unfold ledger. simpl. rewrite length_app. simpl. f_equal. lia.
Qed.

Lemma ledger_precache_found w point epoch transitive target :
  rtc booking (ledger w) (ledger (precache_found w point epoch transitive target)).
Proof.
  unfold precache_found. destruct (_ || _); [done|].
  destruct (ensurePause_ w _ _) as [w1|] eqn:He; [|done].
  apply ledger_ensurePause_ in He.
  destruct (negb _); [done|].
  by rewrite (ledger_forEach_await transitive (λ _, pd_point target) id
                (λ _, InTransitive point epoch)).
Qed.

Lemma ledger_transitive_found w point epoch target :
  rtc booking (ledger w) (ledger (transitive_found w point epoch target)).
Proof.
  unfold transitive_found. destruct (_ || _); [done|].
  destruct (ensurePause_ w _ _) as [w1|] eqn:He; simpl; [|done].
  by apply ledger_ensurePause_ in He.
Qed.

Lemma ledger_finally w n :
  l_finallys (ledger w) = S n →
  ∀ w1,
    ledger w1
    = mkLedger (l_breakpoints (ledger w)) (l_allPauses (ledger w))
        (l_created (ledger w)) (l_pending (ledger w)) (l_waiters (ledger w))
        (l_deferreds (ledger w)) (l_released (ledger w))
        (l_mutations (ledger w)) n (l_initialized (ledger w))
        (l_activations (ledger w)) (l_resumed (ledger w)) →
    front w1 = front w → released w1 = released w →
    booking (ledger w) (ledger (_invalidateResumeTargets_finally w1)).
Proof.
  intros Hn w1 Hw1 Hfront Hreleased.
  pose proof (finally_ran (ledger w) n Hn) as Hbooked.
  match goal with
  | H : booking _ ?l |- booking _ ?l' => replace l' with l; [exact H|]
  end.
  unfold _invalidateResumeTargets_finally. rewrite Hfront.
  change (l_pending (ledger w)) with (numPendingInvalidateCommands (front w)).
  destruct (bool_decide _).
  - rewrite ledger_precache.
    injection Hw1 as Hb Ha Hc Hp Hws Hd Hr Hm Hf Hi Hact Hres.
    unfold ledger, resolveAll. simpl. rewrite Hreleased.
    f_equal; try done.
  - injection Hw1 as Hb Ha Hc Hp Hws Hd Hr Hm Hf Hi Hact Hres.
    unfold ledger. simpl. f_equal; try done.
Qed.

End Books.

Section Turns.

Ltac same_books :=
  match goal with
  | |- rtc booking (ledger ?w) (ledger ?x) =>
      replace (ledger x) with (ledger w); [apply rtc_refl|symmetry]
  end.

Lemma ledger_callback_resume w i callback reply w' :
  inflight w !! i = Some (Mutate callback) →
  callback_resume (set_inflight w (delete i (inflight w))) callback reply
  = Some w' →
  rtc booking (ledger w) (ledger w').
Proof.
  intros Hi Hresume.
  pose proof (count_delete_hit isMutate (inflight w) i _ Hi eq_refl) as Hcount.
  set (n := length (Js.filter isMutate (delete i (inflight w)))) in *.
  assert (Hanswered : ∀ l,
    l_mutations l = l_mutations (ledger w) →
    booking l
      (mkLedger (l_breakpoints l) (l_allPauses l) (l_created l)
         (l_pending l) (l_waiters l) (l_deferreds l) (l_released l)
         n (S (l_finallys l)) (l_initialized l)
         (l_activations l) (l_resumed l))).
  { intros l Hl. apply mutation_answered. by rewrite Hl. }
  assert (Hplain : ∀ outcome,
    rtc booking (ledger w)
      (ledger (enqueue (set_inflight w (delete i (inflight w))) (Finally outcome)))).
  { intros outcome. apply rtc_once.
    pose proof (Hanswered (ledger w) eq_refl) as Hbooked.
    match goal with
    | H : booking _ ?l |- booking _ ?l' => replace l' with l; [exact H|]
    end.
    unfold ledger. simpl. rewrite count_app. simpl. f_equal. lia. }
  unfold callback_resume in Hresume.
  destruct reply as [target|breakpointId| |].
  - done.
  - destruct callback as [location condition| | |]; try done.
    injection Hresume as <-.
    destruct (truthy_opt_string breakpointId); [|apply Hplain].
    eapply rtc_l;
      [apply (breakpoint_set (ledger w) (default "" breakpointId) location)|].
    apply rtc_once.
    match goal with
    | |- booking ?l _ => pose proof (Hanswered l eq_refl) as Hbooked
    end.
    match goal with
    | H : booking _ ?l |- booking _ ?l' => replace l' with l; [exact H|]
    end.
    unfold ledger. simpl. rewrite count_app. simpl. f_equal. lia.
  - destruct callback; try done; injection Hresume as <-; apply Hplain.
  - injection Hresume as <-. apply Hplain.
Qed.

Lemma ledger_deliver w i r reply w' :
  inflight w !! i = Some r →
  deliver (set_inflight w (delete i (inflight w))) r reply = Some w' →
  rtc booking (ledger w) (ledger w').
Proof.
  intros Hi Hdeliver. destruct r as [command point key epoch awaiting|callback].
  - pose proof (count_delete_other isMutate (inflight w) i _ Hi eq_refl) as Hcount.
    simpl in Hdeliver. destruct reply as [target| | |]; try done.
    + injection Hdeliver as <-. same_books.
      apply ledger_ext; simpl; rewrite ?count_app; simpl;
        try (by destruct (bool_decide _)); lia || done.
    + injection Hdeliver as <-. same_books. by apply ledger_ext.
  - by eapply ledger_callback_resume.
Qed.

Lemma ledger_runJob w i j w' :
  jobs w !! i = Some j →
  runJob (set_jobs w (delete i (jobs w))) j = Some w' →
  rtc booking (ledger w) (ledger w').
Proof.
  intros Hi Hrun.
  set (w1 := set_jobs w (delete i (jobs w))) in *.
  assert (Hother : isFinally j = false → ledger w1 = ledger w).
  { intros Hj. apply ledger_ext; try done. simpl.
    by apply (count_delete_other isFinally (jobs w) i j). }
  destruct j as [awaiting target|outcome|command selectedPoint|point];
    simpl in Hrun.
  - rewrite <- Hother by done.
    destruct awaiting as [a|point epoch transitive|point epoch|];
      injection Hrun as <-.
    + by rewrite ledger_resumeOperation_found.
    + apply ledger_precache_found.
    + apply ledger_transitive_found.
    + done.
  - injection Hrun as <-. apply rtc_once.
    pose proof (count_delete_hit isFinally (jobs w) i _ Hi eq_refl) as Hcount.
    by apply (ledger_finally w _ Hcount).
  - rewrite <- Hother by done.
    destruct (initialized w) eqn:Hinit; [|done]. injection Hrun as <-.
    by apply ledger_resumeOperation_start.
  - rewrite <- Hother by done.
    destruct (initialized w); [|done]. injection Hrun as <-.
    by rewrite ledger_await.
Qed.

Lemma ledger_fireTimer w i t :
  rtc booking (ledger w) (ledger (fireTimer (set_timers w (delete i (timers w))) t)).
Proof.
  change (ledger w) with (ledger (set_timers w (delete i (timers w)))).
  destruct t as [a|a]; simpl.
  - apply ledger_emitResumed.
  - by rewrite ledger_warpToTarget.
Qed.

(** What one turn enters in the books. *)
Lemma step_ledger w a w' :
  step w a = Some w' → bookings a (ledger w) (ledger w').
Proof.
  destruct a; simpl.
  - intros [= <-]. by rewrite ledger_timeWarp.
  - intros [= <-]. by rewrite ledger_timeWarpToPause.
  - intros [= <-]. apply rtc_once, ledger_invalidate.
  - intros [= <-]. apply ledger_removeBreakpoint.
  - intros [= <-]. apply rtc_once, ledger_invalidate.
  - intros [= <-]. apply rtc_once, ledger_invalidate.
  - intros [= <-]. same_books.
    apply ledger_ext; simpl; rewrite ?count_app; simpl; lia || done.
  - intros [= <-]. same_books.
    apply ledger_ext; simpl; rewrite ?count_app; simpl; lia || done.
  - intros [= <-]. apply ledger_wait.
  - intros [= <-]. apply ledger_getFrames.
  - intros [= <-]. apply ledger_ensureCurrentPause.
  - intros [= <-]. done.
  - intros [= <-].
    destruct (Registry.preferSource _ _ _); simpl; done.
  - intros [= <-]. done.
  - intros [= <-]. done.
  - intros [= <-]. done.
  - destruct (inflight w !! i) as [r|] eqn:Hi; [|done].
    by apply ledger_deliver.
  - destruct (jobs w !! i) as [j|] eqn:Hi; [|done].
    by apply ledger_runJob.
  - destruct (timers w !! i) as [t|] eqn:Hi; [|done].
    intros [= <-]. apply ledger_fireTimer.
Qed.

End Turns.

(** ** What the books always show *)

Section Balance.

Lemma booking_balanced l l' : booking l l' → balanced l → balanced l'.
Proof.
  intros Hbooked (Hids & Hpauses & [Hcount Hnone] & [Hnd Hall]).
  destruct Hbooked as [| |k|k v|n Hn|n Hn|Hpending|point time Hfresh|Hinit|Hact];
    unfold balanced, pausesKept, pendingCounted, waitersAccounted; simpl.
  - repeat split; try done; try apply Hall; lia.
  - repeat split; try done; try apply Hall; lia.
  - repeat split; try done; try apply Hall.
    unfold Map_delete. by apply uniqueIds_filter.
  - repeat split; try done; try apply Hall.
    by apply Map_set_keys.
  - repeat split; try done; try apply Hall. lia.
  - destruct (bool_decide_reflect (l_pending l - 1 = 0)) as [Hzero|Hmore]; simpl.
    + repeat split; try done; try lia.
      * apply NoDup_app in Hnd as (Hw & Hdisj & Hr).
        apply NoDup_app. repeat split; [done| |done].
        intros d Hd Hd'. by apply (Hdisj d).
      * intros Hd. apply Hall in Hd. rewrite elem_of_app. tauto.
      * intros [Hd|Hd]; [by apply elem_of_nil in Hd|].
        apply Hall. rewrite elem_of_app in Hd. tauto.
    + repeat split; try done; try apply Hall; lia.
  - repeat split; try done; try lia.
    + rewrite <- app_assoc. apply NoDup_app in Hnd as (Hw & Hdisj & Hr).
      apply NoDup_app. repeat split; [done| |].
      * intros d Hd Hd'. apply elem_of_cons in Hd' as [->|Hd'].
        -- assert (l_deferreds l < l_deferreds l)%nat; [|lia].
           apply Hall. by left.
        -- by apply (Hdisj d).
      * apply NoDup_cons. split; [|done]. intros Hd.
        assert (l_deferreds l < l_deferreds l)%nat; [|lia].
        apply Hall. by right.
    + intros Hd. rewrite elem_of_app, list_elem_of_singleton.
      destruct (decide (d = l_deferreds l)) as [->|Hne]; [left; by right|].
      assert (Hlt : (d < l_deferreds l)%nat) by lia.
      apply Hall in Hlt. tauto.
    + rewrite elem_of_app, list_elem_of_singleton.
      intros [[Hd| ->]|Hd]; [|lia|].
      * assert (d < l_deferreds l)%nat; [|lia]. apply Hall. by left.
      * assert (d < l_deferreds l)%nat; [|lia]. apply Hall. by right.
  - repeat split; try done; try apply Hall.
    intros point' pause Hlookup.
    destruct (decide (point' = point)) as [->|Hne].
    + rewrite lookup_insert_eq in Hlookup. injection Hlookup as <-.
      exists (length (l_created l)), time. split; [done|]. apply lookup_snoc.
    + rewrite lookup_insert_ne in Hlookup by done.
      destruct (Hpauses point' pause Hlookup) as (i & time' & -> & Hi).
      exists i, time'. split; [done|]. by apply lookup_app_l_Some.
  - repeat split; try done; apply Hall.
  - repeat split; try done; apply Hall.
Qed.

Lemma rtc_booking_balanced l l' : rtc booking l l' → balanced l → balanced l'.
Proof.
  induction 1 as [|l1 l2 l3 H12 _ IH]; [done|].
  intros Hbalanced. apply IH. by eapply booking_balanced.
Qed.

Lemma bookings_balanced a l l' : bookings a l l' → balanced l → balanced l'.
Proof.
  intros Hbooked Hbalanced.
  destruct a; try by apply (rtc_booking_balanced l l').
  simpl in Hbooked. subst l'. exact Hbalanced.
Qed.

Lemma balanced_run actions : ∀ w w',
  run w actions = Some w' → balanced (ledger w) → balanced (ledger w').
Proof.
  induction actions as [|a actions IH]; intros w w'; simpl.
  - by intros [= <-].
  - destruct (step w a) as [w1|] eqn:Hstep; [|done].
    intros Hrun Hbalanced. apply (IH w1); [done|].
    eapply bookings_balanced; [|done]. by apply step_ledger.
Qed.

Lemma balanced_initial : balanced (ledger initialWorld).
Proof.
  unfold balanced, pausesKept, pendingCounted, waitersAccounted. simpl.
  repeat split; try done; try apply NoDup_nil_2.
  - lia.
  - intros [Hd|Hd]; by apply elem_of_nil in Hd.
Qed.

Lemma balanced_reachable actions w :
  run initialWorld actions = Some w → balanced (ledger w).
Proof. intros Hrun. eapply balanced_run; [done|apply balanced_initial]. Qed.

(** Pauses are only ever added. *)
Lemma booking_grows l l' :
  booking l l' →
  l_created l `prefix_of` l_created l' ∧ l_allPauses l ⊆ l_allPauses l'.
Proof.
  destruct 1 as [| |k|k v|n Hn|n Hn|Hpending|point time Hfresh|Hinit|Hact];
    simpl; try done.
  - by destruct (bool_decide _).
  - split; [by apply prefix_app_r|by apply insert_subseteq].
Qed.

Lemma rtc_booking_grows l l' :
  rtc booking l l' →
  l_created l `prefix_of` l_created l' ∧ l_allPauses l ⊆ l_allPauses l'.
Proof.
  induction 1 as [|l1 l2 l3 H12 _ [IHc IHa]]; [done|].
  apply booking_grows in H12 as [Hc Ha].
  split; by etrans.
Qed.

Lemma bookings_grow a l l' :
  bookings a l l' →
  l_created l `prefix_of` l_created l' ∧ l_allPauses l ⊆ l_allPauses l'.
Proof.
  intros Hbooked.
  destruct a; try by apply rtc_booking_grows.
  simpl in Hbooked. by subst l'.
Qed.

Lemma pauses_grow_run actions : ∀ w w',
  run w actions = Some w' →
  created w `prefix_of` created w' ∧ allPauses (front w) ⊆ allPauses (front w').
Proof.
  induction actions as [|a actions IH]; intros w w'; simpl.
  - by intros [= <-].
  - destruct (step w a) as [w1|] eqn:Hstep; [|done].
    intros Hrun. destruct (IH w1 w' Hrun) as [Hc Ha].
    apply step_ledger, bookings_grow in Hstep as [Hc1 Ha1]. simpl in *.
    split; by etrans.
Qed.

(** Before initialization no operation starts and nothing is resumed. *)
Lemma booking_dormant l l' :
  booking l l' → dormant l → dormant l' ∧ l_resumed l' = l_resumed l.
Proof.
  intros Hbooked [Hinit Hnone].
  destruct Hbooked as [| |k|k v|n Hn|n Hn|Hpending|point time Hfresh|Hinit'|Hact];
    unfold dormant; simpl; try done.
  - by destruct (bool_decide _).
  - congruence.
Qed.

Lemma rtc_booking_dormant l l' :
  rtc booking l l' → dormant l → dormant l' ∧ l_resumed l' = l_resumed l.
Proof.
  induction 1 as [|l1 l2 l3 H12 _ IH]; [done|].
  intros Hdormant.
  destruct (booking_dormant l1 l2 H12 Hdormant) as [Hd2 Hr2].
  destruct (IH Hd2) as [Hd3 Hr3]. split; [done|congruence].
Qed.

Lemma dormant_run actions : ∀ w w',
  run w actions = Some w' → ResolveInitialized ∉ actions →
  dormant (ledger w) →
  dormant (ledger w') ∧ l_resumed (ledger w') = l_resumed (ledger w).
Proof.
  induction actions as [|a actions IH]; intros w w'; simpl.
  - by intros [= <-].
  - destruct (step w a) as [w1|] eqn:Hstep; [|done].
    intros Hrun Hnever Hdormant.
    assert (Hstep1 : dormant (ledger w1)
                     ∧ l_resumed (ledger w1) = l_resumed (ledger w)).
    { apply step_ledger in Hstep.
      apply rtc_booking_dormant; [|done].
      destruct a; try done. exfalso. apply Hnever. left. }
    destruct Hstep1 as [Hd1 Hr1].
    destruct (IH w1 w' Hrun) as [Hd Hr]; [|done|].
    + intros Hin. apply Hnever. by right.
    + split; [done|]. etrans; [exact Hr|exact Hr1].
Qed.

End Balance.

(** X11: in every state the coordinator can get into,
    [numPendingInvalidateCommands] is the number of mutations under way:
    the mutation commands that are in flight plus the [finally] blocks of
    [_invalidateResumeTargets] that are yet to run.  So the counter never
    goes below zero, and nobody is left waiting in
    [invalidateCommandWaiters] when it is zero. *)
Theorem pending_counter_counts_mutations (actions : list Action)
    (w : World) :
  run initialWorld actions = Some w →
  numPendingInvalidateCommands (front w)
  = Z.of_nat
      (length (Js.filter isMutate (inflight w))
       + length (Js.filter isFinally (jobs w)))
  ∧ (0 ≤ numPendingInvalidateCommands (front w))%Z
  ∧ (numPendingInvalidateCommands (front w) = 0 →
     invalidateCommandWaiters (front w) = []).
Proof.
  intros Hrun.
  destruct (balanced_reachable actions w Hrun) as (_ & _ & [Hcount Hnone] & _).
  simpl in Hcount, Hnone. split; [done|]. split; [lia|done].
Qed.

Lemma pending_counter_counts_mutations_witness :
  ∃ w, run initialWorld busyRun = Some w
       ∧ (0 ≤ numPendingInvalidateCommands (front w))%Z.
Proof.
  destruct (run initialWorld busyRun) as [w|] eqn:Hrun;
    [|by vm_compute in Hrun].
  exists w. split; [reflexivity|].
  exact (proj1 (proj2 (pending_counter_counts_mutations busyRun w Hrun))).
Defined.

(** X12: in every state the coordinator can get into, each deferred that
    [waitForInvalidateCommandsToFinish] has made is either still in
    [invalidateCommandWaiters] or has been resolved: none is dropped, none
    is resolved twice, none is resolved and still waiting. *)
Theorem waiters_are_resolved_or_waiting (actions : list Action)
    (w : World) :
  run initialWorld actions = Some w →
  NoDup (invalidateCommandWaiters (front w) ++ released w)
  ∧ ∀ d, (d < deferreds w)%nat
         ↔ d ∈ invalidateCommandWaiters (front w) ∨ d ∈ released w.
Proof.
  intros Hrun.
  by destruct (balanced_reachable actions w Hrun) as (_ & _ & _ & Hwaiters).
Qed.

Lemma waiters_are_resolved_or_waiting_witness :
  ∃ w, run initialWorld busyRun = Some w
       ∧ NoDup (invalidateCommandWaiters (front w) ++ released w).
Proof.
  destruct (run initialWorld busyRun) as [w|] eqn:Hrun;
    [|by vm_compute in Hrun].
  exists w. split; [reflexivity|].
  exact (proj1 (waiters_are_resolved_or_waiting busyRun w Hrun)).
Defined.

(** X13: in every state the coordinator can get into, [allPauses]
    holds, for each point, a Pause that [ensurePause] built for that very
    point, and no Pause is kept under two points: there is one Pause for
    each point. *)
Theorem one_pause_for_each_point (actions : list Action) (w : World) :
  run initialWorld actions = Some w →
  (∀ point pause,
     allPauses (front w) !! point = Some pause →
     ∃ i time, pause = OwnPause i ∧ created w !! i = Some (point, time))
  ∧ (∀ point1 point2 pause,
       allPauses (front w) !! point1 = Some pause →
       allPauses (front w) !! point2 = Some pause →
       point1 = point2).
Proof.
  intros Hrun.
  destruct (balanced_reachable actions w Hrun) as (_ & Hkept & _).
  split; [exact Hkept|].
  intros point1 point2 pause H1 H2.
  destruct (Hkept point1 pause H1) as (i & time1 & -> & Hi).
  destruct (Hkept point2 _ H2) as (j & time2 & [= <-] & Hj).
  simpl in Hi, Hj. congruence.
Qed.

Lemma one_pause_for_each_point_witness :
  ∃ w, run initialWorld busyRun = Some w
       ∧ ∀ point pause,
           allPauses (front w) !! point = Some pause →
           ∃ i time, pause = OwnPause i ∧ created w !! i = Some (point, time).
Proof.
  destruct (run initialWorld busyRun) as [w|] eqn:Hrun;
    [|by vm_compute in Hrun].
  exists w. split; [reflexivity|].
  exact (proj1 (one_pause_for_each_point busyRun w Hrun)).
Defined.

(** X14: a Pause is kept for good.  Once [ensurePause] has returned a
    Pause for a point, whatever the coordinator does afterwards, every
    later [ensurePause] for that point (made with a session) returns the
    same Pause and builds none, whatever time it is called with. *)
Theorem ensurePause_keeps_the_pause_for_good (w w1 w2 : World)
    (point : ExecutionPoint) (time time' : TimeStamp) (pause : PauseRef)
    (actions : list Action) :
  ensurePause w point time = Returned (w1, pause) →
  run w1 actions = Some w2 →
  truthy_opt_string (sessionId (front w2)) = true →
  ensurePause w2 point time' = Returned (w2, pause).
Proof.
  intros Hensure Hrun Hsession.
  assert (Hkept : allPauses (front w1) !! point = Some pause).
  { unfold ensurePause in Hensure. destruct (negb _); [done|].
    destruct (allPauses (front w) !! point) eqn:Hpoint.
    - by injection Hensure as <- <-.
    - injection Hensure as <- <-. simpl. apply lookup_insert_eq. }
  destruct (pauses_grow_run actions w1 w2 Hrun) as [_ Hsub].
  unfold ensurePause. rewrite Hsession. simpl.
  by rewrite (lookup_weaken _ _ _ _ Hkept Hsub).
Qed.

Lemma ensurePause_keeps_the_pause_for_good_witness :
  ∃ w1 w2,
    ensurePause (set_front initialWorld (set_sessionId initialThreadFront (Some "s")))
      "10" 100
    = Returned (w1, OwnPause 0)
    ∧ run w1 [CallTimeWarp "20" 200 (Some true) None; CallGetFrames] = Some w2
    ∧ truthy_opt_string (sessionId (front w2)) = true
    ∧ ensurePause w2 "10" 0 = Returned (w2, OwnPause 0).
Proof.
  destruct (ensurePause
              (set_front initialWorld (set_sessionId initialThreadFront (Some "s")))
              "10" 100) as [[w1 pause]|] eqn:Hensure;
    [|by vm_compute in Hensure].
  assert (Hpause : pause = OwnPause 0).
  { vm_compute in Hensure. by injection Hensure as _ <-. }
  subst pause.
  destruct (run w1 [CallTimeWarp "20" 200 (Some true) None; CallGetFrames])
    as [w2|] eqn:Hrun.
  2:{ vm_compute in Hensure. injection Hensure as <-.
      by vm_compute in Hrun. }
  assert (Hsession : truthy_opt_string (sessionId (front w2)) = true).
  { vm_compute in Hensure. injection Hensure as <-.
    vm_compute in Hrun. by injection Hrun as <-. }
  exists w1, w2. split; [reflexivity|]. split; [exact Hrun|].
  split; [exact Hsession|].
  exact (ensurePause_keeps_the_pause_for_good _ w1 w2 "10" 100 0 (OwnPause 0)
           _ Hensure Hrun Hsession).
Defined.

(** X15: the initialization barrier.  As long as [initializedWaiter] has
    not been resolved, whatever is called and whichever replies arrive, no
    [_resumeOperation] gets past its first [await]: no activation exists,
    no timer is set, no [resumed] event is emitted and no resume target is
    asked for on behalf of a resume operation. *)
Theorem nothing_resumes_before_initialization (actions : list Action)
    (w : World) :
  run initialWorld actions = Some w →
  ResolveInitialized ∉ actions →
  activations w = [] ∧ timers w = []
  ∧ (∀ e, e ∈ emitted w → event e ≠ Resumed)
  ∧ (∀ r a, r ∈ inflight w → ownsRequest a r = false).
Proof.
  intros Hrun Hnever.
  destruct (dormant_run actions initialWorld w Hrun Hnever) as [[_ Hnone] Hres];
    [done|].
  simpl in Hnone, Hres. apply length_zero_iff_nil in Hnone.
  pose proof (wellFormed_reachable actions w Hrun) as Hwf.
  assert (Hquiet : ∀ a, timersOf a w = [] ∧ requestsOf a w = [] ∧ jobsOf a w = []).
  { intros a. apply Hwf. rewrite Hnone. simpl. lia. }
  split; [done|]. split; [|split].
  - destruct (timers w) as [|t ts] eqn:Ht; [done|]. exfalso.
    assert (Hin : t ∈ timers w) by (rewrite Ht; left).
    destruct t as [a|a]; destruct (Hquiet a) as (Hta & _);
      (assert (Hown : EmitResumed a ∈ timersOf a w ∨ WarpToTarget a ∈ timersOf a w);
       [|rewrite Hta in Hown; destruct Hown as [H|H]; by apply elem_of_nil in H]).
    + left. apply elem_of_Js_filter. split; [|done].
      simpl. by apply bool_decide_eq_true.
    + right. apply elem_of_Js_filter. split; [|done].
      simpl. by apply bool_decide_eq_true.
  - intros e He Hresumed.
    assert (Hin : e ∈ Js.filter isResumed (emitted w)).
    { apply elem_of_Js_filter. split; [|done]. unfold isResumed.
      by rewrite Hresumed. }
    apply length_zero_iff_nil in Hres. rewrite Hres in Hin.
    by apply elem_of_nil in Hin.
  - intros r a Hr. apply not_true_is_false. intros Hown.
    destruct (Hquiet a) as (_ & Hra & _).
    assert (Hin : r ∈ requestsOf a w) by (by apply elem_of_Js_filter).
    rewrite Hra in Hin. by apply elem_of_nil in Hin.
Qed.

Lemma nothing_resumes_before_initialization_witness :
  ∃ w, run initialWorld busyRun = Some w
       ∧ (ResolveInitialized ∉ busyRun)
       ∧ activations w = [] ∧ timers w = [].
Proof.
  destruct (run initialWorld busyRun) as [w|] eqn:Hrun;
    [|by vm_compute in Hrun].
  assert (Hnever : ResolveInitialized ∉ busyRun).
  { unfold busyRun. rewrite !not_elem_of_cons. repeat split; try done.
    apply not_elem_of_nil. }
  exists w. split; [reflexivity|]. split; [exact Hnever|].
  destruct (nothing_resumes_before_initialization busyRun w Hrun Hnever)
    as (Hacts & Htimers & _).
  split; [exact Hacts|exact Htimers].
Defined.

(** ** Pauses and frames *)

Section Frames.

(** With a session, [ensurePause] returns the Pause kept for the point,
    or builds one and keeps it. *)
Lemma ensurePause_session w point time :
  truthy_opt_string (sessionId (front w)) = true →
  ∃ w' pause,
    ensurePause w point time = Returned (w', pause)
    ∧ allPauses (front w') !! point = Some pause
    ∧ (∀ kept, allPauses (front w) !! point = Some kept → w' = w ∧ pause = kept)
    ∧ (allPauses (front w) !! point = None →
       pause = OwnPause (length (created w))
       ∧ created w' = created w ++ [(point, time)]
       ∧ allPauses (front w') = <[point := pause]> (allPauses (front w)))
    ∧ sessionId (front w') = sessionId (front w)
    ∧ currentPause (front w') = currentPause (front w)
    ∧ asyncPauses (front w') = asyncPauses (front w)
    ∧ currentPoint (front w') = currentPoint (front w).
Proof.
  intros Hs. unfold ensurePause. rewrite Hs. simpl.
  destruct (allPauses (front w) !! point) as [kept|] eqn:Hpoint.
  - exists w, kept. split; [done|]. split; [done|]. split.
    + by intros ? [= <-].
    + split; [done|]. done.
  - eexists _, _. split; [reflexivity|]. simpl.
    rewrite lookup_insert_eq. split; [done|]. split; [done|]. done.
Qed.

(** With a session, [ensureCurrentPause] leaves a current Pause. *)
Lemma ensureCurrentPause_session w :
  truthy_opt_string (sessionId (front w)) = true →
  ∃ w' pause,
    ensureCurrentPause w = Returned w'
    ∧ currentPause (front w') = Some pause
    ∧ (∀ current, currentPause (front w) = Some current → w' = w)
    ∧ (currentPause (front w) = None →
       allPauses (front w') !! currentPoint (front w) = Some pause
       ∧ (∀ kept, allPauses (front w) !! currentPoint (front w) = Some kept →
            pause = kept)
       ∧ (allPauses (front w) !! currentPoint (front w) = None →
            pause = OwnPause (length (created w))))
    ∧ sessionId (front w') = sessionId (front w)
    ∧ asyncPauses (front w') = asyncPauses (front w).
Proof.
  intros Hs. unfold ensureCurrentPause.
  destruct (currentPause (front w)) as [current|] eqn:Hcurrent.
  - exists w, current. repeat split; try done.
  - destruct (ensurePause_session w (currentPoint (front w))
                (currentTime (front w)) Hs)
      as (w1 & pause & -> & Hkept & Hold & Hnew & Hs1 & _ & Ha1 & _).
    exists (set_front w1 (set_currentPause (front w1) (Some pause))), pause.
    simpl. repeat split; try done.
    + intros kept Hk. by destruct (Hold kept Hk).
    + intros Hnone. by destruct (Hnew Hnone).
Qed.

Lemma ensureCurrentPause_position w w' :
  ensureCurrentPause w = Returned w' →
  currentPoint (front w') = currentPoint (front w)
  ∧ currentTime (front w') = currentTime (front w)
  ∧ currentPointHasFrames (front w') = currentPointHasFrames (front w).
Proof.
  unfold ensureCurrentPause, ensurePause.
  destruct (currentPause (front w)); [by intros [= <-]|].
  destruct (negb _); [done|].
  destruct (allPauses (front w) !! currentPoint (front w));
    by intros [= <-].
Qed.

Lemma at_index_nil {A} (i : Z) : at_index (@nil A) i = None.
Proof. unfold at_index. by destruct (decide _). Qed.

Lemma at_index_last {A} (xs : list A) :
  at_index xs (Z.of_nat (length xs) - 1) = last xs.
Proof.
  unfold at_index. destruct xs as [|x xs]; [done|].
  destruct (decide _) as [_|Hneg]; [|simpl in Hneg; lia].
  rewrite last_lookup.
  replace (Z.to_nat (Z.of_nat (length (x :: xs)) - 1))
    with (pred (length (x :: xs))); [done|]. simpl. lia.
Qed.

Lemma timeWarp_front w point time hasFrames force :
  ∃ point' time' hasFrames',
    front (timeWarp w point time hasFrames force)
    = set_position (front w) point' time' hasFrames' None.
Proof. unfold timeWarp. rewrite precache_front. simpl. eauto. Qed.

End Frames.

(** X16: after a warp only the current frames can be asked for.
    [timeWarp] empties the chain of async pauses and drops the current
    Pause; a [getScopes], [getFrameSteps] or [evaluate] that is then
    called (with a session) for async index 0 builds or finds the Pause
    of the new point and hands the call on to it, and for any other async
    index it fails its assertion. *)
Theorem frames_of_async_parents_are_gone_after_a_warp (w : World)
    (point : ExecutionPoint) (time : TimeStamp) (hasFrames force : option bool)
    (asyncIndex : Z) (frameId text : string) :
  truthy_opt_string (sessionId (front w)) = true →
  let warped := timeWarp w point time hasFrames force in
  (∃ w' pause,
     allPauses (front w') !! currentPoint (front warped) = Some pause
     ∧ currentPause (front w') = Some pause
     ∧ getScopes warped 0 frameId = Went w' (Pause_getScopes pause frameId)
     ∧ getFrameSteps warped 0 frameId
       = Went w' (Pause_getFrameSteps pause frameId)
     ∧ evaluate warped 0 frameId text
       = Went w' (Pause_evaluate pause frameId text))
  ∧ (asyncIndex ≠ 0 →
     ∃ w',
       getScopes warped asyncIndex frameId = Threw w' AssertionError
       ∧ getFrameSteps warped asyncIndex frameId = Threw w' AssertionError
       ∧ evaluate warped asyncIndex frameId text = Threw w' AssertionError).
Proof.
  intros Hs warped.
  destruct (timeWarp_front w point time hasFrames force)
    as (point' & time' & hasFrames' & Hfront).
  fold warped in Hfront.
  assert (Hs' : truthy_opt_string (sessionId (front warped)) = true)
    by (by rewrite Hfront).
  destruct (ensureCurrentPause_session warped Hs')
    as (w' & pause & Hensure & Hcurrent & _ & Hfresh & _ & Hchain).
  destruct Hfresh as (Hkept & _); [by rewrite Hfront|].
  assert (Hempty : asyncPauses (front w') = []) by (by rewrite Hchain, Hfront).
  split.
  - exists w', pause. split; [done|]. split; [done|].
    unfold getScopes, getFrameSteps, evaluate, assertedPause,
      pauseForAsyncIndex.
    rewrite Hensure. simpl. by rewrite Hcurrent.
  - intros Hindex. exists w'.
    unfold getScopes, getFrameSteps, evaluate, assertedPause,
      pauseForAsyncIndex.
    rewrite Hensure, (proj2 (truthy_number_true asyncIndex) Hindex).
    by rewrite Hempty, at_index_nil.
Qed.

Lemma frames_of_async_parents_are_gone_after_a_warp_witness :
  truthy_opt_string (sessionId (front oneBreakpoint)) = true
  ∧ ∃ w',
      getScopes (timeWarp oneBreakpoint "10" 100 (Some true) None) 1 "f"
      = Threw w' AssertionError.
Proof.
  assert (Hs : truthy_opt_string (sessionId (front oneBreakpoint)) = true)
    by reflexivity.
  split; [exact Hs|].
  destruct (proj2 (frames_of_async_parents_are_gone_after_a_warp
                     oneBreakpoint "10" 100 (Some true) None 1 "f" "" Hs))
    as (w' & Hscopes & _); [done|].
  exists w'. exact Hscopes.
Defined.

Section AsyncParents.

Lemma ensureCurrentPause_settled w current :
  currentPause (front w) = Some current → ensureCurrentPause w = Returned w.
Proof. unfold ensureCurrentPause. by intros ->. Qed.

(** [lastAsyncPause] once the current Pause is there: the last Pause of
    the chain, or the current Pause when the chain is empty. *)
Lemma lastAsyncPause_settled w current :
  currentPause (front w) = Some current →
  lastAsyncPause w
  = Went w (Some (default current (last (asyncPauses (front w))))).
Proof.
  intros Hcurrent. unfold lastAsyncPause.
  rewrite (ensureCurrentPause_settled w current Hcurrent).
  cbv zeta. rewrite at_index_last.
  destruct (asyncPauses (front w)) as [|p chain] eqn:Hchain.
  - simpl. by rewrite Hcurrent.
  - rewrite (proj2 (truthy_number_true _)) by (simpl; lia).
    destruct (last_is_Some (p :: chain)) as [_ [q Hq]]; [done|].
    by rewrite Hq.
Qed.

End AsyncParents.

(** X17: [loadAsyncParentFrames], called with a session and left alone
    while it waits.  It asks the last Pause of the chain (the current
    Pause when the chain is empty) for its frames, then for the steps of
    the outermost of them; it appends the Pause of the first step to
    [asyncPauses] (the Pause kept for that point, or a new one) and
    returns the frames of that Pause without the first.  A second call
    then starts from the Pause that was appended. *)
Theorem loadAsyncParentFrames_extends_the_chain (w : World)
    (baseFrames : list Frame) (outermost : Frame)
    (step : PointDescription) (steps : list PointDescription)
    (frames : list Frame) :
  truthy_opt_string (sessionId (front w)) = true →
  ∃ w1 basePause,
    loadAsyncParentFrames_begin w = Went w1 (AwaitFrames basePause)
    ∧ loadAsyncParentFrames_baseFrames w1 basePause
        (Some (baseFrames ++ [outermost]))
      = Went w1 (AwaitFrameSteps basePause (frameId outermost))
    ∧ ∃ w2 entryPause,
        loadAsyncParentFrames_steps w1 basePause (step :: steps)
        = Went w2 (AwaitFrames entryPause)
        ∧ asyncPauses (front w2) = asyncPauses (front w) ++ [entryPause]
        ∧ allPauses (front w2) !! pt_point step = Some entryPause
        ∧ loadAsyncParentFrames_entryFrames w2 entryPause (Some frames)
          = Went w2 (ReturnFrames (tail frames))
        ∧ loadAsyncParentFrames_begin w2 = Went w2 (AwaitFrames entryPause).
Proof.
  intros Hs.
  destruct (ensureCurrentPause_session w Hs)
    as (w1 & current & Hensure & Hcurrent & _ & _ & Hs1 & Hchain).
  rewrite <- Hs1 in Hs.
  set (basePause := default current (last (asyncPauses (front w1)))).
  assert (Hlast1 : lastAsyncPause w1 = Went w1 (Some basePause))
    by (by apply lastAsyncPause_settled).
  assert (Hlast : lastAsyncPause w = Went w1 (Some basePause)).
  { unfold lastAsyncPause in *. rewrite Hensure.
    by rewrite (ensureCurrentPause_settled w1 current Hcurrent) in Hlast1. }
  exists w1, basePause. split; [|split].
  - unfold loadAsyncParentFrames_begin. by rewrite Hlast.
  - unfold loadAsyncParentFrames_baseFrames.
    by rewrite at_index_last, last_snoc.
  - destruct (ensurePause_session w1 (pt_point step) (pt_time step) Hs)
      as (w2 & entryPause & Hentry & Hkept & _ & _ & _ & Hcurrent2 & Hchain2 & _).
    set (w3 := set_front w2 (push_asyncPause (front w2) entryPause)).
    assert (Hcurrent3 : currentPause (front w3) = Some current)
      by (subst w3; simpl; congruence).
    assert (Hlast3 : lastAsyncPause w3 = Went w3 (Some entryPause)).
    { rewrite (lastAsyncPause_settled w3 current Hcurrent3).
      subst w3. simpl. by rewrite last_snoc. }
    exists w3, entryPause. split; [|split; [|split; [|split]]].
    + unfold loadAsyncParentFrames_steps. rewrite Hlast1.
      rewrite bool_decide_eq_true_2 by done. simpl.
      unfold at_index. simpl. by rewrite Hentry.
    + subst w3. simpl. by rewrite Hchain2, Hchain.
    + done.
    + unfold loadAsyncParentFrames_entryFrames. rewrite Hlast3.
      by rewrite bool_decide_eq_true_2.
    + unfold loadAsyncParentFrames_begin. by rewrite Hlast3.
Qed.

Lemma loadAsyncParentFrames_extends_the_chain_witness :
  truthy_opt_string (sessionId (front oneBreakpoint)) = true
  ∧ ∃ w1 basePause,
      loadAsyncParentFrames_begin oneBreakpoint
      = Went w1 (AwaitFrames basePause).
Proof.
  assert (Hs : truthy_opt_string (sessionId (front oneBreakpoint)) = true)
    by reflexivity.
  split; [exact Hs|].
  destruct (loadAsyncParentFrames_extends_the_chain oneBreakpoint
              [] (mkFrame "f") (mkPointDescription "5" 50) [] [] Hs)
    as (w1 & basePause & Hbegin & _).
  exists w1, basePause. exact Hbegin.
Defined.

(** X18: [loadAsyncParentFrames] gives up when the coordinator has
    warped while it waited.  In a state the coordinator can get into, let
    the base Pause (or the entry Pause) be the one kept for some point,
    and let a [timeWarp] lead to another point before the answer of the
    Pause arrives (a session is there): then the rest of
    [loadAsyncParentFrames] returns no frames and leaves the chain of
    async pauses empty, as the warp left it. *)
Theorem loadAsyncParentFrames_gives_up_after_a_warp (actions : list Action)
    (w : World) (basePause : PauseRef) (basePoint : ExecutionPoint)
    (steps : list PointDescription) (frames : option (list Frame))
    (point : ExecutionPoint) (time : TimeStamp) (hasFrames force : option bool) :
  run initialWorld actions = Some w →
  truthy_opt_string (sessionId (front w)) = true →
  allPauses (front w) !! basePoint = Some basePause →
  let warped := timeWarp w point time hasFrames force in
  currentPoint (front warped) ≠ basePoint →
  ∃ w',
    loadAsyncParentFrames_steps warped basePause steps
    = Went w' (ReturnFrames [])
    ∧ loadAsyncParentFrames_entryFrames warped basePause frames
      = Went w' (ReturnFrames [])
    ∧ asyncPauses (front w') = [].
Proof.
  intros Hrun Hs Hbase warped Hmoved.
  destruct (balanced_reachable actions w Hrun) as (_ & Hkept & _).
  destruct (timeWarp_front w point time hasFrames force)
    as (point' & time' & hasFrames' & Hfront).
  fold warped in Hfront.
  assert (Hcreated : created warped = created w).
  { subst warped. unfold timeWarp. by rewrite precache_created. }
  assert (Hs' : truthy_opt_string (sessionId (front warped)) = true)
    by (by rewrite Hfront).
  destruct (ensureCurrentPause_session warped Hs')
    as (w' & pause & Hensure & Hcurrent & _ & Hfresh & _ & Hchain).
  destruct Hfresh as (_ & Hold & Hnew); [by rewrite Hfront|].
  assert (Hempty : asyncPauses (front w') = []) by (by rewrite Hchain, Hfront).
  destruct (Hkept basePoint basePause Hbase) as (i & baseTime & -> & Hi).
  simpl in Hi.
  assert (Hother : Some (OwnPause i) ≠ Some pause).
  { intros [= <-].
    destruct (allPauses (front warped) !! currentPoint (front warped))
      as [kept|] eqn:Hlookup.
    - specialize (Hold kept eq_refl). subst kept.
      rewrite Hfront in Hlookup. simpl in Hlookup.
      destruct (Hkept _ _ Hlookup) as (j & time2 & [= <-] & Hj).
      simpl in Hj. rewrite Hi in Hj. injection Hj as Hj _.
      apply Hmoved. rewrite Hfront. simpl. done.
    - specialize (Hnew eq_refl). injection Hnew as ->.
      rewrite Hcreated in Hi. apply lookup_lt_Some in Hi. lia. }
  assert (Hlast : lastAsyncPause warped = Went w' (Some pause)).
  { unfold lastAsyncPause. rewrite Hensure. cbv zeta. rewrite Hempty. simpl.
    by rewrite Hcurrent. }
  exists w'. split; [|split; [|done]].
  - unfold loadAsyncParentFrames_steps. rewrite Hlast.
    by rewrite bool_decide_eq_false_2.
  - unfold loadAsyncParentFrames_entryFrames. rewrite Hlast.
    by rewrite bool_decide_eq_false_2.
Qed.

Lemma loadAsyncParentFrames_gives_up_after_a_warp_witness :
  ∃ w w',
    run initialWorld busyRun = Some w
    ∧ truthy_opt_string (sessionId (front w)) = true
    ∧ allPauses (front w) !! "10" = Some (OwnPause 0)
    ∧ currentPoint (front (timeWarp w "20" 200 None None)) ≠ "10"
    ∧ loadAsyncParentFrames_steps (timeWarp w "20" 200 None None) (OwnPause 0) []
      = Went w' (ReturnFrames []).
Proof.
  destruct (run initialWorld busyRun) as [w|] eqn:Hrun;
    [|by vm_compute in Hrun].
  assert (Hfacts :
    truthy_opt_string (sessionId (front w)) = true
    ∧ allPauses (front w) !! "10" = Some (OwnPause 0)
    ∧ currentPoint (front (timeWarp w "20" 200 None None)) ≠ "10").
  { vm_compute in Hrun. injection Hrun as <-.
    split; [by vm_compute|]. split; [by vm_compute|]. by vm_compute. }
  destruct Hfacts as (Hs & Hbase & Hmoved).
  destruct (loadAsyncParentFrames_gives_up_after_a_warp busyRun w (OwnPause 0)
              "10" [] None "20" 200 None None Hrun Hs Hbase Hmoved)
    as (w' & Hsteps & _).
  exists w, w'. split; [reflexivity|]. split; [exact Hs|].
  split; [exact Hbase|]. split; [exact Hmoved|exact Hsteps].
Defined.

(** X19: [searchDOM] and [getRootDOMNode], called with a session, ask the
    current Pause (the one of the current point, built if need be) and
    remember it.  When the answer arrives and the current Pause is still
    that one, the answer is returned; when a [timeWarp] has come in
    between, the answer is dropped and [null] is returned.  Without a
    session nothing is asked. *)
Theorem searchDOM_drops_the_answer_after_a_warp {A} (w : World) (nodes : A)
    (point : ExecutionPoint) (time : TimeStamp) (hasFrames force : option bool) :
  (truthy_opt_string (sessionId (front w)) = false →
   searchDOM_begin w = Went w None ∧ getRootDOMNode_begin w = Went w None)
  ∧ (truthy_opt_string (sessionId (front w)) = true →
     ∃ w' asking,
       searchDOM_begin w = Went w' (Some asking)
       ∧ getRootDOMNode_begin w = Went w' (Some asking)
       ∧ currentPause (front w') = Some (asked asking)
       ∧ searchDOM_resume w' (remembered asking) nodes = Some nodes
       ∧ getRootDOMNode_resume w' (remembered asking) (Some nodes)
         = Returned (Some nodes)
       ∧ searchDOM_resume (timeWarp w' point time hasFrames force)
           (remembered asking) nodes
         = None
       ∧ getRootDOMNode_resume (timeWarp w' point time hasFrames force)
           (remembered asking) (Some nodes)
         = Returned None).
Proof.
  split.
  - intros Hs. unfold getRootDOMNode_begin, searchDOM_begin. by rewrite Hs.
  - intros Hs.
    destruct (ensureCurrentPause_session w Hs)
      as (w' & pause & Hensure & Hcurrent & _).
    exists w', (mkAsking pause (Some pause)).
    destruct (timeWarp_front w' point time hasFrames force)
      as (point' & time' & hasFrames' & Hfront).
    unfold getRootDOMNode_begin, searchDOM_begin, searchDOM_resume,
      getRootDOMNode_resume, ifStillCurrent.
    rewrite Hs, Hensure, Hfront. simpl. rewrite Hcurrent.
    rewrite bool_decide_eq_true_2 by done. done.
Qed.

(** X20: [getMouseTarget] and [loadMouseTargets] remember the current
    Pause before they call [ensureCurrentPause].  So when they are called
    (with a session) at a position whose Pause has not been asked for
    yet, they remember [null], and when the answer arrives it is dropped
    although nothing has moved: [getMouseTarget] returns [null] and
    [loadMouseTargets] returns [false].  A second call at the same
    position returns the answer. *)
Theorem getMouseTarget_drops_its_first_answer {A} (w : World)
    (nodeBounds : A) :
  truthy_opt_string (sessionId (front w)) = true →
  currentPause (front w) = None →
  ∃ w' asking,
    getMouseTarget_begin w = Went w' (Some asking)
    ∧ loadMouseTargets_begin w = Went w' (Some asking)
    ∧ currentPause (front w') = Some (asked asking)
    ∧ getMouseTarget_resume w' (remembered asking) nodeBounds = None
    ∧ loadMouseTargets_resume w' (remembered asking) = false
    ∧ ∃ again,
        getMouseTarget_begin w' = Went w' (Some again)
        ∧ asked again = asked asking
        ∧ getMouseTarget_resume w' (remembered again) nodeBounds
          = Some nodeBounds
        ∧ loadMouseTargets_resume w' (remembered again) = true.
Proof.
  intros Hs Hnone.
  destruct (ensureCurrentPause_session w Hs)
    as (w' & pause & Hensure & Hcurrent & _ & _ & Hs' & _).
  exists w', (mkAsking pause None).
  unfold loadMouseTargets_begin, getMouseTarget_begin, getMouseTarget_resume,
    loadMouseTargets_resume, ifStillCurrent.
  rewrite Hs, Hensure, Hnone. simpl. rewrite Hcurrent.
  split; [done|]. split; [done|]. split; [done|]. split; [done|].
  split; [done|].
  exists (mkAsking pause (Some pause)).
  rewrite Hs', Hs, (ensureCurrentPause_settled w' pause Hcurrent), Hcurrent.
  simpl. by rewrite bool_decide_eq_true_2.
Qed.

Lemma getMouseTarget_drops_its_first_answer_witness :
  truthy_opt_string (sessionId (front oneBreakpoint)) = true
  ∧ currentPause (front oneBreakpoint) = None
  ∧ ∃ w' asking,
      getMouseTarget_begin oneBreakpoint = Went w' (Some asking)
      ∧ getMouseTarget_resume w' (remembered asking) "bounds" = None.
Proof.
  assert (Hs : truthy_opt_string (sessionId (front oneBreakpoint)) = true)
    by reflexivity.
  assert (Hnone : currentPause (front oneBreakpoint) = None) by reflexivity.
  split; [exact Hs|]. split; [exact Hnone|].
  destruct (getMouseTarget_drops_its_first_answer oneBreakpoint "bounds"
              Hs Hnone) as (w' & asking & Hbegin & _ & _ & Hdropped & _).
  exists w', asking. split; [exact Hbegin|exact Hdropped].
Defined.

Lemma searchDOM_drops_the_answer_after_a_warp_witness :
  truthy_opt_string (sessionId (front oneBreakpoint)) = true
  ∧ ∃ w' asking,
      searchDOM_begin oneBreakpoint = Went w' (Some asking)
      ∧ searchDOM_resume (timeWarp w' "20" 200 None None) (remembered asking)
          "nodes"
        = None.
Proof.
  assert (Hs : truthy_opt_string (sessionId (front oneBreakpoint)) = true)
    by reflexivity.
  split; [exact Hs|].
  destruct (proj2 (searchDOM_drops_the_answer_after_a_warp oneBreakpoint
                     "nodes" "20" 200 None None) Hs)
    as (w' & asking & Hbegin & _ & _ & _ & _ & Hdropped & _).
  exists w', asking. split; [exact Hbegin|exact Hdropped].
Defined.

(** ** Locations and preferences *)

Section Locations.

Import Registry.

Lemma chooseSourceId_truthy r ids c alt :
  _chooseSourceId r ids = Returned c → alternateId c = Some alt → alt ≠ "".
Proof.
  unfold _chooseSourceId.
  destruct (chooseLoop r _ None None) as [[early|[g o]]|] eqn:Hloop; [| |done].
  - intros [= <-] Halt.
    pose proof (chooseLoop_picks r (λ _, True) _ None None _ Hloop) as Hres.
    simpl in Hres. destruct Hres as [_ Hnone]; [done|done|done|congruence].
  - destruct (truthy_opt_string g) eqn:Hg; cbv beta iota.
    + apply truthy_opt_string_true in Hg as (g' & -> & Hg').
      destruct (truthy_opt_string o) eqn:Ho; cbv beta iota.
      * apply truthy_opt_string_true in Ho as (o' & -> & Ho').
        simpl. destruct (bool_decide _); simpl; intros [= <-] [= <-]; done.
      * simpl. by intros [= <-].
    + destruct (truthy_opt_string o); simpl; [|done]. by intros [= <-].
Qed.

Lemma findLocation_Some locations id :
  id ∈ loc_sourceId <$> locations →
  ∃ l, findLocation locations id = Some l ∧ l ∈ locations ∧ loc_sourceId l = id.
Proof.
  intros Hin. unfold findLocation.
  destruct (List.find _ locations) as [l|] eqn:Hfind.
  - apply find_some in Hfind as [Hl Hid]. apply bool_decide_eq_true in Hid.
    exists l. split; [done|]. split; [by apply list_elem_of_In|done].
  - apply list_elem_of_fmap in Hin as (l & -> & Hl).
    apply list_elem_of_In in Hl.
    pose proof (find_none _ _ Hfind l Hl) as Hnot. simpl in Hnot.
    by apply bool_decide_eq_false in Hnot.
Qed.

Lemma isSourceMappedSource_sources r r' id :
  sources r' = sources r →
  isSourceMappedSource r' id = isSourceMappedSource r id.
Proof.
  intros Hsame. unfold isSourceMappedSource, resolvedKind, minifiedInfoOf.
  by rewrite Hsame.
Qed.

End Locations.

(** X21: [getPreferredLocationRaw] and [getAlternateLocation] (after the
    sources have been waited for).  Whenever [_chooseSourceId] returns for
    the sources of the locations, the preferred location is a location of
    the list, in the source chosen: it is never [undefined].  The
    alternate location is a location of the list in the alternate source,
    and another one than the preferred location; when there is no
    alternate source it is [null]. *)
Theorem preferred_and_alternate_locations (r : Registry.t)
    (locations : list Location) (c : Registry.Choice) :
  Registry._chooseSourceId r (loc_sourceId <$> locations) = Returned c →
  ∃ l,
    getPreferredLocationRaw r locations = Returned (Some l)
    ∧ l ∈ locations ∧ loc_sourceId l = Registry.sourceId c
    ∧ match Registry.alternateId c with
      | Some alt =>
          ∃ l', getAlternateLocation r locations = Returned (Some l')
                ∧ l' ∈ locations ∧ loc_sourceId l' = alt ∧ l' ≠ l
      | None => getAlternateLocation r locations = Returned None
      end.
Proof.
  intros Hc.
  destruct (chooseSourceId_eligible r _ c Hc) as [[Hin _] Halt].
  destruct (findLocation_Some locations _ Hin) as (l & Hfind & Hl & Hid).
  exists l. unfold getPreferredLocationRaw, getAlternateLocation.
  rewrite Hc, Hfind. split; [done|]. split; [done|]. split; [done|].
  destruct (Registry.alternateId c) as [alt|] eqn:Ha; [|done].
  destruct (Halt alt eq_refl) as [[Hin' _] (g & o & Hg & Ho & Hpair)].
  destruct (findLocation_Some locations _ Hin') as (l' & Hfind' & Hl' & Hid').
  pose proof (chooseSourceId_truthy r _ c alt Hc Ha) as Htruthy.
  simpl. rewrite (proj2 (truthy_string_true alt) Htruthy), Hfind'.
  exists l'. split; [done|]. split; [done|]. split; [done|].
  intros ->. rewrite Hid in Hid'.
  destruct (bool_decide _); destruct Hpair as [Hc1 Hc2]; congruence.
Qed.

Lemma preferred_and_alternate_locations_witness :
  Registry._chooseSourceId
    (exampleRegistry "A" "X" "B" sourceMapped scriptSource scriptSource)
    (loc_sourceId <$> [mkLocation "X" 10 2; mkLocation "A" 3 0])
  = Returned (Registry.mkChoice "A" (Some "X"))
  ∧ ∃ l,
      getPreferredLocationRaw
        (exampleRegistry "A" "X" "B" sourceMapped scriptSource scriptSource)
        [mkLocation "X" 10 2; mkLocation "A" 3 0]
      = Returned (Some l)
      ∧ loc_sourceId l = "A".
Proof.
  assert (H : Registry._chooseSourceId
                (exampleRegistry "A" "X" "B" sourceMapped scriptSource scriptSource)
                (loc_sourceId <$> [mkLocation "X" 10 2; mkLocation "A" 3 0])
              = Returned (Registry.mkChoice "A" (Some "X")))
    by (vm_compute; reflexivity).
  split; [exact H|].
  destruct (preferred_and_alternate_locations _ _ _ H) as (l & Hl & _ & Hid & _).
  exists l. split; [exact Hl|exact Hid].
Defined.

(** X22: [preferSource] can be undone.  When a generated source that is
    not preferred yet is preferred with [preferSource(id, true)], a
    location has a preferred generated source afterwards exactly when it
    had one before or when it lies in that source; and
    [preferSource(id, false)] then gives back the registry as it was. *)
Theorem preferSource_is_undone_by_preferSource (r r1 : Registry.t)
    (G : SourceId) :
  G ∉ Registry.preferredGeneratedSources r →
  Registry.preferSource r G true = Returned r1 →
  Registry.preferSource r1 G false = Returned r
  ∧ ∀ location,
      hasPreferredGeneratedSource r1 location = true
      ↔ hasPreferredGeneratedSource r location = true
        ∨ G ∈ loc_sourceId <$> location.
Proof.
  intros Hfresh Hprefer. unfold Registry.preferSource in *.
  destruct (Registry.isSourceMappedSource r G) as [[|]|] eqn:Hmapped; try done.
  injection Hprefer as <-. split.
  - rewrite (isSourceMappedSource_sources r) by done. rewrite Hmapped.
    f_equal. destruct r as [s u o p]. simpl in *. f_equal.
    apply set_eq. intros x. rewrite elem_of_difference, elem_of_union,
      elem_of_singleton. split; [tauto|]. intros Hx. split; [by right|].
    by intros ->.
  - intros location. unfold hasPreferredGeneratedSource, some. simpl.
    rewrite !existsb_exists. split.
    + intros (l & Hl & Hin). apply bool_decide_eq_true in Hin.
      apply elem_of_union in Hin as [Hin|Hin].
      * right. apply elem_of_singleton in Hin. apply list_elem_of_fmap.
        exists l. split; [done|]. by apply list_elem_of_In.
      * left. exists l. split; [done|]. by apply bool_decide_eq_true.
    + intros [(l & Hl & Hin)|Hin].
      * exists l. split; [done|]. apply bool_decide_eq_true.
        apply bool_decide_eq_true in Hin. apply elem_of_union. by right.
      * apply list_elem_of_fmap in Hin as (l & -> & Hl). exists l.
        split; [by apply list_elem_of_In|]. apply bool_decide_eq_true.
        apply elem_of_union. left. by apply elem_of_singleton.
Qed.

Lemma preferSource_is_undone_by_preferSource_witness :
  ∃ r1,
    ("X" ∉ Registry.preferredGeneratedSources
             (exampleRegistry "A" "X" "B" sourceMapped scriptSource scriptSource))
    ∧ Registry.preferSource
        (exampleRegistry "A" "X" "B" sourceMapped scriptSource scriptSource)
        "X" true
      = Returned r1
    ∧ Registry.preferSource r1 "X" false
      = Returned
          (exampleRegistry "A" "X" "B" sourceMapped scriptSource scriptSource).
Proof.
  destruct (Registry.preferSource
              (exampleRegistry "A" "X" "B" sourceMapped scriptSource scriptSource)
              "X" true) as [r1|] eqn:Hprefer; [|by vm_compute in Hprefer].
  assert (Hfresh :
    "X" ∉ Registry.preferredGeneratedSources
            (exampleRegistry "A" "X" "B" sourceMapped scriptSource scriptSource)).
  { simpl. apply not_elem_of_empty. }
  exists r1. split; [exact Hfresh|]. split; [reflexivity|].
  exact (proj1 (preferSource_is_undone_by_preferSource _ r1 "X" Hfresh Hprefer)).
Defined.

(** ** Waiting for a source *)

Section Waiting.

Lemma waitsFor_announced t s d id :
  waitsFor (onNewSource t s) d id ↔ id ≠ ns_sourceId s ∧ waitsFor t d id.
Proof.
  unfold waitsFor, onNewSource. simpl.
  destruct (decide (id = ns_sourceId s)) as [->|Hne].
  - rewrite lookup_delete_eq. split; [by intros (? & [=] & _)|by intros []].
  - rewrite lookup_delete_ne by done. tauto.
Qed.

Lemma woken_announced t s d :
  d ∈ woken (onNewSource t s) ↔ d ∈ woken t ∨ waitsFor t d (ns_sourceId s).
Proof.
  unfold waitsFor, onNewSource. simpl. rewrite elem_of_app.
  destruct (sourceWaiters t !! ns_sourceId s) as [waiters|]; simpl.
  - split; [intros [?|?]; eauto|].
    intros [?|(ws & [= <-] & ?)]; [by left|by right].
  - rewrite elem_of_nil. split; [tauto|].
    intros [?|(ws & [=] & _)]. by left.
Qed.

Lemma ensureSource_waits t id :
  Registry.sources (table t) !! id = None →
  ∃ t1,
    ensureSource t id = (t1, Some (waiting t))
    ∧ table t1 = table t ∧ woken t1 = woken t ∧ waiting t1 = S (waiting t)
    ∧ ∀ d id',
        waitsFor t1 d id' ↔ waitsFor t d id' ∨ (d = waiting t ∧ id' = id).
Proof.
  intros Hnone. unfold ensureSource. rewrite Hnone.
  eexists. split; [reflexivity|]. simpl.
  split; [done|]. split; [done|]. split; [done|].
  intros d id'. unfold waitsFor. simpl. split.
  - intros (ws & Hws & Hd). destruct (decide (id' = id)) as [->|Hne].
    + rewrite lookup_insert_eq in Hws. injection Hws as <-.
      apply elem_of_app in Hd as [Hd|Hd].
      * left. destruct (sourceWaiters t !! id) as [old|]; simpl in Hd.
        -- by exists old.
        -- by apply elem_of_nil in Hd.
      * right. by apply list_elem_of_singleton in Hd.
    + rewrite lookup_insert_ne in Hws by done. left. by exists ws.
  - intros [(ws & Hws & Hd)|[-> ->]].
    + destruct (decide (id' = id)) as [->|Hne].
      * eexists. rewrite lookup_insert_eq. split; [done|].
        rewrite Hws. simpl. apply elem_of_app. by left.
      * exists ws. by rewrite lookup_insert_ne.
    + eexists. rewrite lookup_insert_eq. split; [done|].
      apply elem_of_app. right. by left.
Qed.

Lemma ensureSource_registered t id info :
  Registry.sources (table t) !! id = Some info → ensureSource t id = (t, None).
Proof. intros Hsome. unfold ensureSource. by rewrite Hsome. Qed.

Lemma handedOut_step t e : handedOut t → handedOut (tableStep t e).
Proof.
  intros [Hwoken Hwaits]. destruct e as [s|id]; cbn [tableStep].
  - split.
    + intros d Hd. apply woken_announced in Hd as [Hd|Hd]; eauto.
    + intros d id Hd. apply waitsFor_announced in Hd as [_ Hd]. eauto.
  - destruct (Registry.sources (table t) !! id) as [info|] eqn:Hid.
    + by rewrite (ensureSource_registered t id info).
    + destruct (ensureSource_waits t id Hid)
        as (t1 & He & _ & Hw & Hn & Hfor).
      rewrite He. cbn [fst]. split.
      * intros d Hd. rewrite Hw in Hd. rewrite Hn.
        specialize (Hwoken d Hd). lia.
      * intros d id' Hd. rewrite Hn. apply Hfor in Hd as [Hd|[-> _]]; [|lia].
        specialize (Hwaits d id' Hd). lia.
Qed.

Lemma handedOut_run events : ∀ t,
  handedOut t → handedOut (fold_left tableStep events t).
Proof.
  induction events as [|e events IH]; intros t Ht; simpl; [done|].
  by apply IH, handedOut_step.
Qed.

Lemma handedOut_empty : handedOut emptyTable.
Proof.
  split.
  - intros d Hd. by apply elem_of_nil in Hd.
  - intros d id (ws & Hws & _). simpl in Hws. by rewrite lookup_empty in Hws.
Qed.

(** A deferred that waits for a source keeps waiting for it, and only for
    it, as long as the source is not announced. *)
Lemma still_waiting d id events : ∀ t,
  (∀ s, Announced s ∈ events → ns_sourceId s ≠ id) →
  handedOut t → d ∉ woken t →
  (∀ id', waitsFor t d id' ↔ id' = id) →
  d ∉ woken (fold_left tableStep events t).
Proof.
  induction events as [|e events IH]; intros t Hnever Hout Hnot Honly; simpl;
    [done|].
  assert (Hd : (d < waiting t)%nat).
  { destruct Hout as [_ Hwaits]. apply (Hwaits d id). by apply Honly. }
  apply IH.
  - intros s Hs. apply Hnever. by right.
  - by apply handedOut_step.
  - destruct e as [s|id']; cbn [tableStep].
    + rewrite woken_announced. intros [?|Hw]; [done|].
      apply Honly in Hw. apply (Hnever s); [left|done].
    + destruct (Registry.sources (table t) !! id') as [info|] eqn:Hid.
      * by rewrite (ensureSource_registered t id' info).
      * destruct (ensureSource_waits t id' Hid) as (t1 & He & _ & Hw & _).
        rewrite He. cbn [fst]. by rewrite Hw.
  - intros id0. destruct e as [s|id']; cbn [tableStep].
    + rewrite waitsFor_announced, Honly. split; [tauto|].
      intros ->. split; [|done]. intros Heq. apply (Hnever s); [left|done].
    + destruct (Registry.sources (table t) !! id') as [info|] eqn:Hid.
      * by rewrite (ensureSource_registered t id' info).
      * destruct (ensureSource_waits t id' Hid) as (t1 & He & _ & _ & _ & Hfor).
        rewrite He. cbn [fst]. rewrite Hfor, Honly. split; [|tauto].
        intros [?|[-> _]]; [done|lia].
Qed.

(** A deferred that waits for a source, or has been woken, is woken once
    the source has been announced. *)
Lemma woken_in_the_end d id s events post : ∀ t,
  ns_sourceId s = id →
  waitsFor t d id ∨ d ∈ woken t →
  d ∈ woken (fold_left tableStep (events ++ Announced s :: post) t).
Proof.
  intros t Hs Hd.
  assert (Hstays : ∀ later t', d ∈ woken t' →
                   d ∈ woken (fold_left tableStep later t')).
  { induction later as [|e later IH]; intros t' Hw; simpl; [done|].
    apply IH. destruct e as [s'|id']; cbn [tableStep].
    - apply woken_announced. by left.
    - destruct (Registry.sources (table t') !! id') as [info|] eqn:Hid.
      + by rewrite (ensureSource_registered t' id' info).
      + destruct (ensureSource_waits t' id' Hid) as (t1 & He & _ & Hw' & _).
        rewrite He. cbn [fst]. by rewrite Hw'. }
  revert t Hd. induction events as [|e events IH]; intros t Hd; simpl.
  - apply Hstays. apply woken_announced. rewrite Hs. tauto.
  - apply IH. destruct e as [s'|id']; cbn [tableStep].
    + rewrite woken_announced, waitsFor_announced.
      destruct (decide (id = ns_sourceId s')) as [->|Hne]; tauto.
    + destruct (Registry.sources (table t) !! id') as [info|] eqn:Hid.
      * by rewrite (ensureSource_registered t id' info).
      * destruct (ensureSource_waits t id' Hid) as (t1 & He & _ & Hw & _ & Hfor).
        rewrite He. cbn [fst]. rewrite Hfor, Hw. tauto.
Qed.

End Waiting.

(** X23: [ensureSource] and the listener of [findSources].  A call of
    [ensureSource] for a source that is not registered yet waits for a
    deferred of its own; the deferred is not resolved before the source is
    announced, whatever else is announced or asked for in the meantime,
    and it has been resolved once the source has been announced.  A call
    for a source that is registered does not wait. *)
Theorem ensureSource_waits_for_the_announcement
    (before meanwhile after : list TableEvent) (s : newSource) :
  let t := fold_left tableStep before emptyTable in
  (∀ info, Registry.sources (table t) !! ns_sourceId s = Some info →
           ensureSource t (ns_sourceId s) = (t, None))
  ∧ (Registry.sources (table t) !! ns_sourceId s = None →
     ∃ t1 d,
       ensureSource t (ns_sourceId s) = (t1, Some d)
       ∧ ((∀ s', Announced s' ∈ meanwhile → ns_sourceId s' ≠ ns_sourceId s) →
          d ∉ woken (fold_left tableStep meanwhile t1))
       ∧ d ∈ woken
               (fold_left tableStep (meanwhile ++ Announced s :: after) t1)).
Proof.
  intros t. split; [apply ensureSource_registered|].
  intros Hnone.
  assert (Hout : handedOut t) by apply handedOut_run, handedOut_empty.
  destruct (ensureSource_waits t (ns_sourceId s) Hnone)
    as (t1 & Hensure & Htable & Hwoken & Hwaiting & Hfor).
  exists t1, (waiting t). split; [done|].
  assert (Hfresh : ∀ id', ¬ waitsFor t (waiting t) id').
  { intros id' Hw. destruct Hout as [_ Hwaits].
    specialize (Hwaits _ _ Hw). lia. }
  split.
  - intros Hnever. apply (still_waiting _ (ns_sourceId s)); [done| | |].
    + pose proof (handedOut_step t (Asked_for (ns_sourceId s)) Hout) as H1.
      simpl in H1. by rewrite Hensure in H1.
    + rewrite Hwoken. intros Hw. destruct Hout as [Hlt _].
      specialize (Hlt _ Hw). lia.
    + intros id'. rewrite Hfor. split; [|by right].
      intros [Hw|[_ ?]]; [by apply Hfresh in Hw|done].
  - apply (woken_in_the_end _ (ns_sourceId s)); [done|].
    left. apply Hfor. by right.
Qed.

Lemma ensureSource_waits_for_the_announcement_witness :
  Registry.sources (table (fold_left tableStep [] emptyTable)) !! "A" = None
  ∧ ∃ t1 d,
      ensureSource (fold_left tableStep [] emptyTable) "A" = (t1, Some d)
      ∧ d ∈ woken
              (fold_left tableStep
                 ([Asked_for "B"]
                  ++ Announced (mkNewSource "A" scriptSource None None) :: [])
                 t1).
Proof.
  assert (Hnone :
    Registry.sources (table (fold_left tableStep [] emptyTable)) !! "A" = None)
    by reflexivity.
  split; [exact Hnone|].
  destruct (proj2 (ensureSource_waits_for_the_announcement [] [Asked_for "B"] []
                     (mkNewSource "A" scriptSource None None)) Hnone)
    as (t1 & d & Hensure & _ & Hwoken).
  exists t1, d. split; [exact Hensure|exact Hwoken].
Defined.

(** ** Looking ahead *)

Section Precache.

Lemma precache_rows (rows : list (FindTargetCommand * list FindTargetCommand)) :
  ∀ w f,
  front w = f →
  truthy_opt_string (sessionId f) = true →
  let w' :=
    fold_left
      (λ w row,
         awaitFindResumeTarget w (currentPoint f) row.1
           (InPrecache (currentPoint f) (resumeTargetEpoch f) row.2))
      rows w in
  inflight w' = inflight w ++ omap (precacheRequest f) rows
  ∧ jobs w' = jobs w ++ omap (precacheHit f) rows.
Proof.
  induction rows as [|row rows IH]; intros w f Hf Hs; cbv zeta; simpl.
  - by rewrite !app_nil_r.
  - destruct (IH (awaitFindResumeTarget w (currentPoint f) row.1
                    (InPrecache (currentPoint f) (resumeTargetEpoch f) row.2)) f)
      as [Hi Hj]; [by rewrite awaitFindResumeTarget_front|done|].
    cbv zeta in Hi, Hj. rewrite Hi, Hj.
    unfold awaitFindResumeTarget, _findResumeTarget_begin, precacheRequest,
      precacheHit.
    rewrite Hf, Hs. simpl.
    destruct (resumeTargets f !! targetKey (currentPoint f) row.1);
      simpl; by rewrite <- ?app_assoc.
Qed.

Lemma await_without_session w point command awaiting :
  truthy_opt_string (sessionId (front w)) = false →
  awaitFindResumeTarget w point command awaiting = w.
Proof.
  intros Hs. unfold awaitFindResumeTarget, _findResumeTarget_begin.
  by rewrite Hs.
Qed.

Lemma precache_without_session w :
  truthy_opt_string (sessionId (front w)) = false →
  _precacheResumeTargets w = w.
Proof.
  intros Hs. unfold _precacheResumeTargets. destruct (negb _); [done|].
  unfold stepCommands. cbn [fold_left].
  by do 4 rewrite (await_without_session w) by done.
Qed.

End Precache.

(** X24: [_precacheResumeTargets] asks for what it does not know yet.  At
    a point without frames, or without a session, it does nothing.
    Otherwise it looks up the four step directions from the current
    point, in the order of its table: for a direction whose target is in
    the cache no command is sent and the cached target is taken; for each
    of the others one command is sent, stamped with the current epoch.  It
    never changes the coordinator's own fields. *)
Theorem precache_asks_for_what_is_missing (w : World) :
  front (_precacheResumeTargets w) = front w
  ∧ (currentPointHasFrames (front w) = false
     ∨ truthy_opt_string (sessionId (front w)) = false →
     _precacheResumeTargets w = w)
  ∧ (currentPointHasFrames (front w) = true →
     truthy_opt_string (sessionId (front w)) = true →
     inflight (_precacheResumeTargets w)
     = inflight w ++ omap (precacheRequest (front w)) stepCommands
     ∧ jobs (_precacheResumeTargets w)
       = jobs w ++ omap (precacheHit (front w)) stepCommands).
Proof.
  split; [apply precache_front|]. split.
  - intros [Hframes|Hs]; [|by apply precache_without_session].
    unfold _precacheResumeTargets. by rewrite Hframes.
  - intros Hframes Hs. unfold _precacheResumeTargets. rewrite Hframes. simpl.
    apply (precache_rows stepCommands w (front w) eq_refl Hs).
Qed.

Lemma precache_asks_for_what_is_missing_witness :
  currentPointHasFrames (front oneBreakpoint) = false
  ∧ _precacheResumeTargets oneBreakpoint = oneBreakpoint.
Proof.
  assert (Hframes : currentPointHasFrames (front oneBreakpoint) = false)
    by reflexivity.
  split; [exact Hframes|].
  exact (proj1 (proj2 (precache_asks_for_what_is_missing oneBreakpoint))
           (or_introl Hframes)).
Defined.

(** X25: [getFrames] after a warp.  After [timeWarpToPause] to a Pause
    with frames, [getFrames] asks that very Pause: it needs no session
    and builds nothing.  After a [timeWarp] to a point with frames it
    asks the Pause kept for the point it has arrived at, built on the
    spot if there is none, which takes a session: without one the
    assertion of [ensurePause] fails.  Asking again changes nothing and
    asks the same Pause. *)
Theorem getFrames_after_a_warp (w : World) :
  (∀ pause w1,
     timeWarpToPause w pause = Returned w1 →
     pause_hasFrames pause = Some true →
     getFrames w1 = Returned (w1, FramesOfPause (self pause)))
  ∧ (∀ point time force,
       let w1 := timeWarp w point time (Some true) force in
       currentPointHasFrames (front w1) = true →
       (truthy_opt_string (sessionId (front w)) = false →
        getFrames w1 = AssertionFailed)
       ∧ (truthy_opt_string (sessionId (front w)) = true →
          ∃ w2 pause,
            getFrames w1 = Returned (w2, FramesOfPause pause)
            ∧ allPauses (front w2) !! currentPoint (front w1) = Some pause
            ∧ getFrames w2 = Returned (w2, FramesOfPause pause))).
Proof.
  split.
  - intros pause w1 Hwarp Hframes. unfold timeWarpToPause in Hwarp.
    destruct (negb _); [done|]. injection Hwarp as <-.
    unfold getFrames, ensureCurrentPause. rewrite precache_front. simpl.
    rewrite Hframes. simpl. by rewrite precache_front.
  - intros point time force w1 Hframes.
    destruct (timeWarp_front w point time (Some true) force)
      as (point' & time' & hasFrames' & Hfront).
    fold w1 in Hfront. split.
    + intros Hs. unfold getFrames, ensureCurrentPause, ensurePause.
      rewrite Hframes, Hfront. simpl. by rewrite Hs.
    + intros Hs.
      assert (Hs1 : truthy_opt_string (sessionId (front w1)) = true)
        by (by rewrite Hfront).
      destruct (ensureCurrentPause_session w1 Hs1)
        as (w2 & pause & Hensure & Hcurrent & _ & Hfresh & _).
      destruct Hfresh as (Hkept & _); [by rewrite Hfront|].
      assert (Hframes2 : currentPointHasFrames (front w2) = true).
      { destruct (ensureCurrentPause_position w1 w2 Hensure) as (_ & _ & ->).
        done. }
      exists w2, pause. split; [|split; [done|]].
      * unfold getFrames. by rewrite Hframes, Hensure, Hcurrent.
      * unfold getFrames.
        by rewrite Hframes2, (ensureCurrentPause_settled w2 pause Hcurrent),
          Hcurrent.
Qed.

Lemma getFrames_after_a_warp_witness :
  ∃ w1,
    timeWarpToPause initialWorld givenPause = Returned w1
    ∧ pause_hasFrames givenPause = Some true
    ∧ getFrames w1 = Returned (w1, FramesOfPause (self givenPause)).
Proof.
  eexists. split; [reflexivity|]. split; [reflexivity|].
  exact (proj1 (getFrames_after_a_warp initialWorld) givenPause _
           eq_refl eq_refl).
Defined.

Section Cached.

Lemma insert_snoc {A} (l : list A) (x y : A) :
  <[length l := y]> (l ++ [x]) = l ++ [y].
Proof. induction l as [|z l IH]; simpl; [done|]. by rewrite IH. Qed.

Lemma await_precache_only w point command p e tr :
  Js.filter (λ r, negb (isPrecacheRequest r))
    (inflight (awaitFindResumeTarget w point command (InPrecache p e tr)))
  = Js.filter (λ r, negb (isPrecacheRequest r)) (inflight w).
Proof.
  unfold awaitFindResumeTarget.
  destruct (_findResumeTarget_begin _ _ _); simpl; try done.
  rewrite Js_filter_app. simpl. by rewrite app_nil_r.
Qed.

Lemma precache_only w :
  Js.filter (λ r, negb (isPrecacheRequest r))
    (inflight (_precacheResumeTargets w))
  = Js.filter (λ r, negb (isPrecacheRequest r)) (inflight w).
Proof.
  unfold _precacheResumeTargets. destruct (negb _); [done|].
  unfold stepCommands. cbn [fold_left].
  by rewrite !await_precache_only.
Qed.

Lemma run_cons w a w1 rest :
  step w a = Some w1 → run w (a :: rest) = run w1 rest.
Proof. intros Hstep. simpl. by rewrite Hstep. Qed.

End Cached.

(** X26: a step whose target has been looked up ahead needs no command.
    Let the coordinator be initialized and have a session, and let the
    target of a resume-family command from the current point be in the
    cache (no warp callback is set).  Then the operation, called without a
    point, runs to its end without any command sent on its behalf:
    [resumed] is emitted, then [paused] at the cached target, and the
    coordinator is at the target; the only commands that are sent are
    those of [_precacheResumeTargets] at the target. *)
Theorem precached_step_needs_no_command (w : World)
    (command : FindTargetCommand) (target : PauseDescription) :
  initialized w = true →
  truthy_opt_string (sessionId (front w)) = true →
  warpCallback (front w) = None →
  resumeTargets (front w) !! targetKey (currentPoint (front w)) command
  = Some target →
  ∃ w',
    run w
      [CallResumeFamily command "";
       RunJob (length (jobs w)); RunJob (length (jobs w));
       FireTimer (length (timers w)); FireTimer (length (timers w))]
    = Some w'
    ∧ event <$> drop (length (emitted w)) (emitted w')
      = [Resumed;
         Paused
           (mkPauseEventArgs (pd_point target) (pd_time target)
              (Some (bool_decide (is_Some (pd_frame target)))))]
    ∧ currentPoint (front w') = pd_point target
    ∧ currentTime (front w') = pd_time target
    ∧ Js.filter (λ r, negb (isPrecacheRequest r)) (inflight w')
      = Js.filter (λ r, negb (isPrecacheRequest r)) (inflight w).
Proof.
  intros Hinit Hs Hcb Hcached.
  destruct w as [f em cr inf tm jb acts d rel init].
  simpl in Hinit, Hs, Hcb, Hcached. subst init.
  cbn [jobs timers emitted inflight front].
  set (a := length acts).
  set (W2 :=
    mkWorld f em cr inf (tm ++ [EmitResumed a])
      (jb ++ [AfterFind (InResumeOperation a) target])
      (acts ++ [mkResumeLocals false None]) d rel true).
  set (W3 :=
    mkWorld f em cr inf (tm ++ [EmitResumed a]) jb
      (acts ++ [mkResumeLocals false (Some target)]) d rel true).
  set (W4 :=
    mkWorld f (em ++ [mkEmission Resumed f]) cr inf (tm ++ [WarpToTarget a]) jb
      (acts ++ [mkResumeLocals true (Some target)]) d rel true).
  set (W5 :=
    timeWarp
      (mkWorld f (em ++ [mkEmission Resumed f]) cr inf tm jb
         (acts ++ [mkResumeLocals true (Some target)]) d rel true)
      (pd_point target) (pd_time target)
      (Some (bool_decide (is_Some (pd_frame target)))) None).
  assert (H1 :
    step (resumeFamily (mkWorld f em cr inf tm jb acts d rel true) command "")
      (RunJob (length jb)) = Some W2).
  { unfold resumeFamily, enqueue. simpl. rewrite lookup_snoc. simpl.
    rewrite delete_snoc. unfold _resumeOperation_start. simpl.
    unfold or_string. simpl.
    unfold awaitFindResumeTarget, _findResumeTarget_begin. simpl.
    by rewrite Hs, Hcached. }
  assert (H2 : step W2 (RunJob (length jb)) = Some W3).
  { subst W2 W3. simpl. rewrite lookup_snoc. simpl. rewrite delete_snoc.
    unfold _resumeOperation_found. simpl. subst a. rewrite lookup_snoc. simpl.
    by rewrite insert_snoc. }
  assert (H3 : step W3 (FireTimer (length tm)) = Some W4).
  { subst W3 W4. simpl. rewrite lookup_snoc. simpl. rewrite delete_snoc.
    unfold emitResumed. simpl. subst a. rewrite lookup_snoc. simpl.
    by rewrite insert_snoc. }
  assert (H4 : step W4 (FireTimer (length tm)) = Some W5).
  { subst W4 W5. simpl. rewrite lookup_snoc. simpl. rewrite delete_snoc.
    unfold warpToTarget. simpl. subst a. by rewrite lookup_snoc. }
  exists W5. split.
  - rewrite (run_cons _ _ _ _
               (eq_refl : step _ (CallResumeFamily command "") = Some _)).
    by rewrite (run_cons _ _ _ _ H1), (run_cons _ _ _ _ H2),
      (run_cons _ _ _ _ H3), (run_cons _ _ _ _ H4).
  - subst W5. unfold timeWarp. simpl. rewrite Hcb. simpl.
    rewrite precache_emitted, precache_front, precache_only. simpl.
    split; [|done].
    rewrite <- app_assoc. rewrite drop_app_length. done.
Qed.

Lemma precached_step_needs_no_command_witness :
  initialized cachedWorld = true
  ∧ truthy_opt_string (sessionId (front cachedWorld)) = true
  ∧ warpCallback (front cachedWorld) = None
  ∧ resumeTargets (front cachedWorld)
      !! targetKey (currentPoint (front cachedWorld)) findStepOverTarget
    = Some cachedTarget
  ∧ ∃ w',
      run cachedWorld
        [CallResumeFamily findStepOverTarget "";
         RunJob (length (jobs cachedWorld)); RunJob (length (jobs cachedWorld));
         FireTimer (length (timers cachedWorld));
         FireTimer (length (timers cachedWorld))]
      = Some w'
      ∧ currentPoint (front w') = "20".
Proof.
  assert (Hinit : initialized cachedWorld = true) by reflexivity.
  assert (Hs : truthy_opt_string (sessionId (front cachedWorld)) = true)
    by reflexivity.
  assert (Hcb : warpCallback (front cachedWorld) = None) by reflexivity.
  assert (Hcached :
    resumeTargets (front cachedWorld)
      !! targetKey (currentPoint (front cachedWorld)) findStepOverTarget
    = Some cachedTarget) by (by vm_compute).
  split; [exact Hinit|]. split; [exact Hs|]. split; [exact Hcb|].
  split; [exact Hcached|].
  destruct (precached_step_needs_no_command cachedWorld findStepOverTarget
              cachedTarget Hinit Hs Hcb Hcached)
    as (w' & Hrun & _ & Hpoint & _).
  exists w'. split; [exact Hrun|exact Hpoint].
Defined.



(** X28: [resumeTarget] only fills the cache.  On a coordinator that is
    initialized and has a session, [resumeTarget(point)] with its target
    not in the cache sends one command; once the reply has arrived and
    the method has run to its end, the coordinator is as it was before
    the call but for the target, which is in the cache: it has not moved
    and nothing was emitted.  With the target in the cache the call
    changes nothing. *)
Theorem resumeTarget_only_fills_the_cache (w : World) (point : ExecutionPoint)
    (target : PauseDescription) :
  initialized w = true →
  truthy_opt_string (sessionId (front w)) = true →
  (resumeTargets (front w) !! targetKey point findResumeTarget = None →
   run w
     [CallResumeTarget point; RunJob (length (jobs w));
      Deliver (length (inflight w)) (GotTarget target);
      RunJob (length (jobs w))]
   = Some
       (set_front w
          (set_resumeTargets (front w)
             (<[targetKey point findResumeTarget := target]>
                (resumeTargets (front w))))))
  ∧ (resumeTargets (front w) !! targetKey point findResumeTarget = Some target →
     run w
       [CallResumeTarget point; RunJob (length (jobs w));
        RunJob (length (jobs w))]
     = Some w).
Proof.
  intros Hinit Hs.
  destruct w as [f em cr inf tm jb acts d rel init].
  simpl in Hinit, Hs. subst init.
  cbn [jobs timers emitted inflight front].
  set (W0 := mkWorld f em cr inf tm jb acts d rel true).
  assert (H0 : step W0 (CallResumeTarget point)
               = Some (resumeTargetOf W0 point)) by reflexivity.
  split.
  - intros Hmiss.
    set (request :=
      FindTarget findResumeTarget point (targetKey point findResumeTarget)
        (resumeTargetEpoch f) InResumeTarget).
    set (W1 := mkWorld f em cr (inf ++ [request]) tm jb acts d rel true).
    set (f' :=
      set_resumeTargets f
        (<[targetKey point findResumeTarget := target]> (resumeTargets f))).
    set (W2 :=
      mkWorld f' em cr inf tm (jb ++ [AfterFind InResumeTarget target])
        acts d rel true).
    assert (H1 : step (resumeTargetOf W0 point) (RunJob (length jb)) = Some W1).
    { unfold resumeTargetOf, enqueue. simpl. rewrite lookup_snoc. simpl.
      rewrite delete_snoc.
      unfold awaitFindResumeTarget, _findResumeTarget_begin. simpl.
      by rewrite Hs, Hmiss. }
    assert (H2 : step W1 (Deliver (length inf) (GotTarget target)) = Some W2).
    { subst W1 W2. simpl. rewrite lookup_snoc. simpl. rewrite delete_snoc.
      unfold _findResumeTarget_resume. simpl.
      by rewrite bool_decide_eq_true_2. }
    assert (H3 : step W2 (RunJob (length jb)) = Some (set_front W0 f')).
    { subst W2. simpl. rewrite lookup_snoc. simpl. by rewrite delete_snoc. }
    by rewrite (run_cons _ _ _ _ H0), (run_cons _ _ _ _ H1),
      (run_cons _ _ _ _ H2), (run_cons _ _ _ _ H3).
  - intros Hhit.
    set (W1 :=
      mkWorld f em cr inf tm (jb ++ [AfterFind InResumeTarget target])
        acts d rel true).
    assert (H1 : step (resumeTargetOf W0 point) (RunJob (length jb)) = Some W1).
    { unfold resumeTargetOf, enqueue. simpl. rewrite lookup_snoc. simpl.
      rewrite delete_snoc.
      unfold awaitFindResumeTarget, _findResumeTarget_begin. simpl.
      by rewrite Hs, Hhit. }
    assert (H2 : step W1 (RunJob (length jb)) = Some W0).
    { subst W1. simpl. rewrite lookup_snoc. simpl. by rewrite delete_snoc. }
    by rewrite (run_cons _ _ _ _ H0), (run_cons _ _ _ _ H1),
      (run_cons _ _ _ _ H2).
Qed.

Lemma resumeTarget_only_fills_the_cache_witness :
  initialized cachedWorld = true
  ∧ truthy_opt_string (sessionId (front cachedWorld)) = true
  ∧ resumeTargets (front cachedWorld) !! targetKey "0" findResumeTarget = None
  ∧ ∃ w',
      run cachedWorld
        [CallResumeTarget "0"; RunJob (length (jobs cachedWorld));
         Deliver (length (inflight cachedWorld)) (GotTarget cachedTarget);
         RunJob (length (jobs cachedWorld))]
      = Some w'
      ∧ currentPoint (front w') = "0".
Proof.
  assert (Hinit : initialized cachedWorld = true) by reflexivity.
  assert (Hs : truthy_opt_string (sessionId (front cachedWorld)) = true)
    by reflexivity.
  assert (Hmiss :
    resumeTargets (front cachedWorld) !! targetKey "0" findResumeTarget = None)
    by (by vm_compute).
  split; [exact Hinit|]. split; [exact Hs|]. split; [exact Hmiss|].
  eexists. split.
  - exact (proj1 (resumeTarget_only_fills_the_cache cachedWorld "0"
                    cachedTarget Hinit Hs) Hmiss).
  - reflexivity.
Defined.

(** X29: a mutation without a session.  [setBreakpoint], [blackbox] and
    [unblackbox], called while there is no session, send nothing: the
    assertion of their callback fails.  The resume targets are
    invalidated all the same (the cache is emptied, the epoch rises) and
    the mutation counts as pending until the [finally] block of
    [_invalidateResumeTargets] has run, which brings the counter back to
    what it was; no breakpoint is recorded. *)
Theorem mutation_without_a_session_is_not_sent (w : World)
    (callback : Mutation) :
  truthy_opt_string (sessionId (front w)) = false →
  (∀ sourceId line column condition,
     (setBreakpoint w sourceId line column condition).1
     = _invalidateResumeTargets w
         (SetBreakpoint (mkLocation sourceId line column) condition))
  ∧ (∀ sourceId begin end_,
       blackbox w sourceId begin end_
       = _invalidateResumeTargets w (BlackboxSource sourceId begin end_)
       ∧ unblackbox w sourceId begin end_
         = _invalidateResumeTargets w (UnblackboxSource sourceId begin end_))
  ∧ let w1 := _invalidateResumeTargets w callback in
    inflight w1 = inflight w
    ∧ jobs w1 = jobs w ++ [Finally Rejected]
    ∧ resumeTargets (front w1) = ∅
    ∧ epochOf w1 = epochOf w + 1
    ∧ numPendingInvalidateCommands (front w1)
      = numPendingInvalidateCommands (front w) + 1
    ∧ ∃ w2,
        step w1 (RunJob (length (jobs w))) = Some w2
        ∧ numPendingInvalidateCommands (front w2)
          = numPendingInvalidateCommands (front w)
        ∧ breakpoints (front w2) = breakpoints (front w)
        ∧ inflight w2 = inflight w ∧ jobs w2 = jobs w.
Proof.
  intros Hs. split; [done|]. split; [done|]. cbv zeta.
  unfold _invalidateResumeTargets, callback_begin. simpl. rewrite Hs.
  unfold epochOf. simpl. repeat (split; [done|]).
  rewrite lookup_snoc. simpl. rewrite delete_snoc.
  eexists. split; [reflexivity|].
  unfold _invalidateResumeTargets_finally. simpl.
  destruct (bool_decide _); simpl.
  - rewrite precache_front. simpl. split; [lia|]. split; [done|].
    rewrite precache_without_session by done. done.
  - split; [lia|done].
Qed.

Lemma mutation_without_a_session_is_not_sent_witness :
  truthy_opt_string (sessionId (front initialWorld)) = false
  ∧ inflight (blackbox initialWorld "A" (mkSourceLocation 1 0) (mkSourceLocation 9 0))
    = [].
Proof.
  assert (Hs : truthy_opt_string (sessionId (front initialWorld)) = false)
    by reflexivity.
  split; [exact Hs|].
  exact (proj1 (proj2 (proj2
           (mutation_without_a_session_is_not_sent initialWorld
              (BlackboxSource "A" (mkSourceLocation 1 0) (mkSourceLocation 9 0))
              Hs)))).
Defined.

(** X30: [isMinifiedSource], over the registry the listener has built
    from announcements with different ids: a source counts as minified
    exactly when a registered source of kind [prettyPrinted] lists it
    among its generated sources. *)
Theorem isMinifiedSource_has_a_pretty_printed_version
    (announced : list newSource) (id : SourceId) :
  NoDup (ns_sourceId <$> announced) →
  Registry.isMinifiedSource (registryOf announced) id = true
  ↔ ∃ pretty info,
      Registry.sources (registryOf announced) !! pretty = Some info
      ∧ kind info = prettyPrinted
      ∧ id ∈ Registry.generatedIdsOf info.
Proof.
  intros Hnd.
  destruct (registryOf_invariants announced Registry.empty Hnd)
    as [_ Hrev].
  { intros s _. apply lookup_empty. }
  { apply indexed_empty. }
  { apply reversed_empty. }
  fold (registryOf announced) in Hrev.
  unfold Registry.isMinifiedSource, some. rewrite existsb_exists. split.
  - intros (pretty & Hin & Hkind).
    apply list_elem_of_In, Hrev in Hin as (info & Hinfo & Hgen).
    rewrite Hinfo in Hkind. apply bool_decide_eq_true in Hkind.
    by exists pretty, info.
  - intros (pretty & info & Hinfo & Hkind & Hgen).
    exists pretty. split.
    + apply list_elem_of_In, Hrev. by exists info.
    + rewrite Hinfo. by apply bool_decide_eq_true.
Qed.

Lemma isMinifiedSource_has_a_pretty_printed_version_witness :
  NoDup (ns_sourceId <$> pageWithInlineScript)
  ∧ (Registry.isMinifiedSource (registryOf pageWithInlineScript) "inline" = true
     ↔ ∃ pretty info,
         Registry.sources (registryOf pageWithInlineScript) !! pretty = Some info
         ∧ kind info = prettyPrinted
         ∧ "inline" ∈ Registry.generatedIdsOf info).
Proof.
  assert (Hnd : NoDup (ns_sourceId <$> pageWithInlineScript)) by compute_done.
  split; [exact Hnd|].
  exact (isMinifiedSource_has_a_pretty_printed_version pageWithInlineScript
           "inline" Hnd).
Defined.
